(** * WarFrontLive front end: the data engine under the map

    A shallow embedding of the core of [script.js] (the rectangle
    variant, with [updateRegionVisibility]) and of its sibling variant
    (the region-marker variant, with [regionStore] and
    [findMessagesInRegion]).

    Modelling conventions.
    - JS numbers are IEEE-754 binary64 values: Rocq's primitive [float].
      The comparison operators of the source are the float comparisons
      ([x > y] is [y < x], [x >= y] is [y <= x]; every comparison with
      NaN is false), and [===] on numbers is float equality.
    - JS strings are [string]s; [trim] and [toLowerCase] act on the ASCII
      range.
    - A JS object used as a dictionary is a [gmap] with string keys (own
      properties only); the stores that the source iterates with
      [Object.keys] are association lists in insertion order.
    - The input is typed as the two files deliver it: a cache value is
      [null] or an object whose properties, where present, are numbers;
      the text, date and channel of a message are strings; a location
      entry and a message id are arbitrary JSON values.
    - An exception is an explicit result ([TypeError]); the Leaflet
      layers are lists of the shapes that were added, and the paint order
      is a stack of layer indices. *)

From Stdlib Require Import Floats ZArith Lia List Bool Ascii String Sorted Permutation.
From Stdlib Require Uint63.
From stdpp Require Import base option list gmap strings fin_maps.
Import ListNotations.

#[local] Set Warnings "-inexact-float".

(** ** JS numbers *)

Module Num.

Definition lt (x y : float) : bool := PrimFloat.ltb x y.
Definition gt (x y : float) : bool := PrimFloat.ltb y x.
Definition le (x y : float) : bool := PrimFloat.leb x y.
Definition ge (x y : float) : bool := PrimFloat.leb y x.
(** [x === y] on two numbers. *)
Definition seq (x y : float) : bool := PrimFloat.eqb x y.
(** The order of the non-NaN values, read off [SFcompare]: a class
    (-2 for -oo, -1 negative, 0 zero, 1 positive, 2 for +oo), then the
    exponent and the mantissa, both negated for negative values. *)
Definition rank (f : SpecFloat.spec_float) : option (Z * Z * Z) :=
  match f with
  | SpecFloat.S754_nan => None
  | SpecFloat.S754_zero _ => Some (0, 0, 0)%Z
  | SpecFloat.S754_infinity s => Some (if s then (-2) else 2, 0, 0)%Z
  | SpecFloat.S754_finite s m e =>
      Some (if s then (-1, - e, - Z.pos m) else (1, e, Z.pos m))%Z
  end.

Definition lex_lt (a b : Z * Z * Z) : Prop :=
  let '(a1, a2, a3) := a in
  let '(b1, b2, b3) := b in
  (a1 < b1 \/ (a1 = b1 /\ (a2 < b2 \/ (a2 = b2 /\ a3 < b3))))%Z.

Definition lex_le (a b : Z * Z * Z) : Prop := lex_lt a b \/ a = b.

(** [x] and [y] are numbers other than NaN, ordered [x < y]. *)
Definition Lt (x y : float) : Prop :=
  exists a b, rank (Prim2SF x) = Some a /\ rank (Prim2SF y) = Some b /\ lex_lt a b.

Definition Le (x y : float) : Prop :=
  exists a b, rank (Prim2SF x) = Some a /\ rank (Prim2SF y) = Some b /\ lex_le a b.

End Num.

(** ** JS strings and values *)

Module Js.

(** WhiteSpace and LineTerminator code points of the ASCII range: the
    characters that [String.prototype.trim] strips. *)
Definition is_space (c : ascii) : bool :=
  match nat_of_ascii c with
  | 9 | 10 | 11 | 12 | 13 | 32 => true
  | _ => false
  end.

Fixpoint trimStart (s : string) : string :=
  match s with
  | EmptyString => EmptyString
  | String c s' => if is_space c then trimStart s' else s
  end.

Fixpoint trimEnd (s : string) : string :=
  match s with
  | EmptyString => EmptyString
  | String c s' =>
      match trimEnd s' with
      | EmptyString => if is_space c then EmptyString else String c EmptyString
      | t => String c t
      end
  end.

(** [String.prototype.trim], for the whitespace of the ASCII range. *)
Definition trim (s : string) : string := trimEnd (trimStart s).

(** [String.prototype.toLowerCase], for the letters of the ASCII range:
    every other character is left as it is. *)
Definition lower (c : ascii) : ascii :=
  let n := nat_of_ascii c in
  if (65 <=? n)%nat && (n <=? 90)%nat then ascii_of_nat (n + 32) else c.

Fixpoint toLowerCase (s : string) : string :=
  match s with
  | EmptyString => EmptyString
  | String c s' => String (lower c) (toLowerCase s')
  end.

(** A value as [JSON.parse] delivers it. [JObject] is an object or an
    array: a fresh reference, none of whose properties the core reads. *)
Inductive JsVal :=
| JUndefined
| JNull
| JBool (b : bool)
| JNum (x : float)
| JStr (s : string)
| JObject.

(** ToBoolean. *)
Definition truthy (v : JsVal) : bool :=
  match v with
  | JUndefined | JNull => false
  | JBool b => b
  | JNum x => negb (PrimFloat.eqb x 0) && PrimFloat.eqb x x
  | JStr s => negb (String.eqb s EmptyString)
  | JObject => true
  end.

(** SameValueZero, the membership test of a [Set]. Two parsed objects
    are never the same reference. *)
Definition sameValueZero (v w : JsVal) : bool :=
  match v, w with
  | JUndefined, JUndefined => true
  | JNull, JNull => true
  | JBool a, JBool b => Bool.eqb a b
  | JNum x, JNum y =>
      PrimFloat.eqb x y || (negb (PrimFloat.eqb x x) && negb (PrimFloat.eqb y y))
  | JStr s, JStr t => String.eqb s t
  | _, _ => false
  end.

Definition Set_has (s : list JsVal) (v : JsVal) : bool :=
  existsb (sameValueZero v) s.

(** The outcome of a call: a value, or a TypeError thrown through it. *)
Inductive Completion (A : Type) :=
| Normal (a : A)
| TypeError.
Arguments Normal {A} a.
Arguments TypeError {A}.

Definition bind {A B} (c : Completion A) (k : A -> Completion B) : Completion B :=
  match c with
  | Normal a => k a
  | TypeError => TypeError
  end.

(** [xs.forEach(f)] for a callback that threads a state and may throw. *)
Fixpoint forEach {A S} (f : S -> A -> Completion S) (xs : list A) (s : S)
  : Completion S :=
  match xs with
  | [] => Normal s
  | x :: xs' => bind (f s x) (forEach f xs')
  end.

(** [Array.prototype.sort] with a comparator. [cmp a b] is the sign of
    what the comparator returns, NaN read as 0 as SortCompare does; the
    sort is stable, and for a consistent comparator every stable sort
    returns this list. *)
Fixpoint sort_insert {A} (cmp : A -> A -> comparison) (x : A) (l : list A) : list A :=
  match l with
  | [] => [x]
  | y :: l' =>
      match cmp x y with
      | Gt => y :: sort_insert cmp x l'
      | _ => x :: l
      end
  end.

Definition sort {A} (cmp : A -> A -> comparison) (l : list A) : list A :=
  fold_right (sort_insert cmp) [] l.

(** Sign of a comparator result that is a number. *)
Definition sign (x : float) : comparison :=
  if PrimFloat.ltb x 0 then Lt else if PrimFloat.ltb 0 x then Gt else Eq.

End Js.

(** ** The data model shared by the two variants *)

(** A tagged message. [id] is [JUndefined] when the record carries none;
    [locations] is empty when the record has no such array. *)
Record Message := mkMessage {
  id : Js.JsVal;
  text : string;
  cleaned_text : string;
  channel : string;
  date : string;
  locations : list Js.JsVal
}.

(** A non-null value of the location cache: the six properties the code
    reads, [None] where the property is [undefined]. *)
Record Coord := mkCoord {
  c_north : option float;
  c_south : option float;
  c_east : option float;
  c_west : option float;
  c_lat : option float;
  c_lon : option float
}.

Record Bounds := mkBounds {
  north : float;
  south : float;
  east : float;
  west : float
}.

(** The parsed cache file: its entries in [Object.keys] order, [None] for
    a key that is explicitly [null]. *)
Definition RawCache := list (string * option Coord).

(** [location.trim().toLowerCase()] *)
Definition locationKey (location : string) : string :=
  Js.toLowerCase (Js.trim location).

Definition point (lat lon : float) : Coord :=
  mkCoord None None None None (Some lat) (Some lon).

Definition box (n s e w : float) : Coord :=
  mkCoord (Some n) (Some s) (Some e) (Some w) None None.

(** ** The region-marker variant ([src/unnamed/part_000]) *)

Module Regions.
Import Js.

(** [initMap]: the cache is re-keyed by the normalized key,
    [locationCache[key.trim().toLowerCase()] = rawLocationCache[key]]
    for every key in turn. Every assignment is taken to create or
    replace a key, as it does for every key but [__proto__]. *)
Definition locationCache (rawLocationCache : RawCache) : gmap string (option Coord) :=
  fold_left (fun cache '(key, v) => <[locationKey key := v]> cache)
            rawLocationCache ∅.

(** The icon class that [updateRegionMarker] gives a region marker. *)
Inductive Activity := HighActivity | MediumActivity | DefaultActivity.

Record Region := mkRegion {
  name : string;
  bounds : Bounds;
  messages : list Message;
  center : float * float;
  marker : Activity
}.

(** The globals that a rebuild writes. Ids [msg_k] and [region_k] are
    the numbers [k]; the two stores list their entries in insertion
    order, which is the order of [Object.keys]. The layer groups hold
    the positions of the markers and the corners of the rectangles. *)
Record State := mkState {
  messageStore : list (nat * Message);
  regionStore : list (nat * Region);
  nextMsgId : nat;
  nextRegionId : nat;
  markerClusterGroup : list (float * float);
  regionMarkersGroup : list (float * float);
  rectangleLayerGroup : list ((float * float) * (float * float))
}.

Definition activityOf (messageCount : nat) : Activity :=
  if (10 <=? messageCount)%nat then HighActivity
  else if (5 <=? messageCount)%nat then MediumActivity
  else DefaultActivity.

(** [updateRegionMarker] on a region of the store. *)
Definition updateRegionMarker (region : Region) : Region :=
  mkRegion (name region) (bounds region) (messages region) (center region)
           (activityOf (length (messages region))).

(** The predicate of the [find] over [Object.keys(regionStore)]. *)
Definition sameRegion (locationName : string) (n s e w : float) (r : Region) : bool :=
  String.eqb (name r) locationName
  && Num.seq (north (bounds r)) n
  && Num.seq (south (bounds r)) s
  && Num.seq (east (bounds r)) e
  && Num.seq (west (bounds r)) w.

Definition pushMessage (regionId : nat) (msg : Message) (entry : nat * Region)
  : nat * Region :=
  if (fst entry =? regionId)%nat
  then (fst entry,
        updateRegionMarker
          (mkRegion (name (snd entry)) (bounds (snd entry))
                    (messages (snd entry) ++ [msg]) (center (snd entry))
                    (marker (snd entry))))
  else entry.

(** [addLocationToMap]. The constructors of the map library, [L.marker]
    and [L.rectangle], are taken to accept the positions that they are
    given; they throw on a NaN coordinate. *)
Definition addLocationToMap (coord : Coord) (msg : Message) (locationName : string)
    (st : State) : State :=
  let msgId := nextMsgId st in
  let store := messageStore st ++ [(msgId, msg)] in
  match c_north coord, c_south coord, c_east coord, c_west coord with
  | Some n, Some s, Some e, Some w =>
      let centerLat := ((n + s) / 2)%float in
      let centerLon := ((e + w) / 2)%float in
      match List.find (fun entry => sameRegion locationName n s e w (snd entry))
                      (regionStore st) with
      | Some (existingRegionId, _) =>
          mkState store
                  (map (pushMessage existingRegionId msg) (regionStore st))
                  (S msgId) (nextRegionId st)
                  (markerClusterGroup st) (regionMarkersGroup st)
                  (rectangleLayerGroup st)
      | None =>
          let regionId := nextRegionId st in
          mkState store
                  (regionStore st ++
                     [(regionId,
                       mkRegion locationName (mkBounds n s e w) [msg]
                                (centerLat, centerLon) DefaultActivity)])
                  (S msgId) (S regionId)
                  (markerClusterGroup st)
                  (regionMarkersGroup st ++ [(centerLat, centerLon)])
                  (rectangleLayerGroup st ++ [((s, w), (n, e))])
      end
  | _, _, _, _ =>
      match c_lat coord, c_lon coord with
      | Some lat, Some lon =>
          mkState store (regionStore st) (S msgId) (nextRegionId st)
                  (markerClusterGroup st ++ [(lat, lon)])
                  (regionMarkersGroup st) (rectangleLayerGroup st)
      | _, _ =>
          mkState store (regionStore st) (S msgId) (nextRegionId st)
                  (markerClusterGroup st) (regionMarkersGroup st)
                  (rectangleLayerGroup st)
      end
  end.

(** The state after the clearing statements at the top of
    [refreshMarkers]. *)
Definition cleared : State := mkState [] [] 0 0 [] [] [].

(** The callback of [msg.locations.forEach] in [refreshMarkers]. The
    cache is read by its own keys: the lookup under the name of a
    property that every object inherits is not modelled. *)
Definition placeLocation (cache : gmap string (option Coord)) (msg : Message)
    (st : State) (location : JsVal) : State :=
  match location with
  | JStr s =>
      if negb (truthy location) then st
      else
        let key := locationKey s in
        if negb (truthy (JStr key)) then st
        else match cache !! key with
             | Some (Some coord) => addLocationToMap coord msg s st
             | Some None => st
             | None => st
             end
  | _ => st
  end.

Definition refreshMarkers (cache : gmap string (option Coord))
    (messages : list Message) : State :=
  fold_left (fun st msg => fold_left (placeLocation cache msg) (locations msg) st)
            messages cleared.

Definition isLocationInBounds (coord : Coord) (bounds : Bounds) : bool :=
  match c_lat coord, c_lon coord with
  | Some lat, Some lon =>
      Num.ge lat (south bounds) && Num.le lat (north bounds)
      && Num.ge lon (west bounds) && Num.le lon (east bounds)
  | _, _ =>
      match c_north coord, c_south coord, c_east coord, c_west coord with
      | Some n, Some s, Some e, Some w =>
          negb (Num.gt s (north bounds) || Num.lt n (south bounds)
                || Num.gt w (east bounds) || Num.lt e (west bounds))
      | _, _, _, _ => false
      end
  end.

(** [msg.id || `${msg.text}_${msg.date}_${msg.channel}`] *)
Definition messageId (msg : Message) : JsVal :=
  if truthy (id msg) then id msg
  else JStr (text msg +:+ "_" +:+ date msg +:+ "_" +:+ channel msg)%string.

(** The locals of [findMessagesInRegion]. *)
Record Found := mkFound {
  messagesInRegion : list Message;
  addedMessages : list JsVal
}.

(** The callback of [msg.locations.forEach] in [findMessagesInRegion];
    the flag is [messageIncluded]. A location that is not a string has
    no [trim] to call. *)
Definition checkLocation (cache : gmap string (option Coord)) (regionBounds : Bounds)
    (msg : Message) (s : bool * Found) (location : JsVal) : Completion (bool * Found) :=
  let '(messageIncluded, found) := s in
  if messageIncluded then Normal s
  else
    match location with
    | JStr str =>
        match cache !! locationKey str with
        | Some (Some coord) =>
            if isLocationInBounds coord regionBounds then
              if Set_has (addedMessages found) (messageId msg) then Normal s
              else Normal (true,
                           mkFound (messagesInRegion found ++ [msg])
                                   (addedMessages found ++ [messageId msg]))
            else Normal s
        | _ => Normal s
        end
    | _ => TypeError
    end.

Definition checkMessage (cache : gmap string (option Coord)) (regionBounds : Bounds)
    (found : Found) (msg : Message) : Completion Found :=
  bind (forEach (checkLocation cache regionBounds msg) (locations msg) (false, found))
       (fun s => Normal (snd s)).

(** [initMap], between the load and the first rebuild: the pass that
    collects the normalized names of all locations for the console calls
    [trim] on each of them. *)
Definition collectLocations (allMessages : list Message) : Completion (list string) :=
  forEach (fun names msg =>
             forEach (fun names loc =>
                        match loc with
                        | JStr s => Normal (names ++ [locationKey s])
                        | _ => TypeError
                        end)
                     (locations msg) names)
          allMessages [].

(** [initMap] once the two files are loaded: the state of the layers and
    stores, and whether the [catch] block raised its alert. An exception
    in the [try] block leaves the layers as they were created. The date
    inputs and the events view, which [initMap] fills around the rebuild,
    are outside this model. *)
Definition initMap (rawLocationCache : RawCache) (allMessages : list Message)
  : State * bool :=
  match collectLocations allMessages with
  | Normal _ => (refreshMarkers (locationCache rawLocationCache) allMessages, false)
  | TypeError => (cleared, true)
  end.

Section Dates.
(** The time value of [new Date(s)] in milliseconds, [None] for an
    Invalid Date (whose value is NaN). *)
Variable timeValue : string -> option Z.

(** [(a, b) => new Date(b.date) - new Date(a.date)] *)
Definition byDateDesc (a b : Message) : comparison :=
  match timeValue (date b), timeValue (date a) with
  | Some tb, Some ta => (tb ?= ta)%Z
  | _, _ => Eq
  end.

Definition findMessagesInRegion (allMessages : list Message)
    (cache : gmap string (option Coord)) (regionBounds : Bounds)
  : Completion (list Message) :=
  bind (forEach (checkMessage cache regionBounds) allMessages (mkFound [] []))
       (fun found => Normal (sort byDateDesc (messagesInRegion found))).
End Dates.

End Regions.

(** ** The rectangle variant ([src/script.js]) *)

Module Rectangles.
Import Js.

(** [initMap]: the cache is the parsed file itself. *)
Definition locationCache (raw : RawCache) : gmap string (option Coord) :=
  list_to_map raw.

Record State := mkState {
  messageStore : list (nat * Message);
  nextMsgId : nat;
  markerClusterGroup : list (float * float);
  rectangleLayerGroup : list ((float * float) * (float * float))
}.

Definition addLocationToMap (coord : Coord) (msg : Message) (locationName : string)
    (st : State) : State :=
  let msgId := nextMsgId st in
  let store := messageStore st ++ [(msgId, msg)] in
  match c_north coord, c_south coord, c_east coord, c_west coord with
  | Some n, Some s, Some e, Some w =>
      mkState store (S msgId) (markerClusterGroup st)
              (rectangleLayerGroup st ++ [((s, w), (n, e))])
  | _, _, _, _ =>
      match c_lat coord, c_lon coord with
      | Some lat, Some lon =>
          mkState store (S msgId) (markerClusterGroup st ++ [(lat, lon)])
                  (rectangleLayerGroup st)
      | _, _ => mkState store (S msgId) (markerClusterGroup st) (rectangleLayerGroup st)
      end
  end.

Definition cleared : State := mkState [] 0 [] [].

Definition placeLocation (cache : gmap string (option Coord)) (msg : Message)
    (st : State) (location : JsVal) : State :=
  match location with
  | JStr s =>
      if negb (truthy location) then st
      else
        let key := locationKey s in
        if negb (truthy (JStr key)) then st
        else match cache !! key with
             | Some (Some coord) => addLocationToMap coord msg s st
             | Some None => st
             | None => st
             end
  | _ => st
  end.

(** The layers that [refreshMarkers] leaves; its last statement,
    [updateRegionVisibility()], restyles them and is modelled below. *)
Definition refreshMarkers (cache : gmap string (option Coord))
    (messages : list Message) : State :=
  fold_left (fun st msg => fold_left (placeLocation cache msg) (locations msg) st)
            messages cleared.

(** An entry of [rectanglesWithSize]; [layer] is the position of the
    rectangle in the layer group. *)
Record Item := mkItem {
  layer : nat;
  area : float;
  relativeArea : float;
  latSpan : float;
  lonSpan : float
}.

(** The body of [eachLayer]: [layerBounds] is what [getBounds()]
    reports for the rectangle. *)
Definition measure (viewportLatSpan viewportLonSpan : float) (layer : nat)
    (layerBounds : Bounds) : Item :=
  let latSpan := (north layerBounds - south layerBounds)%float in
  let lonSpan := (east layerBounds - west layerBounds)%float in
  let area := (latSpan * lonSpan)%float in
  let relativeLatSize := (latSpan / viewportLatSpan)%float in
  let relativeLonSize := (lonSpan / viewportLonSpan)%float in
  let relativeArea := (relativeLatSize * relativeLonSize)%float in
  mkItem layer area relativeArea latSpan lonSpan.

(** [(a, b) => a.area - b.area] *)
Definition byArea (a b : Item) : comparison := sign (area a - area b)%float.

(** The value of [shouldShow] when the style is set. *)
Definition shouldShow (currentZoom : float) (item : Item) : bool :=
  let shouldShow := true in
  let shouldShow :=
    if Num.lt currentZoom 9 then
      if Num.lt (latSpan item) 0.1 || Num.lt (lonSpan item) 0.1 then false else shouldShow
    else if Num.lt currentZoom 11 then
      if Num.lt (latSpan item) 0.05 || Num.lt (lonSpan item) 0.05 then false else shouldShow
    else if Num.lt currentZoom 13 then
      if Num.lt (latSpan item) 0.01 || Num.lt (lonSpan item) 0.01 then false else shouldShow
    else shouldShow in
  if Num.gt currentZoom 13 then
    if Num.gt (relativeArea item) 0.4 then false else shouldShow
  else if Num.gt currentZoom 11 then
    if Num.gt (relativeArea item) 0.6 then false else shouldShow
  else shouldShow.

(** The calls made on the layers. *)
Inductive Call :=
| SetStyle (layer : nat) (fillOpacity opacity : float)
| BringToFront (layer : nat)
| BringToBack (layer : nat).

(** The body of [rectanglesWithSize.forEach((item, index) => ...)];
    [index < length / 2] is decided on the integers as
    [2 * index < length]. *)
Definition restyle (currentZoom : float) (len : nat) (index : nat) (item : Item)
  : list Call :=
  if shouldShow currentZoom item then
    [SetStyle (layer item) 0.2 0.8;
     if (2 * index <? len)%nat then BringToFront (layer item)
     else BringToBack (layer item)]
  else [SetStyle (layer item) 0 0].

(** [rectanglesWithSize] after the sort; [bounds] is the viewport and
    [layers] lists what [getBounds()] reports for each rectangle of the
    layer group. *)
Definition rectanglesWithSize (bounds : Bounds) (layers : list Bounds) : list Item :=
  let viewportLatSpan := (north bounds - south bounds)%float in
  let viewportLonSpan := (east bounds - west bounds)%float in
  sort byArea (imap (measure viewportLatSpan viewportLonSpan) layers).

Definition updateRegionVisibility (hasLayer : bool) (currentZoom : float)
    (bounds : Bounds) (layers : list Bounds) : list Call :=
  if negb hasLayer then []
  else
    let items := rectanglesWithSize bounds layers in
    concat (imap (restyle currentZoom (length items)) items).

(** The paint order of the layers, bottom first, after a call:
    [bringToFront] moves a layer above all others and [bringToBack]
    below all others. *)
Definition paint (order : list nat) (c : Call) : list nat :=
  match c with
  | SetStyle _ _ _ => order
  | BringToFront l => List.filter (fun k => negb (k =? l)%nat) order ++ [l]
  | BringToBack l => l :: List.filter (fun k => negb (k =? l)%nat) order
  end.

End Rectangles.

(** ** Edit distance (the same function in both variants) *)

Module Lev.

(** [matrix[j][i]], with [null] read as the number 0 as [null + 1]
    does. Every index the loops read lies inside the table. *)
Definition cell (matrix : list (list (option nat))) (j i : nat) : nat :=
  match matrix !! j with
  | Some row => match row !! i with
                | Some (Some v) => v
                | _ => 0
                end
  | None => 0
  end.

(** [matrix[j][i] = v] *)
Definition store (matrix : list (list (option nat))) (j i v : nat)
  : list (list (option nat)) :=
  match matrix !! j with
  | Some row => <[j := <[i := Some v]> row]> matrix
  | None => matrix
  end.

(** [for (let k = from; k <= to; k++) body] over a threaded state. *)
Definition for_upto {S} (from to : nat) (body : S -> nat -> S) (s : S) : S :=
  fold_left body (seq from (Datatypes.S to - from)) s.

(** [str[k]], a code unit or [undefined]. *)
Definition charAt (str : string) (k : nat) : option ascii := String.get k str.

(** The table when the loops are done. *)
Definition table (str1 str2 : string) : list (list (option nat)) :=
  let len1 := String.length str1 in
  let len2 := String.length str2 in
  let matrix := replicate (S len2) (replicate (S len1) None) in
  let matrix := for_upto 0 len1 (fun m i => store m 0 i i) matrix in
  let matrix := for_upto 0 len2 (fun m j => store m j 0 j) matrix in
  for_upto 1 len2
    (fun m j =>
       for_upto 1 len1
         (fun m i =>
            let cost :=
              if decide (charAt str1 (i - 1) = charAt str2 (j - 1)) then 0 else 1 in
            store m j i
              (Nat.min (cell m j (i - 1) + 1)
                 (Nat.min (cell m (j - 1) i + 1)
                          (cell m (j - 1) (i - 1) + cost))))
         m)
    matrix.

Definition levenshteinDistance (str1 str2 : string) : nat :=
  cell (table str1 str2) (String.length str2) (String.length str1).

(** *** The standard distance, from its definition *)

Definition subst_cost (a b : ascii) : nat := if decide (a = b) then 0 else 1.

(** An edit script of a given cost that turns one word into the other:
    it keeps or substitutes a character, deletes one or inserts one,
    the last three at cost 1 each. *)
Inductive Script : list ascii -> list ascii -> nat -> Prop :=
| script_nil : Script [] [] 0
| script_subst a b s t n :
    Script s t n -> Script (a :: s) (b :: t) (n + subst_cost a b)
| script_delete a s t n :
    Script s t n -> Script (a :: s) t (n + 1)
| script_insert b s t n :
    Script s t n -> Script s (b :: t) (n + 1).

(** [d] is the Levenshtein distance of [s] and [t]: the least cost of a
    script. *)
Definition IsDistance (s t : list ascii) (d : nat) : Prop :=
  Script s t d /\ forall n, Script s t n -> d <= n.

(** The recurrence of the dynamic-programming table on the words
    themselves. *)
Fixpoint distance (s t : list ascii) : nat :=
  match s with
  | [] => length t
  | a :: s' =>
      (fix against (t : list ascii) : nat :=
         match t with
         | [] => length s
         | b :: t' =>
             Nat.min (against t' + 1)
               (Nat.min (distance s' t + 1) (distance s' t' + subst_cost a b))
         end) t
  end.

Definition chars (s : string) : list ascii := list_ascii_of_string s.

(** A table of [h] rows of [w] cells. *)
Definition shaped (w h : nat) (m : list (list (option nat))) : Prop :=
  length m = h /\ Forall (fun row => length row = w) m.

(** The distance of the first [i] characters of one word and the first
    [j] characters of the other: what the cell [j][i] is to hold. *)
Definition prefix_distance (l1 l2 : list ascii) (j i : nat) : nat :=
  distance (rev (take i l1)) (rev (take j l2)).

(** The cells that hold their final value when the main loops are at
    row [j0], column [i0]: the two borders, the rows above [j0] and the
    row [j0] up to column [i0]. *)
Definition settled (str1 str2 : string) (j0 i0 : nat) (m : list (list (option nat)))
  : Prop :=
  shaped (S (String.length str1)) (S (String.length str2)) m
  /\ forall j i, j <= String.length str2 -> i <= String.length str1 ->
       j = 0 \/ i = 0 \/ j < j0 \/ (j = j0 /\ i < i0) ->
       cell m j i = prefix_distance (chars str1) (chars str2) j i.

End Lev.

(** ** Vocabulary of the statements *)

(** The comparator orders by the key [f], larger keys first. *)
Definition descending_on {A : Type} (cmp : A -> A -> comparison) (f : A -> Z)
    (l : list A) : Prop :=
  forall a b, a ∈ l -> b ∈ l -> cmp a b = (f b ?= f a)%Z.

(** The bounds of a region, as the cache value that carries them. *)
Definition asCoord (b : Bounds) : Coord := box (north b) (south b) (east b) (west b).

(** The region case of [isLocationInBounds]. *)
Definition regionsOverlap (a b : Bounds) : bool :=
  Regions.isLocationInBounds (asCoord a) b.

(** The point case of [isLocationInBounds]. *)
Definition pointInRegion (lat lon : float) (r : Bounds) : bool :=
  Regions.isLocationInBounds (point lat lon) r.

(** [north >= south] and [east >= west]. *)
Definition valid (b : Bounds) : Prop :=
  Num.ge (north b) (south b) = true /\ Num.ge (east b) (west b) = true.

(** The zoom bands in the words of the specification: the conditions
    under which a shape is hidden. *)
Definition hidden_by_band (zoom : float) (item : Rectangles.Item) : Prop :=
  let small t :=
    Num.lt (Rectangles.latSpan item) t = true \/ Num.lt (Rectangles.lonSpan item) t = true in
  (Num.lt zoom 9 = true /\ small 0.1%float)
  \/ (Num.le 9 zoom = true /\ Num.lt zoom 11 = true /\ small 0.05%float)
  \/ (Num.le 11 zoom = true /\ Num.lt zoom 13 = true /\ small 0.01%float)
  \/ (Num.gt zoom 13 = true /\ Num.gt (Rectangles.relativeArea item) 0.4 = true)
  \/ (Num.gt zoom 11 = true /\ Num.le zoom 13 = true
      /\ Num.gt (Rectangles.relativeArea item) 0.6 = true).

(** The claim in the words of the specification: the shapes shown, in
    ascending order of area, are split in two halves; the first half is
    brought to front and the second half is sent to back. *)
Definition front_half_of_visible (zoom : float) (bounds : Bounds) (layers : list Bounds)
  : Prop :=
  let visible :=
    List.filter (Rectangles.shouldShow zoom) (Rectangles.rectanglesWithSize bounds layers) in
  let calls := Rectangles.updateRegionVisibility true zoom bounds layers in
  forall k item,
    visible !! k = Some item ->
    if (2 * k <? length visible)%nat
    then Rectangles.BringToFront (Rectangles.layer item) ∈ calls
    else Rectangles.BringToBack (Rectangles.layer item) ∈ calls.

(** A viewport of a tenth of a degree at zoom 14 over four regions, two
    of them far larger than the viewport. *)
Definition nested_viewport : Bounds := mkBounds 31.6 31.5 34.6 34.5.
Definition nested_layers : list Bounds :=
  [ mkBounds 32 31 35 34;
    mkBounds 31.54 31.51 34.54 34.51;
    mkBounds 33 30 36 33;
    mkBounds 31.52 31.51 34.52 34.51 ].

(** The arithmetic midpoint of a box, as the source computes it. *)
Definition midpoint (b : Bounds) : float * float :=
  ((north b + south b) / 2, (east b + west b) / 2)%float.

Definition centered (entry : nat * Regions.Region) : Prop :=
  Regions.center (snd entry) = midpoint (Regions.bounds (snd entry)).

(** A cache value with the four bounds, whatever its other properties. *)
Definition boxed (n s e w : float) (lat lon : option float) : Coord :=
  mkCoord (Some n) (Some s) (Some e) (Some w) lat lon.

(** The claim of C3 at one ingestion: the store of regions is left as it
    was. *)
Definition entry_skipped (coord : Coord) (msg : Message) (locationName : string)
    (st : Regions.State) : Prop :=
  Regions.regionStore (Regions.addLocationToMap coord msg locationName st)
  = Regions.regionStore st.

Definition report : Message :=
  mkMessage Js.JUndefined "shelling reported" "Shelling reported" "channel_a"
            "2024-01-02T10:00:00Z" [Js.JStr "Upside Down"].



Definition gaza_cache : RawCache := [("Gaza"%string, Some (point 31.5 34.47))].

Definition gaza_report : Message :=
  mkMessage Js.JUndefined "strike in Gaza" "Strike in Gaza" "channel_a"
            "2024-01-02T10:00:00Z" [Js.JStr "Gaza"].

(** A location entry that is not a string, or is empty once trimmed. *)
Definition malformed (location : Js.JsVal) : Prop :=
  match location with
  | Js.JStr s => Js.trim s = EmptyString
  | _ => True
  end.

Definition gaza_region : Bounds := mkBounds 32 31 35 34.

Definition garbled_report : Message :=
  mkMessage Js.JUndefined "strike in Gaza" "Strike in Gaza" "channel_a"
            "2024-01-02T10:00:00Z" [Js.JNum 42; Js.JStr "Gaza"].

(** A location resolves to a geometry that satisfies the point test or
    the overlap test against the bounds. *)
Definition resolvesInside (cache : gmap string (option Coord)) (regionBounds : Bounds)
    (location : Js.JsVal) : bool :=
  match location with
  | Js.JStr s =>
      match cache !! locationKey s with
      | Some (Some coord) => Regions.isLocationInBounds coord regionBounds
      | _ => false
      end
  | _ => false
  end.

Definition anyInside (cache : gmap string (option Coord)) (regionBounds : Bounds)
    (msg : Message) : bool :=
  existsb (resolvesInside cache regionBounds) (locations msg).

Definition strings_only (msg : Message) : Prop :=
  Forall (fun l => exists s, l = Js.JStr s) (locations msg).

(** What one message does to the locals of the query. *)
Definition take_message (cache : gmap string (option Coord)) (regionBounds : Bounds)
    (found : Regions.Found) (msg : Message) : Regions.Found :=
  if anyInside cache regionBounds msg
     && negb (Js.Set_has (Regions.addedMessages found) (Regions.messageId msg))
  then Regions.mkFound (Regions.messagesInRegion found ++ [msg])
                       (Regions.addedMessages found ++ [Regions.messageId msg])
  else found.

(** The messages gathered before the sort. *)
Definition gathered (cache : gmap string (option Coord)) (regionBounds : Bounds)
    (allMessages : list Message) : list Message :=
  Regions.messagesInRegion
    (fold_left (take_message cache regionBounds) allMessages (Regions.mkFound [] [])).

(** No two messages of the list have keys that the [Set] takes for the
    same. *)
Definition distinct_keys (l : list Message) : Prop :=
  ForallOrdPairs (fun a b => Js.sameValueZero (Regions.messageId b) (Regions.messageId a) = false) l.

(** The invariant of the scan: the set holds the keys of the messages
    gathered, which are messages of the input, in their input order, with
    a location inside, and with distinct keys; and every message of the
    input read so far that has a location inside is gathered or has the
    key of a gathered one. *)
Record scanned (cache : gmap string (option Coord)) (regionBounds : Bounds)
    (seen : list Message) (found : Regions.Found) : Prop := {
  scanned_keys :
    Regions.addedMessages found = map Regions.messageId (Regions.messagesInRegion found);
  scanned_sub : sublist (Regions.messagesInRegion found) seen;
  scanned_inside :
    Forall (fun m => anyInside cache regionBounds m = true) (Regions.messagesInRegion found);
  scanned_distinct : distinct_keys (Regions.messagesInRegion found);
  scanned_all :
    forall m, m ∈ seen -> anyInside cache regionBounds m = true ->
      m ∈ Regions.messagesInRegion found
      \/ exists m', m' ∈ Regions.messagesInRegion found
                    /\ Js.sameValueZero (Regions.messageId m) (Regions.messageId m') = true
}.

(** The time value of a message that has one. *)
Definition timeOf (timeValue : string -> option Z) (m : Message) : Z :=
  default 0%Z (timeValue (date m)).

(** Two messages without an id, with different texts and channels, whose
    joined keys are the same string. *)
Definition first_alert : Message :=
  mkMessage Js.JUndefined "alert_2024-01-01" "Alert" "wire" "2024-01-02" [Js.JStr "Gaza"].

Definition second_alert : Message :=
  mkMessage Js.JUndefined "alert" "Alert" "2024-01-02_wire" "2024-01-01" [Js.JStr "Gaza"].

(** ** The text search (the same functions in both variants) *)

Module Search.
Import Js.

(** [\w]: a letter, a digit or the underscore. *)
Definition is_word (c : ascii) : bool :=
  let n := nat_of_ascii c in
  ((48 <=? n) && (n <=? 57) || (65 <=? n) && (n <=? 90)
   || (97 <=? n) && (n <=? 122) || (n =? 95))%nat.

(** [.replace(/[^\w\s]/g, ' ')] *)
Fixpoint replacePunctuation (s : string) : string :=
  match s with
  | EmptyString => EmptyString
  | String c s' =>
      String (if is_word c || is_space c then c else " "%char) (replacePunctuation s')
  end.

(** [.replace(/\s+/g, ' ')]; the flag tells that the character before
    was whitespace, already replaced. *)
Fixpoint collapseFrom (inRun : bool) (s : string) : string :=
  match s with
  | EmptyString => EmptyString
  | String c s' =>
      if is_space c
      then if inRun then collapseFrom true s' else String " " (collapseFrom true s')
      else String c (collapseFrom false s')
  end.

Definition normalizeText (text : string) : string :=
  trim (collapseFrom false (replacePunctuation (toLowerCase text))).

(** [s.split(/\s+/)]: the piece that is being read and the pieces after
    it; the flag tells that the character before was whitespace. *)
Fixpoint splitFrom (inRun : bool) (s : string) : string * list string :=
  match s with
  | EmptyString => (EmptyString, [])
  | String c s' =>
      if is_space c
      then if inRun then splitFrom true s'
           else (EmptyString, let '(t, ts) := splitFrom true s' in t :: ts)
      else let '(t, ts) := splitFrom false s' in (String c t, ts)
  end.

Definition split (s : string) : list string :=
  let '(t, ts) := splitFrom false s in t :: ts.

(** [field.includes(word)] *)
Fixpoint includes (word field : string) : bool :=
  String.prefix word field
  || match field with
     | EmptyString => false
     | String _ field' => includes word field'
     end.

(** [a.startsWith(b)] *)
Definition startsWith (a b : string) : bool := String.prefix b a.

(** A length as a number. *)
Definition ofLength (n : nat) : float :=
  PrimFloat.of_uint63 (Uint63.of_Z (Z.of_nat n)).

Definition calculateSimilarity (str1 str2 : string) : float :=
  let maxLength := Nat.max (String.length str1) (String.length str2) in
  if (maxLength =? 0)%nat then 1%float
  else
    let distance := Lev.levenshteinDistance str1 str2 in
    ((ofLength maxLength - ofLength distance) / ofLength maxLength)%float.

Definition fuzzyStringMatch (text pattern : string) (threshold : float) : bool :=
  let words := split text in
  existsb (fun word =>
             if Num.gt (PrimFloat.abs (ofLength (String.length word)
                                       - ofLength (String.length pattern)))
                       (ofLength (String.length pattern) * 0.4)
             then false
             else Num.ge (calculateSimilarity word pattern) threshold)
          words.

(** [searchText.toLowerCase().split(/\s+/).filter(word => word.length > 0)] *)
Definition searchWords (searchText : string) : list string :=
  List.filter (fun word => (0 <? String.length word)%nat) (split (toLowerCase searchText)).

(** The four strategies, on the normalized fields. *)
Definition allWordsMatch (searchWords textFields : list string) : bool :=
  forallb (fun word => existsb (fun field => includes word field) textFields) searchWords.

Definition singleFieldMatch (searchWords textFields : list string) : bool :=
  existsb (fun field => forallb (fun word => includes word field) searchWords) textFields.

Definition fuzzyMatch (searchWords textFields : list string) : bool :=
  existsb (fun word =>
             if (String.length word <=? 3)%nat then false
             else existsb (fun field => fuzzyStringMatch field word 0.8) textFields)
          searchWords.

Definition partialMatch (searchWords textFields : list string) : bool :=
  existsb (fun word =>
             if (String.length word <=? 2)%nat then false
             else existsb (fun field =>
                             existsb (fun fieldWord =>
                                        startsWith fieldWord word || startsWith word fieldWord)
                                     (split field))
                          textFields)
          searchWords.

Section Fields.
(** [toString()] of a number, a boolean, an object or an array. *)
Variable otherToString : JsVal -> string.

(** [field.toString()] *)
Definition fieldToString (field : JsVal) : Completion string :=
  match field with
  | JStr s => Normal s
  | JUndefined | JNull => TypeError
  | _ => Normal (otherToString field)
  end.

(** [[msg.text || '', msg.cleaned_text || '', msg.channel || '',
    ...(msg.locations || [])].map(field => normalizeText(field.toString()))] *)
Definition textFields (msg : Message) : Completion (list string) :=
  bind (forEach (fun fields field =>
                   bind (fieldToString field)
                        (fun s => Normal (fields ++ [normalizeText s])))
                (locations msg)
                [normalizeText (text msg); normalizeText (cleaned_text msg);
                 normalizeText (channel msg)])
       (fun fields => Normal fields).

Definition isTextMatch (msg : Message) (searchText : string) : Completion bool :=
  if negb (truthy (JStr searchText)) then Normal true
  else
    let searchWords := searchWords searchText in
    if (length searchWords =? 0)%nat then Normal true
    else
      bind (textFields msg)
           (fun textFields =>
              Normal (allWordsMatch searchWords textFields
                      || singleFieldMatch searchWords textFields
                      || fuzzyMatch searchWords textFields
                      || partialMatch searchWords textFields)).
End Fields.

End Search.

(** ** The date filter of the map and the events view (the same functions
    in both variants) *)

Module Events.
Import Js.

(** What a handler of the events view ends in. [Shown] carries the list
    that the filter pass assigns to [filteredEventsMessages], which the
    handler then hands to [renderEventsTimeline] (see [eventsTimeline]
    below). *)
Inductive Outcome :=
| Shown (filteredEventsMessages : list Message)
| Alerted
| ThrownRangeError
| ThrownTypeError.

Section Dates.
(** The time value of [new Date(s)] in milliseconds, [None] for an
    Invalid Date. *)
Variable timeValue : string -> option Z.

(** [a >= b && a <= c] on three dates. *)
Definition within (d : option Z) (startDate endDate : option Z) : bool :=
  match d, startDate, endDate with
  | Some d, Some s, Some e => (s <=? d)%Z && (d <=? e)%Z
  | _, _, _ => false
  end.

(** [startDate > endDate] *)
Definition after (startDate endDate : option Z) : bool :=
  match startDate, endDate with
  | Some s, Some e => (e <? s)%Z
  | _, _ => false
  end.

(** [onFilterChange]: the messages that it hands to [refreshMarkers],
    [None] when it alerts and returns; the arguments are the values of
    the two date inputs. *)
Definition onFilterChange (startValue endValue : string) (allMessages : list Message)
  : option (list Message) :=
  let startDate := timeValue startValue in
  let endDate := timeValue endValue in
  if after startDate endDate then None
  else Some (List.filter (fun m => within (timeValue (date m)) startDate endDate) allMessages).

(** [[...messages].sort((a, b) => new Date(b.date) - new Date(a.date))],
    the order of the events view. *)
Definition newestFirst (messages : list Message) : list Message :=
  sort (Regions.byDateDesc timeValue) messages.

(** [d.toISOString()] throws on an Invalid Date. *)
Definition printable (d : option Z) : bool :=
  match d with Some _ => true | None => false end.

Variable otherToString : JsVal -> string.

(** The callback of [allMessages.filter] in [applyEventsFilters]; a date
    filter is in force when [range] is not [None]. *)
Definition passes (range : option (option Z * option Z)) (searchText selectedChannel : string)
    (msg : Message) : Completion bool + unit :=
  let passesDateFilter :=
    match range with
    | Some (startDate, endDate) => within (timeValue (date msg)) startDate endDate
    | None => true
    end in
  match (if negb (truthy (JStr searchText)) then Normal true
         else Search.isTextMatch otherToString msg searchText) with
  | TypeError => inl TypeError
  | Normal passesTextFilter =>
      let passesChannelFilter :=
        negb (truthy (JStr selectedChannel)) || String.eqb (channel msg) selectedChannel in
      if String.eqb searchText "gaza" && negb (printable (timeValue (date msg)))
      then inr tt
      else inl (Normal (passesDateFilter && passesTextFilter && passesChannelFilter))
  end.

Fixpoint filterPasses (range : option (option Z * option Z))
    (searchText selectedChannel : string) (messages : list Message) : Outcome :=
  match messages with
  | [] => Shown []
  | msg :: rest =>
      match passes range searchText selectedChannel msg with
      | inr _ => ThrownRangeError
      | inl TypeError => ThrownTypeError
      | inl (Normal keep) =>
          match filterPasses range searchText selectedChannel rest with
          | Shown kept => Shown (if keep then msg :: kept else kept)
          | other => other
          end
      end
  end.

(** [applyEventsFilters] up to the filter pass; the arguments are the
    values of the two date inputs, of the search box and of the channel
    list. The console calls are kept where they can throw: they print
    dates with [toISOString]. *)
Definition applyEventsFilters (startDateInput endDateInput searchBox selectedChannel : string)
    (allMessages : list Message) : Outcome :=
  let searchText := trim (toLowerCase searchBox) in
  let range :=
    if truthy (JStr startDateInput) || truthy (JStr endDateInput) then
      if truthy (JStr startDateInput) && negb (truthy (JStr endDateInput)) then
        Some (timeValue (startDateInput +:+ "T00:00:00.000Z"),
              timeValue (startDateInput +:+ "T23:59:59.999Z"))
      else if negb (truthy (JStr startDateInput)) && truthy (JStr endDateInput) then
        Some (timeValue (endDateInput +:+ "T00:00:00.000Z"),
              timeValue (endDateInput +:+ "T23:59:59.999Z"))
      else
        Some (timeValue (startDateInput +:+ "T00:00:00.000Z"),
              timeValue (endDateInput +:+ "T23:59:59.999Z"))
    else None in
  if match range with
     | Some (startDate, endDate) => after startDate endDate
     | None => false
     end
  then Alerted
  else if match range with
          | Some (startDate, endDate) => negb (printable startDate && printable endDate)
          | None => false
          end
  then ThrownRangeError
  else if negb (forallb (fun msg => printable (timeValue (date msg))) (take 3 allMessages))
  then ThrownRangeError
  else filterPasses range searchText selectedChannel allMessages.
End Dates.

Section Timeline.
(** [new Date(s).toDateString()], the key of a day, and the time value of
    [new Date(key)] for such a key. A day key is not the spelling of an
    array index nor the name of a property that every object inherits,
    so [Object.keys] lists the keys in insertion order and a key is
    present exactly when it has been added. *)
Variable dateKey : string -> string.
Variable keyTime : string -> option Z.

(** [messagesByDate[dateKey].push(msg)], after creating the array when
    the key is new. *)
Fixpoint pushToDay (key : string) (msg : Message) (messagesByDate : list (string * list Message))
  : list (string * list Message) :=
  match messagesByDate with
  | [] => [(key, [msg])]
  | (k, dayMessages) :: rest =>
      if String.eqb k key then (k, dayMessages ++ [msg]) :: rest
      else (k, dayMessages) :: pushToDay key msg rest
  end.

Definition groupByDay (messages : list Message) : list (string * list Message) :=
  fold_left (fun messagesByDate msg => pushToDay (dateKey (date msg)) msg messagesByDate)
            messages [].

(** [messagesByDate[dateKey]] for a key of the object. *)
Fixpoint dayMessages (messagesByDate : list (string * list Message)) (key : string)
  : list Message :=
  match messagesByDate with
  | [] => []
  | (k, ms) :: rest => if String.eqb k key then ms else dayMessages rest key
  end.

(** The messages of a list that fall on the day of a key, in their
    order. *)
Definition ofDay (key : string) (messages : list Message) : list Message :=
  List.filter (fun m => String.eqb (dateKey (date m)) key) messages.

(** [(a, b) => new Date(b) - new Date(a)] on the keys. *)
Definition byKeyDesc (a b : string) : comparison :=
  match keyTime b, keyTime a with
  | Some tb, Some ta => (tb ?= ta)%Z
  | _, _ => Eq
  end.

(** What [renderEventsTimeline] leaves on the page: the "no events"
    notice, the date groups in the order of the page, each with its key
    and its events, or the error notice of the [catch] block. *)
Inductive Timeline :=
| NoEvents
| DateGroups (groups : list (string * list Message))
| ErrorNotice.

(** [location.trim()] is a call only on a string. *)
Definition hasTrim (location : JsVal) : bool :=
  match location with JStr _ => true | _ => false end.

(** [renderEventsTimeline]. Rendering an event calls [location.trim()] on
    each of its locations inside the [try] block, so one location that
    is not a string ends in the error notice. *)
Definition renderEventsTimeline (messages : list Message) : Timeline :=
  if (length messages =? 0)%nat then NoEvents
  else
    let messagesByDate := groupByDay messages in
    let sortedDates := sort byKeyDesc (map fst messagesByDate) in
    let groups := map (fun key => (key, dayMessages messagesByDate key)) sortedDates in
    if forallb (fun g => forallb (fun msg => forallb hasTrim (locations msg)) (snd g)) groups
    then DateGroups groups
    else ErrorNotice.
End Timeline.

(** [[...new Set(messages.map(m => m.channel))]]: the channels in the
    order of their first occurrence. *)
Fixpoint uniqueInOrder (seen channels : list string) : list string :=
  match channels with
  | [] => []
  | c :: rest =>
      if existsb (String.eqb c) seen then uniqueInOrder seen rest
      else c :: uniqueInOrder (seen ++ [c]) rest
  end.

(** The comparator of [sort()] without an argument on strings. *)
Definition byCodeUnits (a b : string) : comparison := String.compare a b.

(** [initChannelFilter]: the options added after "All Channels", [None]
    when it returns without touching the list. *)
Definition initChannelFilter (messages : list Message) : option (list string) :=
  if (length messages =? 0)%nat then None
  else Some (sort byCodeUnits (uniqueInOrder [] (map channel messages))).

Section Page.
Variable timeValue : string -> option Z.
Variable otherToString : JsVal -> string.
Variable dateKey : string -> string.
Variable keyTime : string -> option Z.

(** [applyEventsFilters] to its end: the list that the filter pass
    assigns to [filteredEventsMessages] goes to [renderEventsTimeline],
    which decides what the timeline shows (and then to
    [updateEventsStats], which writes the statistics line). [None] when
    the handler ends before, by the alert or by an exception: the
    timeline stays as it was. *)
Definition eventsTimeline (startDateInput endDateInput searchBox selectedChannel : string)
    (allMessages : list Message) : option Timeline :=
  match applyEventsFilters timeValue otherToString startDateInput endDateInput searchBox
          selectedChannel allMessages with
  | Shown filteredEventsMessages =>
      Some (renderEventsTimeline dateKey keyTime filteredEventsMessages)
  | _ => None
  end.
End Page.

End Events.

(** ** Further vocabulary: the stores after a rebuild *)

(** The entity [r] is the one that [addLocationToMap] would pick for the
    name and bounds of [r']: the predicate of its [find]. *)
Definition same_entity (r r' : Regions.Region) : bool :=
  Regions.sameRegion (Regions.name r')
    (north (Regions.bounds r')) (south (Regions.bounds r'))
    (east (Regions.bounds r')) (west (Regions.bounds r')) r.



(** The cache value has the shape of a box, of a point, or of both. *)
Definition isBox (coord : Coord) : bool :=
  match c_north coord, c_south coord, c_east coord, c_west coord with
  | Some _, Some _, Some _, Some _ => true
  | _, _, _, _ => false
  end.




(** A cache in which a box (33, 31, 36, 34) and a point lie. *)
Definition strip_cache : gmap string (option Coord) :=
  {[ "strip"%string := Some (box 33 31 36 34);
     "gaza"%string := Some (point 31.5 34.47) ]}.

Definition strip_report : Message :=
  mkMessage Js.JUndefined "convoy enters the strip" "Convoy enters the strip" "channel_b"
            "2024-01-03T08:00:00Z" [Js.JStr "Strip"; Js.JStr "Gaza"].

(** The box [inner] lies within the box [outer]. *)
Definition contains (outer inner : Bounds) : Prop :=
  Num.le (south outer) (south inner) = true /\ Num.le (north inner) (north outer) = true
  /\ Num.le (west outer) (west inner) = true /\ Num.le (east inner) (east outer) = true.

(** The value is a number other than NaN. *)
Definition number (x : float) : Prop := Num.seq x x = true.

(** The string is made of whitespace only. *)
Fixpoint blank (s : string) : bool :=
  match s with
  | EmptyString => true
  | String c s' => Js.is_space c && blank s'
  end.

(** The string is empty or starts with a character that is not
    whitespace. *)
Definition no_lead (s : string) : Prop :=
  match s with
  | EmptyString => True
  | String c _ => Js.is_space c = false
  end.

(** The string has no letter, digit or underscore of the ASCII range:
    it is empty, or punctuation, whitespace and characters of other
    scripts only. *)
Fixpoint wordless (s : string) : bool :=
  match s with
  | EmptyString => true
  | String c s' => negb (Search.is_word c) && wordless s'
  end.

Definition quiet_report : Message :=
  mkMessage Js.JUndefined "strike in Gaza" "" "channel_a" "2024-01-02T10:00:00Z"
            [Js.JStr "Gaza"].

(** The layers that the calls restyle, in the order of the calls. *)
Definition styledLayers (calls : list Rectangles.Call) : list nat :=
  omap (fun c => match c with
                 | Rectangles.SetStyle l _ _ => Some l
                 | _ => None
                 end) calls.

(** A clock for the examples: the time of a date string is its length. *)
Definition toy_clock (s : string) : option Z := Some (Z.of_nat (String.length s)).

(** The shape of a normalized text: lower-case letters, digits and
    underscores, and single spaces between them; the flag tells that the
    character before was a space. *)
Fixpoint spaced (afterSpace : bool) (s : string) : bool :=
  match s with
  | EmptyString => true
  | String c s' =>
      if Js.is_space c
      then Ascii.eqb c " " && negb afterSpace && spaced true s'
      else Search.is_word c && Ascii.eqb (Js.lower c) c && spaced false s'
  end.


(** ** Further vocabulary: finite numbers and the planner *)

(** The value is a finite number: neither NaN nor an infinity. *)
Definition finite_SF (x : SpecFloat.spec_float) : bool :=
  match x with
  | SpecFloat.S754_nan | SpecFloat.S754_infinity _ => false
  | _ => true
  end.

Definition finite (x : float) : bool := finite_SF (Prim2SF x).

(** The value [r] is zero, positive or negative as the integer [d]
    is. *)
Definition signed (d : Z) (r : SpecFloat.spec_float) : Prop :=
  match d with
  | Z0 => exists s, r = SpecFloat.S754_zero s
  | Zpos _ =>
      (exists m e, r = SpecFloat.S754_finite false m e) \/ r = SpecFloat.S754_infinity false
  | Zneg _ =>
      (exists m e, r = SpecFloat.S754_finite true m e) \/ r = SpecFloat.S754_infinity true
  end.

(** What [eachLayer] collects, before the sort: one entry for each
    rectangle of the layer group, in the order of the group. *)
Definition measured (bounds : Bounds) (layers : list Bounds) : list Rectangles.Item :=
  imap (Rectangles.measure (north bounds - south bounds)%float
                           (east bounds - west bounds)%float) layers.

(** The list is in ascending order of raw area. *)
Definition ascending_by_area (items : list Rectangles.Item) : Prop :=
  StronglySorted (fun a b => Num.le (Rectangles.area a) (Rectangles.area b) = true) items.

(** The spans of a shape and its area relative to the viewport, in the
    words of the specification. *)
Definition latSpanOf (shape : Bounds) : float := (north shape - south shape)%float.
Definition lonSpanOf (shape : Bounds) : float := (east shape - west shape)%float.
Definition rawAreaOf (shape : Bounds) : float :=
  (latSpanOf shape * lonSpanOf shape)%float.
Definition relativeAreaOf (viewport shape : Bounds) : float :=
  ((latSpanOf shape / latSpanOf viewport) * (lonSpanOf shape / lonSpanOf viewport))%float.

(** The zoom bands in the words of the specification, for a shape in a
    viewport: the conditions under which the shape is hidden. *)
Definition hidden_in_bands (zoom : float) (viewport shape : Bounds) : Prop :=
  let small t :=
    Num.lt (latSpanOf shape) t = true \/ Num.lt (lonSpanOf shape) t = true in
  (Num.lt zoom 9 = true /\ small 0.1%float)
  \/ (Num.le 9 zoom = true /\ Num.lt zoom 11 = true /\ small 0.05%float)
  \/ (Num.le 11 zoom = true /\ Num.lt zoom 13 = true /\ small 0.01%float)
  \/ (Num.gt zoom 13 = true /\ Num.gt (relativeAreaOf viewport shape) 0.4 = true)
  \/ (Num.gt zoom 11 = true /\ Num.le zoom 13 = true
      /\ Num.gt (relativeAreaOf viewport shape) 0.6 = true).

(** A region of 0.05 degrees of latitude, and a region of half the area
    of a viewport of one degree. *)
Definition unit_viewport : Bounds := mkBounds 1 0 1 0.
Definition narrow_region : Bounds := mkBounds 0.05 0 1 0.
Definition half_region : Bounds := mkBounds 0.5 0 1 0.

(** ** Further vocabulary: what the map library and the objects accept *)

(** The corners that [addLocationToMap] gives the rectangle of a
    region. *)
Definition corners (b : Bounds) : (float * float) * (float * float) :=
  ((south b, west b), (north b, east b)).

(** The positions that [addLocationToMap] hands to [L.marker] and
    [L.rectangle] for a cache value are finite numbers: the bounds and
    the centre of a box, the latitude and longitude of a point. The map
    library throws on a position with a NaN coordinate. *)
Definition drawable (coord : Coord) : bool :=
  match c_north coord, c_south coord, c_east coord, c_west coord with
  | Some n, Some s, Some e, Some w =>
      finite n && finite s && finite e && finite w
      && finite ((n + s) / 2)%float && finite ((e + w) / 2)%float
  | _, _, _, _ =>
      match c_lat coord, c_lon coord with
      | Some lat, Some lon => finite lat && finite lon
      | _, _ => true
      end
  end.

(** Every character of the string is in the ASCII range, where a code
    unit is a character and [trim], [toLowerCase], [\w] and [\s] are as
    modelled. *)
Fixpoint ascii_only (s : string) : bool :=
  match s with
  | EmptyString => true
  | String c s' => (nat_of_ascii c <? 128)%nat && ascii_only s'
  end.

(** A position, or the two corners of a rectangle, made of finite
    numbers. *)
Definition finite_position (p : float * float) : bool := finite (fst p) && finite (snd p).

Definition finite_corners (c : (float * float) * (float * float)) : bool :=
  finite_position (fst c) && finite_position (snd c).

(** The names of the properties that every object inherits: a lookup
    [locationCache[key]] under one of them finds a value although the
    cache has no such key. *)
Definition inheritedNames : list string :=
  [ "constructor"; "__proto__"; "hasOwnProperty"; "isPrototypeOf";
    "propertyIsEnumerable"; "toLocaleString"; "toString"; "valueOf";
    "__defineGetter__"; "__defineSetter__"; "__lookupGetter__";
    "__lookupSetter__" ]%string.

Definition inherited (key : string) : bool := existsb (String.eqb key) inheritedNames.

(** [locationCache[key]] on the object whose own keys are those of
    [cache]: the own value, or under an inherited name the inherited
    value, an object that has none of the six properties. *)
Definition objectLookup (cache : gmap string (option Coord)) (key : string)
  : option (option Coord) :=
  match cache !! key with
  | Some v => Some v
  | None =>
      if inherited key then Some (Some (mkCoord None None None None None None)) else None
  end.

(** The names of the locations are in the ASCII range and none is
    looked up under an inherited name. *)
Definition own_name (location : Js.JsVal) : bool :=
  match location with
  | Js.JStr s => ascii_only s && negb (inherited (locationKey s))
  | _ => true
  end.

Definition own_names (messages : list Message) : Prop :=
  Forall (fun msg => forallb own_name (locations msg) = true) messages.

(** The field is in the ASCII range and has no letter, digit or
    underscore: it is empty, or punctuation and whitespace only. *)
Definition punctuation_only (s : string) : bool := ascii_only s && wordless s.

(** ** Further vocabulary: the cache file *)

(** The members of the object in the cache file, in the order of the
    file. *)
Definition CacheFile := list (string * option Coord).

(** The value of a string of decimal digits. *)
Fixpoint digitsValue (acc : N) (s : string) : option N :=
  match s with
  | EmptyString => Some acc
  | String c s' =>
      let n := N_of_ascii c in
      if ((48 <=? n) && (n <=? 57))%N then digitsValue (10 * acc + (n - 48))%N s'
      else None
  end.

(** The key is an array index: the canonical decimal spelling of an
    integer from 0 to 2^32 - 2. *)
Definition arrayIndex (key : string) : option N :=
  match key with
  | EmptyString => None
  | String c rest =>
      if Ascii.eqb c "0" && negb (String.eqb rest EmptyString) then None
      else match digitsValue 0 key with
           | Some n => if (n <? 4294967295)%N then Some n else None
           | None => None
           end
  end.

(** [JSON.parse] adds the members in turn: a key that is there already
    keeps its place and takes the new value. *)
Fixpoint setMember (key : string) (v : option Coord) (obj : list (string * option Coord))
  : list (string * option Coord) :=
  match obj with
  | [] => [(key, v)]
  | (k, w) :: rest =>
      if String.eqb k key then (k, v) :: rest else (k, w) :: setMember key v rest
  end.

Definition parseMembers (file : CacheFile) : list (string * option Coord) :=
  fold_left (fun obj '(key, v) => setMember key v obj) file [].

(** [Object.keys]: the array indices in ascending order, then the other
    keys in the order of their creation. *)
Definition byIndex (a b : N * (string * option Coord)) : comparison :=
  N.compare (fst a) (fst b).

Definition ownProperties (obj : list (string * option Coord)) : RawCache :=
  map snd (Js.sort byIndex
             (omap (fun kv => match arrayIndex (fst kv) with
                              | Some n => Some (n, kv)
                              | None => None
                              end) obj))
  ++ List.filter (fun kv => match arrayIndex (fst kv) with
                            | Some _ => false
                            | None => true
                            end) obj.

(** The parsed cache file as [initMap] walks it. *)
Definition JSON_parse (file : CacheFile) : RawCache := ownProperties (parseMembers file).

(** The keys of the file are distinct and in the ASCII range, none is
    an array index and none normalizes to [__proto__], which an
    assignment does not create. *)
Definition plain_keys (file : CacheFile) : Prop :=
  NoDup (map fst file)
  /\ Forall (fun kv => ascii_only (fst kv) = true
                       /\ arrayIndex (fst kv) = None
                       /\ locationKey (fst kv) <> "__proto__"%string) file.

(** ** Theorems on JS numbers *)

Module NumFacts.
Import Num.

Lemma SFcompare_rank f g :
  SpecFloat.SFcompare f g =
    match rank f, rank g with
    | Some a, Some b =>
        Some (let '(a1, a2, a3) := a in
              let '(b1, b2, b3) := b in
              match (a1 ?= b1)%Z with
              | Eq => match (a2 ?= b2)%Z with
                      | Eq => (a3 ?= b3)%Z
                      | c => c
                      end
              | c => c
              end)
    | _, _ => None
    end.
Proof.
  destruct f as [[]|[]| |[] m e], g as [[]|[]| |[] m' e']; simpl; try reflexivity.
  rewrite Z.compare_opp. destruct (Z.compare_spec e e'); subst.
  - rewrite Z.compare_refl. reflexivity.
  - rewrite (proj2 (Z.compare_gt_iff e' e)) by lia. reflexivity.
  - rewrite (proj2 (Z.compare_lt_iff e' e)) by lia. reflexivity.
Qed.

Lemma lt_spec x y : lt x y = true <-> Lt x y.
Proof.
  unfold lt, Lt. rewrite FloatAxioms.ltb_spec. unfold SpecFloat.SFltb.
  rewrite SFcompare_rank.
  destruct (rank (Prim2SF x)) as [[[a1 a2] a3]|], (rank (Prim2SF y)) as [[[b1 b2] b3]|];
    try (split; [discriminate | intros (a & b & ? & ? & ?); discriminate]).
  split.
  - intros H. exists (a1, a2, a3), (b1, b2, b3). split; [reflexivity|]. split; [reflexivity|].
    simpl.
    destruct (Z.compare_spec a1 b1); try discriminate; [|lia].
    destruct (Z.compare_spec a2 b2); try discriminate; [|lia].
    destruct (Z.compare_spec a3 b3); try discriminate; lia.
  - intros (a & b & Ha & Hb & H). injection Ha as <-. injection Hb as <-.
    simpl in H.
    destruct (Z.compare_spec a1 b1); [|reflexivity|lia].
    destruct (Z.compare_spec a2 b2); [|reflexivity|lia].
    destruct (Z.compare_spec a3 b3); [lia|reflexivity|lia].
Qed.

Lemma le_spec x y : le x y = true <-> Le x y.
Proof.
  unfold le, Le. rewrite FloatAxioms.leb_spec. unfold SpecFloat.SFleb.
  rewrite SFcompare_rank.
  destruct (rank (Prim2SF x)) as [[[a1 a2] a3]|], (rank (Prim2SF y)) as [[[b1 b2] b3]|];
    try (split; [discriminate | intros (a & b & ? & ? & ?); discriminate]).
  split.
  - intros H. exists (a1, a2, a3), (b1, b2, b3). split; [reflexivity|]. split; [reflexivity|].
    unfold lex_le. simpl.
    destruct (Z.compare_spec a1 b1); try discriminate; [|lia].
    destruct (Z.compare_spec a2 b2); try discriminate; [|lia].
    destruct (Z.compare_spec a3 b3); try discriminate; [|lia].
    right. congruence.
  - intros (a & b & Ha & Hb & H). injection Ha as <-. injection Hb as <-.
    unfold lex_le in H. simpl in H.
    destruct (Z.compare_spec a1 b1); [|reflexivity|].
    2:{ destruct H as [H|H]; [lia|]. injection H as -> -> ->. lia. }
    destruct (Z.compare_spec a2 b2); [|reflexivity|].
    2:{ destruct H as [H|H]; [lia|]. injection H as -> -> ->. lia. }
    destruct (Z.compare_spec a3 b3); [reflexivity|reflexivity|].
    destruct H as [H|H]; [lia|]. injection H as -> -> ->. lia.
Qed.

Lemma seq_spec x y :
  seq x y = true <->
  exists a, rank (Prim2SF x) = Some a /\ rank (Prim2SF y) = Some a.
Proof.
  unfold seq. rewrite FloatAxioms.eqb_spec. unfold SpecFloat.SFeqb.
  rewrite SFcompare_rank.
  destruct (rank (Prim2SF x)) as [[[a1 a2] a3]|], (rank (Prim2SF y)) as [[[b1 b2] b3]|];
    try (split; [discriminate | intros (a & ? & ?); discriminate]).
  split.
  - intros H.
    destruct (Z.compare_spec a1 b1); try discriminate.
    destruct (Z.compare_spec a2 b2); try discriminate.
    destruct (Z.compare_spec a3 b3); try discriminate.
    subst. eexists; split; reflexivity.
  - intros (a & Ha & Hb). rewrite <- Hb in Ha. injection Ha as -> -> ->.
    rewrite !Z.compare_refl. reflexivity.
Qed.

Ltac lex :=
  repeat match goal with
    | H : Lt _ _ |- _ => destruct H as (? & ? & ? & ? & H)
    | H : Le _ _ |- _ => destruct H as (? & ? & ? & ? & H)
    | H : exists a, rank _ = Some a /\ rank _ = Some a |- _ => destruct H as (? & ? & ?)
    end;
  repeat match goal with
    | H : rank ?f = Some _, H' : rank ?f = Some _ |- _ =>
        rewrite H in H'; injection H' as ?; subst
    end;
  repeat match goal with
    | p : (Z * Z * Z)%type |- _ => destruct p as [[? ?] ?]
    end;
  unfold lex_le, lex_lt in *;
  repeat match goal with
    | H : _ \/ (_, _, _) = (_, _, _) |- _ =>
        destruct H as [H|H]; [|injection H as ?; subst]
    end.

Lemma le_not_gt x y : le x y = true -> lt y x = false.
Proof.
  intros H%le_spec. apply not_true_is_false. intros H'%lt_spec. lex; lia.
Qed.

Lemma lt_asym x y : lt x y = true -> lt y x = false.
Proof.
  intros H%lt_spec. apply not_true_is_false. intros H'%lt_spec. lex; lia.
Qed.

Lemma lt_le x y : lt x y = true -> le x y = true.
Proof.
  intros (a & b & Ha & Hb & H)%lt_spec. apply le_spec.
  exists a, b. repeat split; try assumption. left. exact H.
Qed.

Lemma seq_le x y : seq x y = true -> le x y = true.
Proof.
  intros (a & Ha & Hb)%seq_spec. apply le_spec.
  exists a, a. repeat split; try assumption. right. reflexivity.
Qed.

Lemma seq_sym x y : seq x y = seq y x.
Proof.
  apply eq_true_iff_eq. rewrite !seq_spec. split; intros (a & ? & ?); exists a; tauto.
Qed.

Lemma seq_not_lt x y : seq x y = true -> lt x y = false /\ lt y x = false.
Proof.
  intros H%seq_spec.
  split; apply not_true_is_false; intros H'%lt_spec; lex; lia.
Qed.

Lemma le_trans x y z : le x y = true -> le y z = true -> le x z = true.
Proof.
  intros (a & b & Ha & Hb & H)%le_spec (b' & c & Hb' & Hc & H')%le_spec.
  rewrite Hb in Hb'. injection Hb' as <-.
  apply le_spec. exists a, c. repeat split; try assumption.
  destruct a as [[? ?] ?], b as [[? ?] ?], c as [[? ?] ?].
  unfold lex_le, lex_lt in *.
  destruct H as [H|H]; [|injection H as ?; subst; exact H'].
  destruct H' as [H'|H']; [|injection H' as ?; subst; left; exact H].
  left. lia.
Qed.

Lemma le_lt_trans x y z : le x y = true -> lt y z = true -> lt x z = true.
Proof.
  intros (a & b & Ha & Hb & H)%le_spec (b' & c & Hb' & Hc & H')%lt_spec.
  rewrite Hb in Hb'. injection Hb' as <-.
  apply lt_spec. exists a, c. repeat split; try assumption.
  destruct a as [[? ?] ?], b as [[? ?] ?], c as [[? ?] ?].
  unfold lex_le, lex_lt in *.
  destruct H as [H|H]; [|injection H as ?; subst; exact H'].
  lia.
Qed.

Lemma lt_le_trans x y z : lt x y = true -> le y z = true -> lt x z = true.
Proof.
  intros (a & b & Ha & Hb & H)%lt_spec (b' & c & Hb' & Hc & H')%le_spec.
  rewrite Hb in Hb'. injection Hb' as <-.
  apply lt_spec. exists a, c. repeat split; try assumption.
  destruct a as [[? ?] ?], b as [[? ?] ?], c as [[? ?] ?].
  unfold lex_le, lex_lt in *.
  destruct H' as [H'|H']; [|injection H' as ?; subst; exact H].
  lia.
Qed.

Lemma lt_trans x y z : lt x y = true -> lt y z = true -> lt x z = true.
Proof.
  intros H1 H2. eapply le_lt_trans; [apply lt_le; exact H1 | exact H2].
Qed.

(** A value that compares below another one is a number. *)
Lemma lt_number x y : lt x y = true -> seq x x = true /\ seq y y = true.
Proof.
  intros (a & b & Ha & Hb & _)%lt_spec.
  split; apply seq_spec; eauto.
Qed.

(** The order of the numbers is total. *)
Lemma not_lt_le x y :
  seq x x = true -> seq y y = true -> lt x y = false -> le y x = true.
Proof.
  intros (a & Ha & _)%seq_spec (b & Hb & _)%seq_spec H.
  apply le_spec. exists b, a. repeat split; try assumption.
  destruct (le y x) eqn:E.
  - apply le_spec in E. destruct E as (b' & a' & Hb' & Ha' & E). congruence.
  - exfalso. apply not_true_iff_false in H. apply H. apply lt_spec.
    exists a, b. repeat split; try assumption.
    apply not_true_iff_false in E.
    destruct a as [[a1 a2] a3], b as [[b1 b2] b3]. unfold lex_lt.
    destruct (Z.lt_total a1 b1) as [?|[?|?]]; [lia| |exfalso].
    2:{ apply E, le_spec. exists (b1, b2, b3), (a1, a2, a3).
        repeat split; try assumption. left. simpl. lia. }
    destruct (Z.lt_total a2 b2) as [?|[?|?]]; [lia| |exfalso].
    2:{ apply E, le_spec. exists (b1, b2, b3), (a1, a2, a3).
        repeat split; try assumption. left. simpl. lia. }
    destruct (Z.lt_total a3 b3) as [?|[?|?]]; [lia| |]; exfalso.
    + apply E, le_spec. exists (b1, b2, b3), (a1, a2, a3).
      repeat split; try assumption. right. congruence.
    + apply E, le_spec. exists (b1, b2, b3), (a1, a2, a3).
      repeat split; try assumption. left. simpl. lia.
Qed.

End NumFacts.

(** ** Overlap of regions *)

Lemma regionsOverlap_unfold a b :
  regionsOverlap a b =
    negb (Num.gt (south a) (north b) || Num.lt (north a) (south b)
          || Num.gt (west a) (east b) || Num.lt (east a) (west b)).
Proof. reflexivity. Qed.

Lemma regionsOverlap_sym a b : regionsOverlap a b = regionsOverlap b a.
Proof.
  rewrite !regionsOverlap_unfold. unfold Num.gt, Num.lt. f_equal.
  rewrite (orb_comm (PrimFloat.ltb (north b) (south a))).
  rewrite <- !orb_assoc. f_equal.
  rewrite (orb_comm (PrimFloat.ltb (east b) (west a))). reflexivity.
Qed.

Lemma regionsOverlap_refl a : valid a -> regionsOverlap a a = true.
Proof.
  intros [Hlat%NumFacts.le_not_gt Hlon%NumFacts.le_not_gt].
  rewrite regionsOverlap_unfold. unfold Num.gt. fold (Num.lt (north a) (south a)).
  fold (Num.lt (east a) (west a)). rewrite Hlat, Hlon. reflexivity.
Qed.

(** The point test on the box (32, 31, 35, 34): (31.5, 34.5) is inside
    and (30, 34.5) is outside. *)
Lemma pointInRegion_examples :
  pointInRegion 31.5 34.5 (mkBounds 32 31 35 34) = true
  /\ pointInRegion 30 34.5 (mkBounds 32 31 35 34) = false.
Proof. split; reflexivity. Qed.

(** Two valid intervals that share an end point are not separated. *)
Lemma touching_not_separated lo1 hi1 lo2 hi2 :
  Num.le lo1 hi1 = true -> Num.le lo2 hi2 = true -> Num.seq hi1 lo2 = true ->
  Num.gt lo1 hi2 = false /\ Num.lt hi1 lo2 = false.
Proof.
  intros H1 H2 Heq. split.
  - unfold Num.gt. apply NumFacts.le_not_gt.
    eapply NumFacts.le_trans; [exact H1|].
    eapply NumFacts.le_trans; [apply NumFacts.seq_le; exact Heq | exact H2].
  - apply (NumFacts.seq_not_lt _ _ Heq).
Qed.

(** C8. On regions that satisfy the bounds invariant the overlap test is
    symmetric and reflexive, and two regions that only share an edge
    (north of one equal to south of the other, or east of one equal to
    west of the other, the ranges on the other axis not separated)
    overlap. *)
Theorem C8_overlap_symmetric_reflexive_touching (a b : Bounds) :
  valid a -> valid b ->
  regionsOverlap a b = regionsOverlap b a
  /\ regionsOverlap a a = true
  /\ (Num.seq (north a) (south b) = true ->
      Num.gt (west a) (east b) = false -> Num.lt (east a) (west b) = false ->
      regionsOverlap a b = true)
  /\ (Num.seq (east a) (west b) = true ->
      Num.gt (south a) (north b) = false -> Num.lt (north a) (south b) = false ->
      regionsOverlap a b = true).
Proof.
  intros Ha Hb. split; [apply regionsOverlap_sym|].
  split; [apply regionsOverlap_refl; exact Ha|].
  destruct Ha as [Ha1 Ha2], Hb as [Hb1 Hb2]. split.
  - intros Heq Hw He. rewrite regionsOverlap_unfold.
    destruct (touching_not_separated _ _ _ _ Ha1 Hb1 Heq) as [-> ->].
    rewrite Hw, He. reflexivity.
  - intros Heq Hs Hn. rewrite regionsOverlap_unfold.
    destruct (touching_not_separated _ _ _ _ Ha2 Hb2 Heq) as [-> ->].
    rewrite Hs, Hn. reflexivity.
Qed.

Lemma C8_witness :
  let a := mkBounds 32 31 35 34 in
  let b := mkBounds 33 32 36 34.5 in
  valid a /\ valid b
  /\ regionsOverlap a b = regionsOverlap b a
  /\ regionsOverlap a a = true
  /\ (Num.seq (north a) (south b) = true /\ regionsOverlap a b = true).
Proof.
  intros a b.
  assert (Ha : valid a) by (split; reflexivity).
  assert (Hb : valid b) by (split; reflexivity).
  split; [exact Ha|]. split; [exact Hb|].
  destruct (C8_overlap_symmetric_reflexive_touching a b Ha Hb) as (H1 & H2 & H3 & _).
  split; [exact H1|]. split; [exact H2|]. split; [reflexivity|].
  apply H3; reflexivity.
Defined.

(** ** The visibility planner *)

Section Sorting.
Context {A : Type} (cmp : A -> A -> comparison).

Lemma sort_insert_perm x l : Permutation (Js.sort_insert cmp x l) (x :: l).
Proof.
  induction l as [|y l IH]; simpl; [reflexivity|].
  destruct (cmp x y); try reflexivity.
  rewrite IH. apply perm_swap.
Qed.

Lemma sort_perm l : Permutation (Js.sort cmp l) l.
Proof.
  induction l as [|x l IH]; simpl; [reflexivity|].
  rewrite sort_insert_perm. constructor. exact IH.
Qed.

Lemma sort_length l : length (Js.sort cmp l) = length l.
Proof. apply Permutation_length, sort_perm. Qed.
End Sorting.

Lemma zoom_band_facts (zoom : float) :
  (Num.le 9 zoom = true -> Num.lt zoom 9 = false)
  /\ (Num.le 11 zoom = true -> Num.lt zoom 9 = false /\ Num.lt zoom 11 = false)
  /\ (Num.le zoom 13 = true -> Num.gt zoom 13 = false)
  /\ (Num.lt zoom 9 = false -> Num.lt zoom 11 = true -> Num.le 9 zoom = true)
  /\ (Num.lt zoom 11 = false -> Num.lt zoom 13 = true -> Num.le 11 zoom = true)
  /\ (Num.gt zoom 13 = false -> Num.gt zoom 11 = true -> Num.le zoom 13 = true).
Proof.
  split; [apply NumFacts.le_not_gt|].
  split.
  { intros H. split; [|apply NumFacts.le_not_gt; exact H].
    apply NumFacts.le_not_gt. eapply NumFacts.le_trans; [|exact H]. reflexivity. }
  split; [apply NumFacts.le_not_gt|].
  split.
  { intros H1 H2. apply (NumFacts.not_lt_le zoom 9); [|reflexivity|exact H1].
    apply (NumFacts.lt_number _ _ H2). }
  split.
  { intros H1 H2. apply (NumFacts.not_lt_le zoom 11); [|reflexivity|exact H1].
    apply (NumFacts.lt_number _ _ H2). }
  intros H1 H2. apply (NumFacts.not_lt_le 13 zoom); [reflexivity| |exact H1].
  apply (NumFacts.lt_number _ _ H2).
Qed.

Lemma shouldShow_hidden_iff (zoom : float) (item : Rectangles.Item) :
  Rectangles.shouldShow zoom item = false <-> hidden_by_band zoom item.
Proof.
  destruct (zoom_band_facts zoom) as (B1 & B2 & B3 & B4 & B5 & B6).
  unfold hidden_by_band, Rectangles.shouldShow.
  rewrite <- !orb_true_iff.
  split.
  - destruct (Num.gt zoom 13) eqn:G13.
    + destruct (Num.gt (Rectangles.relativeArea item) 0.4) eqn:R4.
      { intros _. right. right. right. left. split; reflexivity. }
      assert (L13 : Num.lt zoom 13 = false) by (apply NumFacts.lt_asym; exact G13).
      assert (L11 : Num.lt zoom 11 = false).
      { apply NumFacts.le_not_gt. apply NumFacts.lt_le.
        eapply NumFacts.lt_trans; [|exact G13]. reflexivity. }
      assert (L9 : Num.lt zoom 9 = false).
      { apply NumFacts.le_not_gt. apply NumFacts.lt_le.
        eapply NumFacts.lt_trans; [|exact G13]. reflexivity. }
      rewrite L9, L11, L13. discriminate.
    + destruct (Num.gt zoom 11) eqn:G11.
      * destruct (Num.gt (Rectangles.relativeArea item) 0.6) eqn:R6.
        { intros _. do 4 right. repeat split. apply B6; reflexivity. }
        assert (L11 : Num.lt zoom 11 = false) by (apply NumFacts.lt_asym; exact G11).
        assert (L9 : Num.lt zoom 9 = false).
        { apply NumFacts.le_not_gt. apply NumFacts.lt_le.
          eapply NumFacts.lt_trans; [|exact G11]. reflexivity. }
        rewrite L9, L11.
        destruct (Num.lt zoom 13) eqn:L13; [|discriminate].
        destruct (_ || _) eqn:S; [|discriminate].
        intros _. right. right. left. repeat split.
        apply NumFacts.lt_le. exact G11.
      * destruct (Num.lt zoom 9) eqn:L9.
        { destruct (_ || _) eqn:S; [|discriminate]. intros _. left. split; reflexivity. }
        destruct (Num.lt zoom 11) eqn:L11.
        { destruct (_ || _) eqn:S; [|discriminate]. intros _. right. left.
          repeat split. apply B4; reflexivity. }
        destruct (Num.lt zoom 13) eqn:L13; [|discriminate].
        destruct (_ || _) eqn:S; [|discriminate]. intros _. right. right. left.
        repeat split. apply B5; reflexivity.
  - intros [(Z & S)|[(Z1 & Z2 & S)|[(Z1 & Z2 & S)|[(Z & R)|(Z1 & Z2 & R)]]]].
    + rewrite Z, S. destruct (Num.gt zoom 13); [destruct (Num.gt _ 0.4)|destruct (Num.gt zoom 11);
        [destruct (Num.gt _ 0.6)|]]; reflexivity.
    + rewrite (B1 Z1), Z2, S.
      destruct (Num.gt zoom 13); [destruct (Num.gt _ 0.4)|destruct (Num.gt zoom 11);
        [destruct (Num.gt _ 0.6)|]]; reflexivity.
    + destruct (B2 Z1) as [-> ->]. rewrite Z2, S.
      destruct (Num.gt zoom 13); [destruct (Num.gt _ 0.4)|destruct (Num.gt zoom 11);
        [destruct (Num.gt _ 0.6)|]]; reflexivity.
    + rewrite Z, R. reflexivity.
    + rewrite (B3 Z2), Z1, R. reflexivity.
Qed.

Lemma rectanglesWithSize_length bounds layers :
  length (Rectangles.rectanglesWithSize bounds layers) = length layers.
Proof.
  unfold Rectangles.rectanglesWithSize. rewrite sort_length. apply length_imap.
Qed.

Lemma restyle_front zoom len index item l :
  Rectangles.BringToFront l ∈ Rectangles.restyle zoom len index item <->
  Rectangles.layer item = l /\ Rectangles.shouldShow zoom item = true /\ 2 * index < len.
Proof.
  unfold Rectangles.restyle.
  destruct (Rectangles.shouldShow zoom item); [|rewrite list_elem_of_singleton; split;
    [discriminate | intros (_ & ? & _); discriminate]].
  rewrite !elem_of_cons, elem_of_nil.
  destruct (Nat.ltb_spec (2 * index) len); split.
  - intros [?|[H'|[]]]; [discriminate|]. injection H' as ->. auto.
  - intros (-> & _ & _). right. left. reflexivity.
  - intros [?|[?|[]]]; discriminate.
  - intros (_ & _ & ?). lia.
Qed.

Lemma restyle_back zoom len index item l :
  Rectangles.BringToBack l ∈ Rectangles.restyle zoom len index item <->
  Rectangles.layer item = l /\ Rectangles.shouldShow zoom item = true /\ len <= 2 * index.
Proof.
  unfold Rectangles.restyle.
  destruct (Rectangles.shouldShow zoom item); [|rewrite list_elem_of_singleton; split;
    [discriminate | intros (_ & ? & _); discriminate]].
  rewrite !elem_of_cons, elem_of_nil.
  destruct (Nat.ltb_spec (2 * index) len); split.
  - intros [?|[?|[]]]; discriminate.
  - intros (_ & _ & ?). lia.
  - intros [?|[H'|[]]]; [discriminate|]. injection H' as ->. auto.
  - intros (-> & _ & _). right. left. reflexivity.
Qed.

Lemma calls_of_items (c : Rectangles.Call) zoom bounds layers :
  c ∈ Rectangles.updateRegionVisibility true zoom bounds layers <->
  exists index item,
    Rectangles.rectanglesWithSize bounds layers !! index = Some item
    /\ c ∈ Rectangles.restyle zoom (length layers) index item.
Proof.
  unfold Rectangles.updateRegionVisibility. simpl.
  rewrite rectanglesWithSize_length.
  rewrite list_elem_of_In, in_concat. split.
  - intros (cs & Hcs & Hc). apply list_elem_of_In in Hcs, Hc.
    apply elem_of_lookup_imap in Hcs as (i & item & -> & Hi). eauto.
  - intros (i & item & Hi & Hc).
    exists (Rectangles.restyle zoom (length layers) i item).
    rewrite <- !list_elem_of_In. split; [|exact Hc].
    apply elem_of_lookup_imap. eauto.
Qed.

(** C5, counterexample. At zoom 14 the two large regions are hidden and
    the two small ones are shown; both of the shown ones have an index in
    the lower half of all four, so both are brought to front, the larger
    one last: it is never sent to back and ends on top of the smaller. *)
Lemma C5_counterexample :
  map Rectangles.layer
      (List.filter (Rectangles.shouldShow 14)
                   (Rectangles.rectanglesWithSize nested_viewport nested_layers))
  = [3; 1]
  /\ ~ front_half_of_visible 14 nested_viewport nested_layers
  /\ fold_left Rectangles.paint
       (Rectangles.updateRegionVisibility true 14 nested_viewport nested_layers)
       [0; 1; 2; 3]
     = [0; 2; 3; 1].
Proof.
  split; [vm_compute; reflexivity|].
  split; [|vm_compute; reflexivity].
  intros H.
  specialize (H 1
    (Rectangles.mkItem 1
       ((31.54 - 31.51) * (34.54 - 34.51))
       (((31.54 - 31.51) / (31.6 - 31.5)) * ((34.54 - 34.51) / (34.6 - 34.5)))
       (31.54 - 31.51) (34.54 - 34.51))%float).
  assert (Hb : Rectangles.BringToBack 1
               ∈ Rectangles.updateRegionVisibility true 14 nested_viewport nested_layers).
  { apply H. vm_compute. reflexivity. }
  apply calls_of_items in Hb as (index & item & Hi & Hb).
  apply restyle_back in Hb as (Hl & Hs & Hlen).
  assert (index < 4) as Hlt.
  { apply lookup_lt_Some in Hi. rewrite rectanglesWithSize_length in Hi. exact Hi. }
  simpl in Hlen.
  destruct index as [|[|[|[|]]]]; try lia.
  - vm_compute in Hi. injection Hi as <-. vm_compute in Hs. discriminate.
  - vm_compute in Hi. injection Hi as <-. vm_compute in Hs. discriminate.
Qed.

(** ** The region aggregator *)

Lemma pushMessage_centered rid msg entry :
  centered entry -> centered (Regions.pushMessage rid msg entry).
Proof.
  unfold Regions.pushMessage. destruct (fst entry =? rid)%nat; intros H; exact H.
Qed.

Lemma addLocationToMap_centered coord msg locationName st :
  Forall centered (Regions.regionStore st) ->
  Forall centered (Regions.regionStore (Regions.addLocationToMap coord msg locationName st)).
Proof.
  intros H. unfold Regions.addLocationToMap.
  destruct (c_north coord) as [n|], (c_south coord) as [s|], (c_east coord) as [e|],
    (c_west coord) as [w|], (c_lat coord) as [lat|], (c_lon coord) as [lon|];
    simpl; try exact H.
  all: destruct (List.find _ (Regions.regionStore st)) as [[rid r]|]; simpl.
  all: try (apply Forall_map; eapply Forall_impl; [exact H|];
            intros entry; apply pushMessage_centered).
  all: apply Forall_app; split; [exact H|]; repeat constructor.
Qed.

Lemma placeLocation_centered cache msg st location :
  Forall centered (Regions.regionStore st) ->
  Forall centered (Regions.regionStore (Regions.placeLocation cache msg st location)).
Proof.
  intros H. unfold Regions.placeLocation.
  destruct location as [| | | |s|]; try exact H.
  destruct (negb (Js.truthy (Js.JStr s))); [exact H|].
  destruct (negb (Js.truthy (Js.JStr (locationKey s)))); [exact H|].
  destruct (cache !! locationKey s) as [[coord|]|]; try exact H.
  apply addLocationToMap_centered, H.
Qed.

Lemma fold_placeLocation_centered cache msg locs st :
  Forall centered (Regions.regionStore st) ->
  Forall centered (Regions.regionStore (fold_left (Regions.placeLocation cache msg) locs st)).
Proof.
  revert st. induction locs as [|location locs IH]; intros st H; simpl; [exact H|].
  apply IH, placeLocation_centered, H.
Qed.

(** C10. After a rebuild every region entity of the store has for
    center the midpoint of its bounds: [(north + south) / 2] and
    [(east + west) / 2]. *)
Theorem C10_center_is_midpoint (cache : gmap string (option Coord))
    (messages : list Message) :
  Forall (fun entry : nat * Regions.Region =>
            Regions.center (snd entry)
            = ((north (Regions.bounds (snd entry)) + south (Regions.bounds (snd entry))) / 2,
               (east (Regions.bounds (snd entry)) + west (Regions.bounds (snd entry))) / 2)%float)
         (Regions.regionStore (Regions.refreshMarkers cache messages)).
Proof.
  change (Forall centered (Regions.regionStore (Regions.refreshMarkers cache messages))).
  unfold Regions.refreshMarkers.
  assert (H : Forall centered (Regions.regionStore Regions.cleared)) by constructor.
  revert H. generalize Regions.cleared.
  induction messages as [|msg messages IH]; intros st H; simpl; [exact H|].
  apply IH, fold_placeLocation_centered, H.
Qed.

Lemma find_some_elem {A} (f : A -> bool) (l : list A) (x : A) :
  List.find f l = Some x -> x ∈ l /\ f x = true.
Proof.
  intros H. apply find_some in H as [H1 H2]. split; [|exact H2].
  apply list_elem_of_In. exact H1.
Qed.

(** C3, counterexample. A cache entry whose north (1) lies below its
    south (2) is ingested like any other: the rebuild constructs a region
    entity from it and associates the message with it. *)
Lemma C3_counterexample :
  let coord := box 1 2 35 34 in
  Num.lt 1 2 = true
  /\ ~ entry_skipped coord report "Upside Down" Regions.cleared
  /\ Regions.regionStore
       (Regions.refreshMarkers {[ "upside down"%string := Some coord ]} [report])
     = [(0, Regions.mkRegion "Upside Down" (mkBounds 1 2 35 34) [report]
               (1.5, 34.5)%float Regions.DefaultActivity)].
Proof.
  split; [reflexivity|]. split; [|vm_compute; reflexivity].
  unfold entry_skipped. vm_compute. discriminate.
Qed.

(** C3, amended. Ingestion does not examine the order of the bounds: a
    cache entry with its four bounds present, north below south or not,
    always leaves a region entity of that name that holds the message as
    its last one, with these bounds (a new entity) or with bounds that
    are [===] to them (an existing one); in the rectangle variant it
    always adds the rectangle of these corners. *)
Theorem C3_bounds_are_not_validated (n s e w : float) (lat lon : option float)
    (msg : Message) (locationName : string) (st : Regions.State) :
  (exists rid r,
    (rid, r) ∈ Regions.regionStore
                 (Regions.addLocationToMap (boxed n s e w lat lon) msg locationName st)
    /\ Regions.name r = locationName
    /\ (Regions.bounds r = mkBounds n s e w
        \/ Regions.sameRegion locationName n s e w r = true)
    /\ last (Regions.messages r) = Some msg)
  /\ (forall st',
        Rectangles.rectangleLayerGroup
          (Rectangles.addLocationToMap (boxed n s e w lat lon) msg locationName st')
        = Rectangles.rectangleLayerGroup st' ++ [((s, w), (n, e))]).
Proof.
  split; [|reflexivity].
  unfold Regions.addLocationToMap, boxed. simpl.
  destruct (List.find _ (Regions.regionStore st)) as [[rid r]|] eqn:Hfind; simpl.
  - apply find_some_elem in Hfind as [Hin Hsame]. simpl in Hsame.
    exists rid, (Regions.updateRegionMarker
                   (Regions.mkRegion (Regions.name r) (Regions.bounds r)
                      (Regions.messages r ++ [msg]) (Regions.center r) (Regions.marker r))).
    split.
    { apply list_elem_of_fmap. exists (rid, r). split; [|exact Hin].
      unfold Regions.pushMessage. simpl. rewrite Nat.eqb_refl. reflexivity. }
    simpl. split.
    { unfold Regions.sameRegion in Hsame. rewrite !andb_true_iff in Hsame.
      destruct Hsame as [[[[Hname _] _] _] _]. apply String.eqb_eq, Hname. }
    split; [right; exact Hsame|]. apply last_snoc.
  - eexists _, _. split; [apply elem_of_app; right; apply list_elem_of_singleton; reflexivity|].
    simpl. repeat split. left. reflexivity.
Qed.




(** ** The location resolver *)

Lemma normalized_lookup_acc (raw : RawCache) (acc : gmap string (option Coord))
    (k : string) (v : option Coord) :
  fold_left (fun cache '(key, v) => <[locationKey key := v]> cache) raw acc !! k = Some v ->
  acc !! k = Some v \/ exists key, (key, v) ∈ raw /\ locationKey key = k.
Proof.
  revert acc. induction raw as [|[key w] raw IH]; intros acc H; simpl in H; [left; exact H|].
  apply IH in H as [H|(key' & Hin & Hk)].
  - destruct (decide (locationKey key = k)) as [<-|Hne].
    + rewrite lookup_insert_eq in H. injection H as ->.
      right. exists key. split; [left|reflexivity].
    + rewrite lookup_insert_ne in H by exact Hne. left. exact H.
  - right. exists key'. split; [right; exact Hin|exact Hk].
Qed.

Lemma normalized_lookup_some (raw : RawCache) (acc : gmap string (option Coord))
    (k : string) :
  is_Some (acc !! k) \/ (exists key v, (key, v) ∈ raw /\ locationKey key = k) ->
  is_Some (fold_left (fun cache '(key, v) => <[locationKey key := v]> cache) raw acc !! k).
Proof.
  revert acc. induction raw as [|[key w] raw IH]; intros acc H; simpl.
  - destruct H as [H|(key & v & Hin & _)]; [exact H|]. inversion Hin.
  - apply IH. destruct H as [H|(key' & v & Hin & Hk)].
    + left. destruct (decide (locationKey key = k)) as [<-|Hne].
      * rewrite lookup_insert_eq. eauto.
      * rewrite lookup_insert_ne by exact Hne. exact H.
    + apply elem_of_cons in Hin as [Heq|Hin].
      * injection Heq as <- <-. left. rewrite <- Hk, lookup_insert_eq. eauto.
      * right. eauto.
Qed.

(** In the region-marker variant a lookup by the normalized name hits
    exactly when some key of the cache file has the same normalized form,
    and what it finds is the value that the file gives one of those
    keys. *)
Lemma normalized_cache_lookup (raw : RawCache) (locationName : string) :
  (is_Some (Regions.locationCache raw !! locationKey locationName) <->
     exists key v, (key, v) ∈ raw /\ locationKey key = locationKey locationName)
  /\ (forall v, Regions.locationCache raw !! locationKey locationName = Some v ->
        exists key, (key, v) ∈ raw /\ locationKey key = locationKey locationName).
Proof.
  unfold Regions.locationCache. split; [split|].
  - intros [v H]. apply normalized_lookup_acc in H as [H|(key & Hin & Hk)].
    + rewrite lookup_empty in H. discriminate.
    + eauto.
  - intros H. apply normalized_lookup_some. right. exact H.
  - intros v H. apply normalized_lookup_acc in H as [H|H]; [|exact H].
    rewrite lookup_empty in H. discriminate.
Qed.

(** C1, the failing input. The cache file spells its key [Gaza]. The
    rectangle variant looks the message's location up under [gaza] in the
    file as it was parsed and misses, so nothing is placed; the
    region-marker variant re-keys the cache and finds the point. *)
Theorem C1_rectangle_variant_misses_capitalised_key :
  (exists key v, (key, v) ∈ gaza_cache /\ locationKey key = locationKey "Gaza")
  /\ Rectangles.locationCache gaza_cache !! locationKey "Gaza" = None
  /\ Rectangles.markerClusterGroup
       (Rectangles.refreshMarkers (Rectangles.locationCache gaza_cache) [gaza_report]) = []
  /\ Regions.locationCache gaza_cache !! locationKey "Gaza" = Some (Some (point 31.5 34.47))
  /\ Regions.markerClusterGroup
       (Regions.refreshMarkers (Regions.locationCache gaza_cache) [gaza_report])
     = [(31.5, 34.47)%float].
Proof.
  split.
  { exists "Gaza"%string, (Some (point 31.5 34.47)). split; [left|reflexivity]. }
  repeat split; vm_compute; reflexivity.
Qed.

(** ** Malformed location entries *)

Lemma toLowerCase_empty s : Js.toLowerCase s = EmptyString <-> s = EmptyString.
Proof. destruct s; simpl; split; congruence. Qed.

(** The rebuild of either variant skips a malformed entry. *)
Lemma placeLocation_malformed cache msg location :
  malformed location ->
  (forall st, Regions.placeLocation cache msg st location = st)
  /\ (forall st, Rectangles.placeLocation cache msg st location = st).
Proof.
  intros H.
  destruct location as [| | | |s|]; try (split; reflexivity).
  simpl in H. unfold Regions.placeLocation, Rectangles.placeLocation.
  assert (Hk : locationKey s = EmptyString).
  { unfold locationKey. rewrite H. reflexivity. }
  rewrite Hk. simpl.
  split; intros st; destruct (negb (negb (String.eqb s EmptyString))); reflexivity.
Qed.

(** A rebuild pass over the locations of a message is the pass over its
    well-formed entries alone. *)
Lemma rebuild_skips_malformed cache msg locs :
  let well_formed l :=
    match l with
    | Js.JStr s => negb (String.eqb (Js.trim s) EmptyString)
    | _ => false
    end in
  (forall st, fold_left (Regions.placeLocation cache msg) locs st
              = fold_left (Regions.placeLocation cache msg) (List.filter well_formed locs) st)
  /\ (forall st, fold_left (Rectangles.placeLocation cache msg) locs st
                 = fold_left (Rectangles.placeLocation cache msg)
                     (List.filter well_formed locs) st).
Proof.
  intros well_formed.
  assert (Hbad : forall l, well_formed l = false -> malformed l).
  { intros [| | | |s|]; simpl; try exact (fun _ => I).
    intros H. apply negb_false_iff, String.eqb_eq in H. exact H. }
  split; induction locs as [|l locs IH]; intros st; simpl; try reflexivity.
  - destruct (well_formed l) eqn:E; simpl; [apply IH|].
    rewrite (proj1 (placeLocation_malformed cache msg l (Hbad l E))). apply IH.
  - destruct (well_formed l) eqn:E; simpl; [apply IH|].
    rewrite (proj2 (placeLocation_malformed cache msg l (Hbad l E))). apply IH.
Qed.

(** [findMessagesInRegion] has no such guard: a first location that is
    not a string ends the query with a TypeError. *)
Lemma findMessagesInRegion_unguarded timeValue msg allMessages cache regionBounds
    location rest :
  locations msg = location :: rest ->
  (forall s, location <> Js.JStr s) ->
  Regions.findMessagesInRegion timeValue (msg :: allMessages) cache regionBounds
  = Js.TypeError.
Proof.
  intros Hloc Hbad. unfold Regions.findMessagesInRegion. simpl.
  unfold Regions.checkMessage at 1. rewrite Hloc. simpl.
  destruct location as [| | | |s|]; try reflexivity.
  exfalso. exact (Hbad s eq_refl).
Qed.

(** C2, the failing input. One message whose locations are the number 42
    and then [Gaza]. The rebuild skips the number and places the marker
    of Gaza; the query over the same message list reads [trim] off the
    number and throws, whatever the dates are. Without the number the
    query returns the message. The first load of the same message list
    does not reach the rebuild: the pass of [initMap] over the locations
    throws as well and the load ends in its alert. *)
Theorem C2_findMessagesInRegion_throws_on_non_string (timeValue : string -> option Z) :
  Regions.markerClusterGroup
    (Regions.refreshMarkers (Regions.locationCache gaza_cache) [garbled_report])
  = [(31.5, 34.47)%float]
  /\ Regions.findMessagesInRegion timeValue [garbled_report]
       (Regions.locationCache gaza_cache) gaza_region
     = Js.TypeError
  /\ Regions.findMessagesInRegion timeValue [gaza_report]
       (Regions.locationCache gaza_cache) gaza_region
     = Js.Normal [gaza_report]
  /\ Regions.initMap gaza_cache [garbled_report] = (Regions.cleared, true).
Proof.
  split; [vm_compute; reflexivity|]. split; [|split].
  - apply (findMessagesInRegion_unguarded _ _ _ _ _ (Js.JNum 42) [Js.JStr "Gaza"]);
      [reflexivity | discriminate].
  - vm_compute. reflexivity.
  - vm_compute. reflexivity.
Qed.

(** ** The spatial query *)

Lemma forEach_checkLocation cache regionBounds msg locs flag found :
  Forall (fun l => exists s, l = Js.JStr s) locs ->
  Js.forEach (Regions.checkLocation cache regionBounds msg) locs (flag, found)
  = Js.Normal
      (if flag then (true, found)
       else if existsb (resolvesInside cache regionBounds) locs
               && negb (Js.Set_has (Regions.addedMessages found) (Regions.messageId msg))
            then (true,
                  Regions.mkFound (Regions.messagesInRegion found ++ [msg])
                    (Regions.addedMessages found ++ [Regions.messageId msg]))
            else (false, found)).
Proof.
  intros Hs. revert flag found.
  induction Hs as [|l locs [s ->] _ IH]; intros flag found; simpl.
  - destruct flag; reflexivity.
  - destruct flag; simpl; [apply (IH true)|].
    destruct (cache !! locationKey s) as [[coord|]|]; simpl; try apply (IH false).
    destruct (Regions.isLocationInBounds coord regionBounds); simpl; [|apply (IH false)].
    destruct (Js.Set_has _ _) eqn:E; simpl.
    + rewrite (IH false), E, andb_false_r. reflexivity.
    + apply (IH true).
Qed.

Lemma checkMessage_take cache regionBounds found msg :
  strings_only msg ->
  Regions.checkMessage cache regionBounds found msg
  = Js.Normal (take_message cache regionBounds found msg).
Proof.
  intros Hs. unfold Regions.checkMessage, take_message, anyInside.
  rewrite (forEach_checkLocation _ _ _ _ false found Hs). simpl.
  destruct (_ && _); reflexivity.
Qed.

Lemma forEach_checkMessage cache regionBounds allMessages found :
  Forall strings_only allMessages ->
  Js.forEach (Regions.checkMessage cache regionBounds) allMessages found
  = Js.Normal (fold_left (take_message cache regionBounds) allMessages found).
Proof.
  intros Hs. revert found. induction Hs as [|msg rest Hm _ IH]; intros found; simpl.
  - reflexivity.
  - rewrite (checkMessage_take _ _ _ _ Hm). simpl. apply IH.
Qed.

(** A query over string locations returns, and returns the gathered
    messages sorted. *)
Lemma findMessagesInRegion_returns timeValue allMessages cache regionBounds :
  Forall strings_only allMessages ->
  Regions.findMessagesInRegion timeValue allMessages cache regionBounds
  = Js.Normal (Js.sort (Regions.byDateDesc timeValue)
                       (gathered cache regionBounds allMessages)).
Proof.
  intros Hs. unfold Regions.findMessagesInRegion.
  rewrite (forEach_checkMessage _ _ _ _ Hs). reflexivity.
Qed.

Lemma Set_has_false s v :
  Js.Set_has s v = false <-> Forall (fun k => Js.sameValueZero v k = false) s.
Proof.
  unfold Js.Set_has. induction s as [|k s IH]; simpl.
  - split; [constructor|reflexivity].
  - rewrite orb_false_iff, IH. split.
    + intros [? ?]. constructor; assumption.
    + inversion 1; subst. split; assumption.
Qed.

Lemma Set_has_true s v :
  Js.Set_has s v = true <-> exists k, k ∈ s /\ Js.sameValueZero v k = true.
Proof.
  unfold Js.Set_has. rewrite existsb_exists. split; intros (k & H1 & H2); exists k;
    (split; [apply list_elem_of_In; exact H1 | exact H2]).
Qed.

Lemma ForallOrdPairs_snoc {A} (R : A -> A -> Prop) l x :
  ForallOrdPairs R l -> Forall (fun a => R a x) l -> ForallOrdPairs R (l ++ [x]).
Proof.
  induction 1 as [|a l Ha Hl IH]; intros Hx; simpl.
  - repeat constructor.
  - inversion Hx; subst. constructor; [|apply IH; assumption].
    apply Forall_app. split; [exact Ha|]. constructor; [assumption|constructor].
Qed.

Lemma scanned_step cache regionBounds seen found msg :
  scanned cache regionBounds seen found ->
  scanned cache regionBounds (seen ++ [msg]) (take_message cache regionBounds found msg).
Proof.
  intros [Hk Hsub Hin Hd Hall]. unfold take_message.
  destruct (anyInside cache regionBounds msg) eqn:Hany; simpl.
  - destruct (Js.Set_has _ _) eqn:Hhas; simpl.
    + split; try assumption.
      * apply sublist_inserts_r. exact Hsub.
      * intros m Hm Hm'. apply elem_of_app in Hm as [Hm|Hm]; [apply Hall; assumption|].
        apply list_elem_of_singleton in Hm as ->.
        apply Set_has_true in Hhas as (k & Hkin & Hsame). rewrite Hk in Hkin.
        apply list_elem_of_fmap in Hkin as (m' & -> & Hm'in). right. eauto.
    + split; simpl.
      * rewrite map_app, Hk. reflexivity.
      * apply sublist_app; [exact Hsub|reflexivity].
      * apply Forall_app. split; [exact Hin|]. constructor; [exact Hany|constructor].
      * apply ForallOrdPairs_snoc; [exact Hd|].
        apply Set_has_false in Hhas. rewrite Hk in Hhas.
        apply Forall_map in Hhas. exact Hhas.
      * intros m Hm Hm'. apply elem_of_app in Hm as [Hm|Hm].
        { destruct (Hall m Hm Hm') as [H|(m' & H1 & H2)].
          - left. apply elem_of_app. left. exact H.
          - right. exists m'. split; [apply elem_of_app; left; exact H1|exact H2]. }
        apply list_elem_of_singleton in Hm as ->. left.
        apply elem_of_app. right. apply list_elem_of_singleton. reflexivity.
  - split; try assumption.
    + apply sublist_inserts_r. exact Hsub.
    + intros m Hm Hm'. apply elem_of_app in Hm as [Hm|Hm]; [apply Hall; assumption|].
      apply list_elem_of_singleton in Hm as ->. congruence.
Qed.

Lemma scanned_fold cache regionBounds rest seen found :
  scanned cache regionBounds seen found ->
  scanned cache regionBounds (seen ++ rest)
          (fold_left (take_message cache regionBounds) rest found).
Proof.
  revert seen found. induction rest as [|msg rest IH]; intros seen found H; simpl.
  - rewrite app_nil_r. exact H.
  - replace (seen ++ msg :: rest) with ((seen ++ [msg]) ++ rest)
      by (rewrite <- app_assoc; reflexivity).
    apply IH, scanned_step, H.
Qed.

Lemma gathered_scanned cache regionBounds allMessages :
  scanned cache regionBounds allMessages
          (fold_left (take_message cache regionBounds) allMessages (Regions.mkFound [] [])).
Proof.
  apply (scanned_fold cache regionBounds allMessages [] (Regions.mkFound [] [])).
  split; simpl; try (intros ? Hm; inversion Hm); constructor.
Qed.

Section SortByKey.
Context {A : Type} (cmp : A -> A -> comparison) (f : A -> Z).

Lemma sort_insert_sorted x l :
  (forall b, b ∈ l -> cmp x b = (f b ?= f x)%Z) ->
  StronglySorted (fun a b => (f b <= f a)%Z) l ->
  StronglySorted (fun a b => (f b <= f a)%Z) (Js.sort_insert cmp x l).
Proof.
  intros Hx Hs. induction Hs as [|y l Hs IH Hy]; simpl.
  - repeat constructor.
  - assert (Hxy : cmp x y = (f y ?= f x)%Z) by (apply Hx; left).
    assert (Hxl : forall b, b ∈ l -> cmp x b = (f b ?= f x)%Z)
      by (intros b Hb; apply Hx; right; exact Hb).
    destruct (cmp x y) eqn:E; symmetry in Hxy.
    + apply Z.compare_eq in Hxy. constructor; [constructor; assumption|].
      constructor; [simpl; lia|]. eapply Forall_impl; [exact Hy|]. simpl. intros; lia.
    + rewrite Z.compare_lt_iff in Hxy. constructor; [constructor; assumption|].
      constructor; [simpl; lia|]. eapply Forall_impl; [exact Hy|]. simpl. intros; lia.
    + rewrite Z.compare_gt_iff in Hxy. constructor; [apply IH, Hxl|].
      rewrite (sort_insert_perm cmp x l). constructor; [simpl; lia|exact Hy].
Qed.

Lemma sort_sorted l :
  descending_on cmp f l -> StronglySorted (fun a b => (f b <= f a)%Z) (Js.sort cmp l).
Proof.
  induction l as [|x l IH]; intros H; simpl; [constructor|].
  apply sort_insert_sorted.
  - intros b Hb. rewrite (sort_perm cmp l) in Hb. apply H; [left|right; exact Hb].
  - apply IH. intros a b Ha Hb. apply H; right; assumption.
Qed.

Lemma sort_insert_stable z x l :
  (forall b, b ∈ l -> cmp x b = (f b ?= f x)%Z) ->
  List.filter (fun m => (f m =? z)%Z) (Js.sort_insert cmp x l)
  = List.filter (fun m => (f m =? z)%Z) (x :: l).
Proof.
  intros Hx. induction l as [|y l IH]; [reflexivity|].
  assert (Hxy : cmp x y = (f y ?= f x)%Z) by (apply Hx; left).
  assert (Hxl : forall b, b ∈ l -> cmp x b = (f b ?= f x)%Z)
    by (intros b Hb; apply Hx; right; exact Hb).
  simpl. destruct (cmp x y) eqn:E; try reflexivity.
  symmetry in Hxy. rewrite Z.compare_gt_iff in Hxy.
  simpl. rewrite (IH Hxl). simpl.
  destruct (Z.eqb_spec (f x) z), (Z.eqb_spec (f y) z); try reflexivity. lia.
Qed.

Lemma sort_stable z l :
  descending_on cmp f l ->
  List.filter (fun m => (f m =? z)%Z) (Js.sort cmp l)
  = List.filter (fun m => (f m =? z)%Z) l.
Proof.
  induction l as [|x l IH]; intros H; [reflexivity|].
  change (Js.sort cmp (x :: l)) with (Js.sort_insert cmp x (Js.sort cmp l)).
  rewrite sort_insert_stable.
  - simpl. rewrite IH; [reflexivity|].
    intros a b Ha Hb. apply H; right; assumption.
  - intros b Hb. rewrite (sort_perm cmp l) in Hb. apply H; [left|right; exact Hb].
Qed.
End SortByKey.

Lemma sameValueZero_sym v w : Js.sameValueZero v w = Js.sameValueZero w v.
Proof.
  destruct v as [| |a|x|s|], w as [| |b|y|t|]; simpl; try reflexivity.
  - destruct a, b; reflexivity.
  - fold (Num.seq x y) (Num.seq y x). rewrite (NumFacts.seq_sym x y).
    rewrite (andb_comm (negb (PrimFloat.eqb x x))). reflexivity.
  - apply String.eqb_sym.
Qed.

Lemma distinct_keys_perm l l' : Permutation l l' -> distinct_keys l -> distinct_keys l'.
Proof.
  unfold distinct_keys. induction 1 as [|x l l' Hp IH|x y l|l l' l'' _ IH1 _ IH2]; intros H.
  - exact H.
  - inversion H; subst. constructor; [|apply IH; assumption].
    rewrite <- Hp. assumption.
  - inversion H as [|? ? Hy Hxl]; subst. inversion Hxl as [|? ? Hx Hl]; subst.
    inversion Hy as [|? ? Hyx Hyl]; subst.
    constructor; [|constructor; assumption].
    constructor; [|exact Hx]. rewrite sameValueZero_sym. exact Hyx.
  - apply IH2, IH1, H.
Qed.

Lemma byDateDesc_descending timeValue l :
  Forall (fun m => is_Some (timeValue (date m))) l ->
  descending_on (Regions.byDateDesc timeValue) (timeOf timeValue) l.
Proof.
  intros H a b Ha Hb. rewrite Forall_forall in H.
  destruct (H a Ha) as [ta Hta], (H b Hb) as [tb Htb].
  unfold Regions.byDateDesc, timeOf. rewrite Hta, Htb. reflexivity.
Qed.

(** The query on well-formed input: every location a string and every
    date a valid one. It returns; what it returns are messages of the
    input that have a location inside the bounds; every message of the
    input with a location inside is returned or has the key
    ([id], or [text_date_channel]) of a returned one; no two returned
    messages have the same key; the result is in descending order of
    time, and the messages of one time come in their input order. *)
Lemma findMessagesInRegion_characterised timeValue allMessages cache regionBounds :
  Forall strings_only allMessages ->
  Forall (fun m => is_Some (timeValue (date m))) allMessages ->
  exists result,
    Regions.findMessagesInRegion timeValue allMessages cache regionBounds = Js.Normal result
    /\ (forall m, m ∈ result -> m ∈ allMessages /\ anyInside cache regionBounds m = true)
    /\ (forall m, m ∈ allMessages -> anyInside cache regionBounds m = true ->
          m ∈ result
          \/ exists m', m' ∈ result
                        /\ Js.sameValueZero (Regions.messageId m) (Regions.messageId m') = true)
    /\ distinct_keys result
    /\ StronglySorted (fun a b => (timeOf timeValue b <= timeOf timeValue a)%Z) result
    /\ (forall t, sublist (List.filter (fun m => (timeOf timeValue m =? t)%Z) result)
                          allMessages).
Proof.
  intros Hs Hd. eexists. split; [apply findMessagesInRegion_returns, Hs|].
  destruct (gathered_scanned cache regionBounds allMessages) as [Hk Hsub Hin Hdist Hall].
  fold (gathered cache regionBounds allMessages) in Hsub, Hin, Hdist, Hall.
  set (g := gathered cache regionBounds allMessages) in *.
  assert (Hp := sort_perm (Regions.byDateDesc timeValue) g).
  assert (Hdg : descending_on (Regions.byDateDesc timeValue) (timeOf timeValue) g).
  { apply byDateDesc_descending. rewrite Forall_forall in Hd |- *.
    intros m Hm. apply Hd. eapply elem_of_sublist; eassumption. }
  split; [|split; [|split; [|split]]].
  - intros m Hm. rewrite Hp in Hm. split.
    + eapply elem_of_sublist; eassumption.
    + rewrite Forall_forall in Hin. apply Hin, Hm.
  - intros m Hm Hm'. destruct (Hall m Hm Hm') as [H|(m' & H1 & H2)].
    + left. rewrite Hp. exact H.
    + right. exists m'. rewrite Hp. split; assumption.
  - eapply distinct_keys_perm; [symmetry; exact Hp|exact Hdist].
  - apply sort_sorted, Hdg.
  - intros t. rewrite (sort_stable _ _ t g Hdg).
    etransitivity; [|exact Hsub]. clear. induction g as [|m g IH]; simpl; [constructor|].
    destruct (_ =? _)%Z; [apply sublist_skip|apply sublist_cons]; exact IH.
Qed.

(** C4, the failing input. Both messages have the location Gaza, a
    point inside the queried bounds, and neither has an id; their
    triples (text, date, channel) differ, yet their keys
    [text_date_channel] are one string, so the query returns the first
    and drops the second. *)
Theorem C4_joined_key_drops_distinct_message (timeValue : string -> option Z) :
  let cache := Regions.locationCache gaza_cache in
  (text first_alert, date first_alert, channel first_alert)
    <> (text second_alert, date second_alert, channel second_alert)
  /\ anyInside cache gaza_region first_alert = true
  /\ anyInside cache gaza_region second_alert = true
  /\ Regions.messageId first_alert = Regions.messageId second_alert
  /\ Regions.findMessagesInRegion timeValue [first_alert; second_alert] cache gaza_region
     = Js.Normal [first_alert].
Proof.
  split; [discriminate|].
  repeat split; vm_compute; reflexivity.
Qed.

(** ** Edit distance *)

Module LevFacts.
Import Lev.

Lemma distance_nil_r s : distance s [] = length s.
Proof. destruct s; reflexivity. Qed.

Lemma distance_cons a s b t :
  distance (a :: s) (b :: t) =
    Nat.min (distance (a :: s) t + 1)
      (Nat.min (distance s (b :: t) + 1) (distance s t + subst_cost a b)).
Proof. reflexivity. Qed.

Lemma script_inserts t : Script [] t (length t).
Proof.
  induction t as [|b t IH]; simpl; [constructor|].
  replace (S (length t)) with (length t + 1) by lia. apply script_insert. exact IH.
Qed.

Lemma script_deletes s : Script s [] (length s).
Proof.
  induction s as [|a s IH]; simpl; [constructor|].
  replace (S (length s)) with (length s + 1) by lia. apply script_delete. exact IH.
Qed.

(** The value of the recurrence is the cost of some script. *)
Lemma distance_script s t : Script s t (distance s t).
Proof.
  revert t. induction s as [|a s IHs]; intros t; [apply script_inserts|].
  induction t as [|b t IHt]; [apply script_deletes|].
  rewrite distance_cons.
  destruct (Nat.min_spec (distance (a :: s) t + 1)
              (Nat.min (distance s (b :: t) + 1) (distance s t + subst_cost a b)))
    as [[_ ->]|[_ ->]].
  - apply script_insert. exact IHt.
  - destruct (Nat.min_spec (distance s (b :: t) + 1) (distance s t + subst_cost a b))
      as [[_ ->]|[_ ->]]; [apply script_delete|apply script_subst]; apply IHs.
Qed.

Lemma distance_delete a s t : distance (a :: s) t <= distance s t + 1.
Proof.
  destruct t as [|b t]; [rewrite !distance_nil_r; simpl; lia|].
  rewrite distance_cons. lia.
Qed.

Lemma distance_insert b s t : distance s (b :: t) <= distance s t + 1.
Proof.
  destruct s as [|a s]; [simpl; lia|]. rewrite distance_cons. lia.
Qed.

(** No script is cheaper. *)
Lemma distance_least s t n : Script s t n -> distance s t <= n.
Proof.
  induction 1 as [|a b s t n _ IH|a s t n _ IH|b s t n _ IH].
  - reflexivity.
  - rewrite distance_cons. lia.
  - pose proof (distance_delete a s t). lia.
  - pose proof (distance_insert b s t). lia.
Qed.

Lemma distance_is_distance s t : IsDistance s t (distance s t).
Proof. split; [apply distance_script|apply distance_least]. Qed.

Lemma IsDistance_unique s t d d' : IsDistance s t d -> IsDistance s t d' -> d = d'.
Proof.
  intros [H1 H2] [H1' H2']. apply Nat.le_antisymm; [apply H2, H1'|apply H2', H1].
Qed.

Lemma script_app s t n s' t' m :
  Script s t n -> Script s' t' m -> Script (s ++ s') (t ++ t') (n + m).
Proof.
  intros H H'. induction H as [|a b s t n _ IH|a s t n _ IH|b s t n _ IH]; simpl.
  - exact H'.
  - replace (n + subst_cost a b + m) with (n + m + subst_cost a b) by lia.
    apply script_subst. exact IH.
  - replace (n + 1 + m) with (n + m + 1) by lia. apply script_delete. exact IH.
  - replace (n + 1 + m) with (n + m + 1) by lia. apply script_insert. exact IH.
Qed.

Lemma script_rev s t n : Script s t n -> Script (rev s) (rev t) n.
Proof.
  induction 1 as [|a b s t n _ IH|a s t n _ IH|b s t n _ IH]; simpl.
  - constructor.
  - apply script_app; [exact IH|].
    apply (script_subst a b [] [] 0). constructor.
  - rewrite <- (app_nil_r (rev t)). apply script_app; [exact IH|].
    apply (script_delete a [] [] 0). constructor.
  - rewrite <- (app_nil_r (rev s)). apply script_app; [exact IH|].
    apply (script_insert b [] [] 0). constructor.
Qed.

Lemma distance_rev s t : distance (rev s) (rev t) = distance s t.
Proof.
  apply Nat.le_antisymm.
  - apply distance_least, script_rev, distance_script.
  - apply distance_least.
    rewrite <- (rev_involutive s), <- (rev_involutive t) at 1.
    apply script_rev, distance_script.
Qed.

End LevFacts.

Module TableFacts.
Import Lev LevFacts.

Lemma length_chars s : length (chars s) = String.length s.
Proof. induction s as [|c s IH]; simpl; [reflexivity|]. f_equal. exact IH. Qed.

Lemma charAt_chars s k : charAt s k = chars s !! k.
Proof.
  unfold charAt. revert k. induction s as [|c s IH]; intros [|k]; simpl; try reflexivity.
  apply IH.
Qed.

(** [for_upto] carries an invariant indexed by the loop counter. *)
Lemma for_upto_ind {S} (P : nat -> S -> Prop) from to (body : S -> nat -> S) s :
  from <= Datatypes.S to ->
  P from s ->
  (forall k s, from <= k -> k <= to -> P k s -> P (Datatypes.S k) (body s k)) ->
  P (Datatypes.S to) (for_upto from to body s).
Proof.
  intros Hle H0 Hstep. unfold for_upto.
  remember (Datatypes.S to - from) as n eqn:Hn.
  assert (Hto : Datatypes.S to = from + n) by lia. rewrite Hto.
  assert (Hstep' : forall k s, from <= k -> k < from + n -> P k s -> P (Datatypes.S k) (body s k)).
  { intros k s' H1 H2. apply Hstep; lia. }
  clear Hstep Hn Hto Hle. revert from s H0 Hstep'.
  induction n as [|n IH]; intros from s H0 Hstep; simpl.
  - rewrite Nat.add_0_r. exact H0.
  - replace (from + Datatypes.S n) with (Datatypes.S from + n) by lia.
    apply IH.
    + apply Hstep; [lia|lia|exact H0].
    + intros k s' H1 H2. apply Hstep; lia.
Qed.

Lemma store_shaped w h m j i v : shaped w h m -> shaped w h (store m j i v).
Proof.
  intros [Hh Hw]. unfold store. destruct (m !! j) as [row|] eqn:Hrow; [|split; assumption].
  split; [rewrite length_insert; exact Hh|].
  apply Forall_insert; [exact Hw|]. rewrite length_insert.
  rewrite Forall_forall in Hw. apply Hw. eapply list_elem_of_lookup_2, Hrow.
Qed.

Lemma cell_store w h m j i v j' i' :
  shaped w h m -> j < h -> i < w ->
  cell (store m j i v) j' i' = if decide (j' = j /\ i' = i) then v else cell m j' i'.
Proof.
  intros [Hh Hw] Hj Hi. unfold store.
  destruct (lookup_lt_is_Some_2 m j) as [row Hrow]; [lia|]. rewrite Hrow.
  assert (Hlen : length row = w).
  { rewrite Forall_forall in Hw. apply Hw. eapply list_elem_of_lookup_2, Hrow. }
  unfold cell. destruct (decide (j' = j)) as [->|Hne].
  - rewrite list_lookup_insert_eq by lia. rewrite Hrow.
    destruct (decide (i' = i)) as [->|Hne'].
    + rewrite list_lookup_insert_eq by lia.
      destruct (decide (j = j /\ i = i)) as [_|Hn]; [reflexivity|].
      exfalso. apply Hn. split; reflexivity.
    + rewrite list_lookup_insert_ne by congruence.
      destruct (decide (j = j /\ i' = i)) as [[_ ?]|_]; [contradiction|reflexivity].
  - rewrite list_lookup_insert_ne by congruence.
    destruct (decide (j' = j /\ i' = i)) as [[? _]|_]; [contradiction|reflexivity].
Qed.

Section Prefixes.
Variables l1 l2 : list ascii.

Lemma prefix_distance_row0 i : i <= length l1 -> prefix_distance l1 l2 0 i = i.
Proof.
  intros H. unfold prefix_distance. rewrite take_0. simpl.
  rewrite distance_nil_r, length_rev, length_take. lia.
Qed.

Lemma prefix_distance_col0 j : j <= length l2 -> prefix_distance l1 l2 j 0 = j.
Proof.
  intros H. unfold prefix_distance. rewrite take_0. simpl.
  rewrite length_rev, length_take. lia.
Qed.

Lemma prefix_distance_step j i a b :
  l1 !! i = Some a -> l2 !! j = Some b ->
  prefix_distance l1 l2 (S j) (S i) =
    Nat.min (prefix_distance l1 l2 (S j) i + 1)
      (Nat.min (prefix_distance l1 l2 j (S i) + 1)
               (prefix_distance l1 l2 j i + subst_cost a b)).
Proof.
  intros Ha Hb. unfold prefix_distance.
  rewrite (take_S_r l1 i a Ha), (take_S_r l2 j b Hb), !rev_unit.
  rewrite distance_cons. lia.
Qed.

Lemma prefix_distance_full :
  prefix_distance l1 l2 (length l2) (length l1) = distance l1 l2.
Proof.
  unfold prefix_distance. rewrite !firstn_all. apply distance_rev.
Qed.
End Prefixes.

Section Loops.
Variables str1 str2 : string.
Let len1 := String.length str1.
Let len2 := String.length str2.

Lemma replicate_shaped :
  shaped (S len1) (S len2) (replicate (S len2) (replicate (S len1) None)).
Proof.
  split; [apply length_replicate|].
  apply Forall_replicate. apply length_replicate.
Qed.

Lemma first_row_settled :
  let m := for_upto 0 len1 (fun m i => store m 0 i i)
             (replicate (S len2) (replicate (S len1) None)) in
  shaped (S len1) (S len2) m /\ forall i, i <= len1 -> cell m 0 i = i.
Proof.
  intros m.
  assert (H : shaped (S len1) (S len2) m
              /\ forall i, i < S len1 -> cell m 0 i = i).
  { subst m.
    apply (for_upto_ind
             (fun k m => shaped (S len1) (S len2) m /\ forall i, i < k -> cell m 0 i = i)).
    - lia.
    - split; [apply replicate_shaped|]. intros i Hi. lia.
    - intros k m _ Hk [Hs Hc]. split; [apply store_shaped, Hs|].
      intros i Hi. rewrite (cell_store _ _ _ _ _ _ _ _ Hs) by lia.
      destruct (decide (0 = 0 /\ i = k)) as [[_ ->]|Hne]; [reflexivity|].
      apply Hc. lia. }
  destruct H as [Hs Hc]. split; [exact Hs|]. intros i Hi. apply Hc. lia.
Qed.

Lemma borders_settled :
  settled str1 str2 1 1
    (for_upto 0 len2 (fun m j => store m j 0 j)
       (for_upto 0 len1 (fun m i => store m 0 i i)
          (replicate (S len2) (replicate (S len1) None)))).
Proof.
  destruct first_row_settled as [Hs0 Hr0].
  set (m0 := for_upto 0 len1 _ _) in *.
  assert (H : shaped (S len1) (S len2) (for_upto 0 len2 (fun m j => store m j 0 j) m0)
              /\ (forall i, i <= len1 ->
                    cell (for_upto 0 len2 (fun m j => store m j 0 j) m0) 0 i = i)
              /\ forall j, j < S len2 ->
                   cell (for_upto 0 len2 (fun m j => store m j 0 j) m0) j 0 = j).
  { apply (for_upto_ind
             (fun k m => shaped (S len1) (S len2) m
                         /\ (forall i, i <= len1 -> cell m 0 i = i)
                         /\ forall j, j < k -> cell m j 0 = j)).
    - lia.
    - split; [exact Hs0|]. split; [exact Hr0|]. intros j Hj. lia.
    - intros k m _ Hk (Hs & Hr & Hc). split; [apply store_shaped, Hs|]. split.
      + intros i Hi. rewrite (cell_store _ _ _ _ _ _ _ _ Hs) by lia.
        destruct (decide (0 = k /\ i = 0)) as [[<- ->]|Hne]; [reflexivity|].
        apply Hr, Hi.
      + intros j Hj. rewrite (cell_store _ _ _ _ _ _ _ _ Hs) by lia.
        destruct (decide (j = k /\ 0 = 0)) as [[-> _]|Hne]; [reflexivity|].
        apply Hc. lia. }
  destruct H as (Hs & Hr & Hc). split; [exact Hs|].
  intros j i Hj Hi Hcase. fold len1 len2 in Hj, Hi.
  assert (Hl1 := length_chars str1). assert (Hl2 := length_chars str2).
  destruct (decide (j = 0)) as [->|Hj0].
  - rewrite Hr by exact Hi. rewrite prefix_distance_row0; [reflexivity|]. lia.
  - assert (i = 0) as -> by lia.
    rewrite Hc by lia. rewrite prefix_distance_col0; [reflexivity|]. lia.
Qed.

Lemma cell_step j i m :
  1 <= j -> j <= len2 -> 1 <= i -> i <= len1 ->
  settled str1 str2 j i m ->
  settled str1 str2 j (S i)
    (store m j i
       (Nat.min (cell m j (i - 1) + 1)
          (Nat.min (cell m (j - 1) i + 1)
             (cell m (j - 1) (i - 1)
              + (if decide (charAt str1 (i - 1) = charAt str2 (j - 1)) then 0 else 1))))).
Proof.
  intros Hj1 Hj2 Hi1 Hi2 [Hs Hc]. split; [apply store_shaped, Hs|].
  intros j' i' Hj' Hi' Hcase.
  rewrite (cell_store _ _ _ _ _ _ _ _ Hs) by lia.
  destruct (decide (j' = j /\ i' = i)) as [[-> ->]|Hne]; [|apply Hc; lia].
  destruct j as [|j]; [lia|]. destruct i as [|i]; [lia|].
  replace (S i - 1) with i by lia. replace (S j - 1) with j by lia.
  rewrite !Hc by lia.
  assert (Hl1 := length_chars str1). assert (Hl2 := length_chars str2).
  destruct (lookup_lt_is_Some_2 (chars str1) i) as [a Ha]; [fold len1 in Hi2; lia|].
  destruct (lookup_lt_is_Some_2 (chars str2) j) as [b Hb]; [fold len2 in Hj2; lia|].
  rewrite (prefix_distance_step _ _ j i a b Ha Hb).
  rewrite !charAt_chars, Ha, Hb. unfold subst_cost.
  destruct (decide (a = b)) as [->|Hab].
  - destruct (decide (Some b = Some b)) as [_|Hn]; [reflexivity|].
    exfalso. apply Hn. reflexivity.
  - destruct (decide (Some a = Some b)) as [Heq|_]; [congruence|reflexivity].
Qed.

Lemma table_settled : settled str1 str2 (S len2) 1 (table str1 str2).
Proof.
  unfold table. fold len1 len2.
  apply (for_upto_ind (fun j m => settled str1 str2 j 1 m)).
  - lia.
  - apply borders_settled.
  - intros j m Hj1 Hj2 Hm.
    assert (H : settled str1 str2 j (S len1)
                  (for_upto 1 len1
                     (fun m i =>
                        let cost :=
                          if decide (charAt str1 (i - 1) = charAt str2 (j - 1))
                          then 0 else 1 in
                        store m j i
                          (Nat.min (cell m j (i - 1) + 1)
                             (Nat.min (cell m (j - 1) i + 1)
                                (cell m (j - 1) (i - 1) + cost)))) m)).
    { apply (for_upto_ind (fun i m => settled str1 str2 j i m)).
      - lia.
      - exact Hm.
      - intros i m' Hi1 Hi2 Hm'. apply cell_step; assumption. }
    destruct H as [Hs Hc]. split; [exact Hs|].
    intros j' i' Hj' Hi' Hcase. apply Hc; lia.
Qed.
End Loops.

(** The table has [|s2| + 1] rows of [|s1| + 1] cells, and the cell
    [j][i] holds the distance of the first [i] characters of [s1] and the
    first [j] characters of [s2]. *)
Lemma table_correct str1 str2 :
  shaped (S (String.length str1)) (S (String.length str2)) (table str1 str2)
  /\ forall j i, j <= String.length str2 -> i <= String.length str1 ->
       cell (table str1 str2) j i = prefix_distance (chars str1) (chars str2) j i.
Proof.
  destruct (table_settled str1 str2) as [Hs Hc]. split; [exact Hs|].
  intros j i Hj Hi. apply Hc; lia.
Qed.

Lemma levenshteinDistance_distance str1 str2 :
  levenshteinDistance str1 str2 = distance (chars str1) (chars str2).
Proof.
  unfold levenshteinDistance.
  rewrite (proj2 (table_correct str1 str2)) by lia.
  rewrite <- (length_chars str1), <- (length_chars str2).
  apply prefix_distance_full.
Qed.

End TableFacts.

(** C9. [levenshteinDistance] is the Levenshtein distance with unit
    costs: its value is the cost of an edit script from one string to the
    other (substitutions, deletions and insertions at cost 1 each), no
    script costs less, and it is the value of the usual recurrence; it is
    read off a table of [|s2| + 1] rows of [|s1| + 1] cells whose cell
    [j][i] is the distance of the prefixes of lengths [i] and [j]; and
    the distance of [kitten] and [sitting] is 3. *)
Theorem C9_levenshtein_is_edit_distance :
  (forall str1 str2,
      Lev.IsDistance (Lev.chars str1) (Lev.chars str2) (Lev.levenshteinDistance str1 str2)
      /\ Lev.levenshteinDistance str1 str2 = Lev.distance (Lev.chars str1) (Lev.chars str2)
      /\ length (Lev.table str1 str2) = S (String.length str2)
      /\ Forall (fun row => length row = S (String.length str1)) (Lev.table str1 str2)
      /\ forall j i, j <= String.length str2 -> i <= String.length str1 ->
           Lev.IsDistance (take i (Lev.chars str1)) (take j (Lev.chars str2))
                          (Lev.cell (Lev.table str1 str2) j i))
  /\ Lev.levenshteinDistance "kitten" "sitting" = 3.
Proof.
  split; [|vm_compute; reflexivity].
  intros str1 str2.
  destruct (TableFacts.table_correct str1 str2) as [[Hh Hw] Hc].
  split; [rewrite TableFacts.levenshteinDistance_distance; apply LevFacts.distance_is_distance|].
  split; [apply TableFacts.levenshteinDistance_distance|].
  split; [exact Hh|]. split; [exact Hw|].
  intros j i Hj Hi. rewrite (Hc j i Hj Hi). unfold Lev.prefix_distance.
  rewrite LevFacts.distance_rev. apply LevFacts.distance_is_distance.
Qed.

(** ** The stores after a rebuild *)

(** A property that holds of the cleared state and that every ingestion
    of a resolved location keeps, holds after the rebuild. *)
Lemma refreshMarkers_ind (cache : gmap string (option Coord)) (messages : list Message)
    (P : Regions.State -> Prop) :
  P Regions.cleared ->
  (forall st msg s coord,
      msg ∈ messages -> Js.JStr s ∈ locations msg ->
      cache !! locationKey s = Some (Some coord) ->
      P st -> P (Regions.addLocationToMap coord msg s st)) ->
  P (Regions.refreshMarkers cache messages).
Proof.
  intros H0 Hstep. unfold Regions.refreshMarkers.
  assert (Hsub : forall m, m ∈ messages -> m ∈ messages) by auto.
  revert Hsub H0. generalize Regions.cleared. generalize messages at 1 3.
  induction messages0 as [|msg rest IH]; intros st Hsub H; simpl; [exact H|].
  apply IH; [intros m Hm; apply Hsub; right; exact Hm|].
  assert (Hmsg : msg ∈ messages) by (apply Hsub; left).
  assert (Hlocs : forall l, l ∈ locations msg -> l ∈ locations msg) by auto.
  revert Hlocs H. generalize st. generalize (locations msg) at 1 3.
  induction l as [|location locs IHl]; intros st' Hlocs H; simpl; [exact H|].
  apply IHl; [intros l Hl; apply Hlocs; right; exact Hl|].
  unfold Regions.placeLocation.
  destruct location as [| | | |s|]; try exact H.
  destruct (negb (Js.truthy (Js.JStr s))); [exact H|].
  destruct (negb (Js.truthy (Js.JStr (locationKey s)))); [exact H|].
  destruct (cache !! locationKey s) as [[coord|]|] eqn:Hc; try exact H.
  apply Hstep; try assumption. apply Hlocs. left.
Qed.

Lemma pushMessage_fst rid msg entry : fst (Regions.pushMessage rid msg entry) = fst entry.
Proof. unfold Regions.pushMessage. destruct (_ =? _)%nat; reflexivity. Qed.

Lemma pushMessage_name rid msg entry :
  Regions.name (snd (Regions.pushMessage rid msg entry)) = Regions.name (snd entry)
  /\ Regions.bounds (snd (Regions.pushMessage rid msg entry)) = Regions.bounds (snd entry).
Proof. unfold Regions.pushMessage. destruct (_ =? _)%nat; split; reflexivity. Qed.

(** The cases of [addLocationToMap] on the store of regions. *)
Lemma addLocationToMap_regionStore coord msg locationName st :
  let st' := Regions.addLocationToMap coord msg locationName st in
  (isBox coord = false /\ Regions.regionStore st' = Regions.regionStore st
   /\ Regions.nextRegionId st' = Regions.nextRegionId st
   /\ Regions.regionMarkersGroup st' = Regions.regionMarkersGroup st
   /\ Regions.rectangleLayerGroup st' = Regions.rectangleLayerGroup st)
  \/ (exists n s e w rid r,
        c_north coord = Some n /\ c_south coord = Some s
        /\ c_east coord = Some e /\ c_west coord = Some w
        /\ (rid, r) ∈ Regions.regionStore st
        /\ Regions.sameRegion locationName n s e w r = true
        /\ Regions.regionStore st'
           = map (Regions.pushMessage rid msg) (Regions.regionStore st)
        /\ Regions.nextRegionId st' = Regions.nextRegionId st
        /\ Regions.regionMarkersGroup st' = Regions.regionMarkersGroup st
        /\ Regions.rectangleLayerGroup st' = Regions.rectangleLayerGroup st
        /\ Regions.markerClusterGroup st' = Regions.markerClusterGroup st)
  \/ (exists n s e w,
        c_north coord = Some n /\ c_south coord = Some s
        /\ c_east coord = Some e /\ c_west coord = Some w
        /\ Forall (fun entry => Regions.sameRegion locationName n s e w (snd entry) = false)
                  (Regions.regionStore st)
        /\ Regions.regionStore st'
           = Regions.regionStore st
             ++ [(Regions.nextRegionId st,
                  Regions.mkRegion locationName (mkBounds n s e w) [msg]
                    (midpoint (mkBounds n s e w)) Regions.DefaultActivity)]
        /\ Regions.nextRegionId st' = S (Regions.nextRegionId st)
        /\ Regions.regionMarkersGroup st'
           = Regions.regionMarkersGroup st ++ [midpoint (mkBounds n s e w)]
        /\ Regions.rectangleLayerGroup st'
           = Regions.rectangleLayerGroup st ++ [((s, w), (n, e))]
        /\ Regions.markerClusterGroup st' = Regions.markerClusterGroup st).
Proof.
  intros st'. subst st'. unfold Regions.addLocationToMap, isBox.
  destruct (c_north coord) as [n|], (c_south coord) as [s|], (c_east coord) as [e|],
    (c_west coord) as [w|];
    try (left; destruct (c_lat coord), (c_lon coord); simpl; repeat split; reflexivity).
  right.
  destruct (List.find _ (Regions.regionStore st)) as [[rid r]|] eqn:Hfind; simpl.
  - left. apply find_some_elem in Hfind as [Hin Hsame].
    exists n, s, e, w, rid, r. repeat split; try reflexivity; assumption.
  - right. exists n, s, e, w. repeat split; try reflexivity.
    apply Forall_forall. intros entry Hin.
    apply (find_none _ _ Hfind). apply list_elem_of_In. exact Hin.
Qed.

Lemma addLocationToMap_messageStore coord msg locationName st :
  Regions.messageStore (Regions.addLocationToMap coord msg locationName st)
  = Regions.messageStore st ++ [(Regions.nextMsgId st, msg)]
  /\ Regions.nextMsgId (Regions.addLocationToMap coord msg locationName st)
     = S (Regions.nextMsgId st).
Proof.
  unfold Regions.addLocationToMap.
  destruct (c_north coord), (c_south coord), (c_east coord), (c_west coord),
    (c_lat coord), (c_lon coord); simpl;
    try destruct (List.find _ (Regions.regionStore st)) as [[? ?]|]; simpl;
    split; reflexivity.
Qed.

Lemma seq_snoc_0 n : seq 0 (S n) = seq 0 n ++ [n].
Proof. rewrite seq_S. reflexivity. Qed.

Lemma pushMessage_center rid msg entry :
  Regions.center (snd (Regions.pushMessage rid msg entry)) = Regions.center (snd entry).
Proof. unfold Regions.pushMessage. destruct (_ =? _)%nat; reflexivity. Qed.

Lemma strip_cache_drawable key coord :
  strip_cache !! key = Some (Some coord) -> drawable coord = true.
Proof.
  unfold strip_cache. intros H.
  apply lookup_insert_Some in H as [[_ H]|[_ H]].
  - injection H as <-. reflexivity.
  - apply lookup_singleton_Some in H as [_ H]. injection H as <-. reflexivity.
Qed.

Lemma own_names_lookup (cache : gmap string (option Coord)) (messages : list Message)
    (msg : Message) (s : string) :
  own_names messages -> msg ∈ messages -> Js.JStr s ∈ locations msg ->
  objectLookup cache (locationKey s) = cache !! locationKey s.
Proof.
  intros Hn Hmsg Hs. unfold own_names in Hn. rewrite Forall_forall in Hn.
  specialize (Hn msg Hmsg). rewrite List.forallb_forall in Hn.
  specialize (Hn (Js.JStr s) (proj1 (list_elem_of_In _ _) Hs)). simpl in Hn.
  apply andb_prop in Hn as [_ Hn]. apply negb_true_iff in Hn.
  unfold objectLookup. rewrite Hn. destruct (cache !! locationKey s); reflexivity.
Qed.

(** What the rebuild hands to [L.marker] and [L.rectangle]. *)
Lemma addLocationToMap_finite coord msg locationName st :
  drawable coord = true ->
  Forall (fun p => finite_position p = true)
         (Regions.regionMarkersGroup st ++ Regions.markerClusterGroup st)
  /\ Forall (fun c => finite_corners c = true) (Regions.rectangleLayerGroup st) ->
  let st' := Regions.addLocationToMap coord msg locationName st in
  Forall (fun p => finite_position p = true)
         (Regions.regionMarkersGroup st' ++ Regions.markerClusterGroup st')
  /\ Forall (fun c => finite_corners c = true) (Regions.rectangleLayerGroup st').
Proof.
  unfold drawable, Regions.addLocationToMap. intros Hd [Hm Hr].
  apply Forall_app in Hm as [Hrm Hcm].
  destruct (c_north coord) as [n|], (c_south coord) as [s|], (c_east coord) as [e|],
    (c_west coord) as [w|].
  1: { destruct (List.find _ (Regions.regionStore st)) as [[rid r]|]; cbv zeta; simpl.
       - split; [apply Forall_app; split; assumption|exact Hr].
       - repeat (apply andb_prop in Hd as [Hd ?]).
         split.
         + rewrite !Forall_app. repeat split; try assumption.
           repeat constructor. unfold finite_position. simpl.
           apply andb_true_intro. split; assumption.
         + rewrite Forall_app. split; [exact Hr|]. repeat constructor.
           unfold finite_corners, finite_position. simpl.
           repeat (apply andb_true_intro; split); assumption. }
  all: destruct (c_lat coord) as [lat|], (c_lon coord) as [lon|]; cbv zeta; simpl;
    try (split; [apply Forall_app; split; assumption|exact Hr]).
  all: split; [|exact Hr]; rewrite !Forall_app; repeat split; try assumption;
    repeat constructor; exact Hd.
Qed.

(** X1. When the positions of the cache are finite numbers, the names
    of the locations are in the ASCII range and none is looked up under
    an inherited name, every lookup of the rebuild finds what the own
    keys of the cache hold, every position that the rebuild hands to
    the map library is made of finite numbers, and after the rebuild
    the popups are numbered [msg_0], [msg_1], ... and the regions
    [region_0], [region_1], ... with no gap and no repeat, up to the two
    counters; and every region entity has its marker and its rectangle:
    the markers of the regions are, in the order of the store, at the
    centres of the entities, and the rectangles have the corners of
    their bounds. *)
Theorem rebuild_ids_are_consecutive (cache : gmap string (option Coord))
    (messages : list Message) :
  (forall key coord, cache !! key = Some (Some coord) -> drawable coord = true) ->
  own_names messages ->
  let st := Regions.refreshMarkers cache messages in
  (forall msg s, msg ∈ messages -> Js.JStr s ∈ locations msg ->
                 objectLookup cache (locationKey s) = cache !! locationKey s)
  /\ map fst (Regions.messageStore st) = seq 0 (Regions.nextMsgId st)
  /\ map fst (Regions.regionStore st) = seq 0 (Regions.nextRegionId st)
  /\ NoDup (map fst (Regions.regionStore st))
  /\ Regions.regionMarkersGroup st
     = map (fun entry => Regions.center (snd entry)) (Regions.regionStore st)
  /\ Regions.rectangleLayerGroup st
     = map (fun entry => corners (Regions.bounds (snd entry))) (Regions.regionStore st)
  /\ Forall (fun p => finite_position p = true)
            (Regions.regionMarkersGroup st ++ Regions.markerClusterGroup st)
  /\ Forall (fun c => finite_corners c = true) (Regions.rectangleLayerGroup st).
Proof.
  intros Hd Hown st. subst st.
  assert (Hfinite :
            let st := Regions.refreshMarkers cache messages in
            Forall (fun p => finite_position p = true)
                   (Regions.regionMarkersGroup st ++ Regions.markerClusterGroup st)
            /\ Forall (fun c => finite_corners c = true) (Regions.rectangleLayerGroup st)).
  { apply refreshMarkers_ind; [split; constructor|].
    intros st msg s coord _ _ Hc H. apply addLocationToMap_finite; [|exact H].
    apply (Hd _ _ Hc). }
  assert (Hcore :
            let st := Regions.refreshMarkers cache messages in
            map fst (Regions.messageStore st) = seq 0 (Regions.nextMsgId st)
            /\ map fst (Regions.regionStore st) = seq 0 (Regions.nextRegionId st)
            /\ Regions.regionMarkersGroup st
               = map (fun entry => Regions.center (snd entry)) (Regions.regionStore st)
            /\ Regions.rectangleLayerGroup st
               = map (fun entry => corners (Regions.bounds (snd entry)))
                     (Regions.regionStore st)).
  { apply refreshMarkers_ind; [repeat split; reflexivity|].
    intros st msg s coord _ _ _ (H1 & H2 & H3 & H4). cbv zeta.
    destruct (addLocationToMap_messageStore coord msg s st) as [-> ->].
    split; [rewrite map_app, H1, seq_snoc_0; reflexivity|].
    destruct (addLocationToMap_regionStore coord msg s st)
      as [(_ & -> & -> & -> & ->)
         |[(n & s' & e & w & rid & r & _ & _ & _ & _ & _ & _ & -> & -> & -> & -> & _)
          |(n & s' & e & w & _ & _ & _ & _ & _ & -> & -> & -> & -> & _)]].
    - repeat split; assumption.
    - rewrite !map_map. split; [|split].
      + rewrite <- H2. apply map_ext. intros entry. apply pushMessage_fst.
      + rewrite H3. apply map_ext. intros entry. symmetry. apply pushMessage_center.
      + rewrite H4. apply map_ext. intros entry.
        rewrite (proj2 (pushMessage_name rid msg entry)). reflexivity.
    - rewrite !map_app, H2, seq_snoc_0, H3, H4. repeat split; reflexivity. }
  cbv zeta in Hfinite, Hcore.
  destruct Hfinite as [Hf1 Hf2]. destruct Hcore as (H1 & H2 & H3 & H4).
  split; [intros msg s; apply own_names_lookup, Hown|].
  split; [exact H1|]. split; [exact H2|].
  split; [rewrite H2; apply NoDup_ListNoDup, seq_NoDup|].
  split; [exact H3|]. split; [exact H4|]. split; [exact Hf1|exact Hf2].
Qed.

Lemma rebuild_ids_witness :
  (forall key coord, strip_cache !! key = Some (Some coord) -> drawable coord = true)
  /\ own_names [strip_report; strip_report]
  /\ Regions.regionMarkersGroup (Regions.refreshMarkers strip_cache [strip_report; strip_report])
     = map (fun entry => Regions.center (snd entry))
           (Regions.regionStore
              (Regions.refreshMarkers strip_cache [strip_report; strip_report])).
Proof.
  assert (Hd : forall key coord, strip_cache !! key = Some (Some coord) ->
                                 drawable coord = true) by exact strip_cache_drawable.
  assert (Hn : own_names [strip_report; strip_report]) by (repeat constructor).
  split; [exact Hd|]. split; [exact Hn|].
  exact (proj1 (proj2 (proj2 (proj2 (proj2
           (rebuild_ids_are_consecutive strip_cache [strip_report; strip_report] Hd Hn)))))).
Defined.





Lemma same_entity_pushMessage rid msg a b :
  same_entity (snd (Regions.pushMessage rid msg a)) (snd (Regions.pushMessage rid msg b))
  = same_entity (snd a) (snd b).
Proof.
  unfold same_entity, Regions.sameRegion.
  destruct (pushMessage_name rid msg a) as [-> ->].
  destruct (pushMessage_name rid msg b) as [-> ->]. reflexivity.
Qed.

Lemma ForallOrdPairs_map {A B} (Q : A -> A -> Prop) (R : B -> B -> Prop) (f : A -> B) l :
  (forall a b, Q a b -> R (f a) (f b)) ->
  ForallOrdPairs Q l -> ForallOrdPairs R (map f l).
Proof.
  intros HQR. induction 1 as [|a l Ha _ IH]; simpl; constructor; [|exact IH].
  apply Forall_map. eapply Forall_impl; [exact Ha|]. intros b. apply HQR.
Qed.

(** X2. After a rebuild no two region entities stand for the same
    region: of any two entries of the store, the earlier one does not
    have both the name of the later one and bounds [===] to its
    bounds. *)
Theorem rebuild_regions_are_distinct (cache : gmap string (option Coord))
    (messages : list Message) :
  ForallOrdPairs (fun a b : nat * Regions.Region => same_entity (snd a) (snd b) = false)
                 (Regions.regionStore (Regions.refreshMarkers cache messages)).
Proof.
  apply refreshMarkers_ind; [constructor|].
  intros st msg s coord _ _ _ H.
  destruct (addLocationToMap_regionStore coord msg s st)
    as [(_ & -> & _)
       |[(n & s' & e & w & rid & r & _ & _ & _ & _ & _ & _ & -> & _)
        |(n & s' & e & w & _ & _ & _ & _ & Hnone & -> & _)]].
  - exact H.
  - eapply ForallOrdPairs_map; [|exact H]. simpl.
    intros a b Hab. rewrite same_entity_pushMessage. exact Hab.
  - apply ForallOrdPairs_snoc; [exact H|]. exact Hnone.
Qed.













(** ** More on the spatial tests *)

Lemma lt_false_mono_r x y z :
  Num.lt y x = false -> Num.le y z = true -> Num.lt z x = false.
Proof.
  intros H1 H2. apply not_true_is_false. intros H3. apply not_true_iff_false in H1.
  apply H1. eapply NumFacts.le_lt_trans; eassumption.
Qed.

Lemma lt_false_mono_l x y z :
  Num.lt x y = false -> Num.le z y = true -> Num.lt x z = false.
Proof.
  intros H1 H2. apply not_true_is_false. intros H3. apply not_true_iff_false in H1.
  apply H1. eapply NumFacts.lt_le_trans; eassumption.
Qed.

Lemma isLocationInBounds_mono coord inner outer :
  contains outer inner ->
  Regions.isLocationInBounds coord inner = true ->
  Regions.isLocationInBounds coord outer = true.
Proof.
  intros (Hs & Hn & Hw & He). unfold Regions.isLocationInBounds.
  destruct (c_lat coord) as [lat|], (c_lon coord) as [lon|].
  1: { unfold Num.ge. fold (Num.le (south inner) lat) (Num.le (west inner) lon)
         (Num.le (south outer) lat) (Num.le (west outer) lon).
       rewrite !andb_true_iff. intros [[[H1 H2] H3] H4].
       repeat split; eapply NumFacts.le_trans; eassumption. }
  all: destruct (c_north coord) as [n|], (c_south coord) as [s|], (c_east coord) as [e|],
         (c_west coord) as [w|]; try discriminate.
  all: rewrite !negb_true_iff, !orb_false_iff; unfold Num.gt;
       fold (Num.lt (north inner) s) (Num.lt (east inner) w)
            (Num.lt (north outer) s) (Num.lt (east outer) w);
       intros [[[H1 H2] H3] H4]; repeat split;
       first [ eapply lt_false_mono_r; eassumption | eapply lt_false_mono_l; eassumption ].
Qed.

(** X6. Widening the bounds keeps every hit: a cache value, point or
    box, that passes [isLocationInBounds] against a box passes it against
    every box that contains that box; and a box with north >= south and
    east >= west passes it against every box that contains it, so a
    region nested in the queried region is found. *)
Theorem isLocationInBounds_grows_with_bounds (coord : Coord) (inner outer : Bounds) :
  contains outer inner ->
  (Regions.isLocationInBounds coord inner = true ->
   Regions.isLocationInBounds coord outer = true)
  /\ (valid inner -> regionsOverlap inner outer = true).
Proof.
  intros Hc. split; [apply isLocationInBounds_mono, Hc|].
  intros Hv. unfold regionsOverlap.
  apply (isLocationInBounds_mono _ inner outer Hc).
  apply regionsOverlap_refl, Hv.
Qed.

Lemma isLocationInBounds_grows_witness :
  let inner := mkBounds 32 31.5 35 34.5 in
  let outer := mkBounds 33 31 36 34 in
  contains outer inner
  /\ Regions.isLocationInBounds (point 31.7 34.7) outer = true
  /\ regionsOverlap inner outer = true.
Proof.
  intros inner outer.
  assert (Hc : contains outer inner) by (repeat split; reflexivity).
  split; [exact Hc|].
  destruct (isLocationInBounds_grows_with_bounds (point 31.7 34.7) inner outer Hc) as [H1 H2].
  split; [apply H1; reflexivity|apply H2; split; reflexivity].
Defined.

Lemma anyInside_mono cache inner outer m :
  contains outer inner ->
  anyInside cache inner m = true -> anyInside cache outer m = true.
Proof.
  intros Hc. unfold anyInside. rewrite !existsb_exists.
  intros (l & Hl & H). exists l. split; [exact Hl|].
  destruct l as [| | | |s|]; try discriminate. simpl in *.
  destruct (cache !! locationKey s) as [[coord|]|]; try discriminate.
  eapply isLocationInBounds_mono; eassumption.
Qed.

(** X7. A wider query loses no message: when every location is a string,
    the queries over a box and over a box that contains it both return,
    and every message returned for the smaller box is returned for the
    larger one or has the key of a message returned for it. *)
Theorem findMessagesInRegion_grows_with_bounds (timeValue : string -> option Z)
    (allMessages : list Message) (cache : gmap string (option Coord))
    (inner outer : Bounds) :
  Forall strings_only allMessages ->
  contains outer inner ->
  exists small large,
    Regions.findMessagesInRegion timeValue allMessages cache inner = Js.Normal small
    /\ Regions.findMessagesInRegion timeValue allMessages cache outer = Js.Normal large
    /\ forall m, m ∈ small ->
         m ∈ large
         \/ exists m', m' ∈ large
                       /\ Js.sameValueZero (Regions.messageId m) (Regions.messageId m') = true.
Proof.
  intros Hs Hc. eexists _, _.
  split; [apply findMessagesInRegion_returns, Hs|].
  split; [apply findMessagesInRegion_returns, Hs|].
  intros m Hm. rewrite sort_perm in Hm.
  destruct (gathered_scanned cache inner allMessages) as [_ Hsub Hin _ _].
  fold (gathered cache inner allMessages) in Hsub, Hin.
  destruct (gathered_scanned cache outer allMessages) as [_ _ _ _ Hall].
  fold (gathered cache outer allMessages) in Hall.
  rewrite Forall_forall in Hin.
  destruct (Hall m (elem_of_sublist _ _ _ Hm Hsub) (anyInside_mono _ _ _ _ Hc (Hin m Hm)))
    as [H|(m' & H1 & H2)].
  - left. rewrite sort_perm. exact H.
  - right. exists m'. rewrite sort_perm. split; assumption.
Qed.

Lemma findMessagesInRegion_grows_witness :
  let inner := mkBounds 32 31.5 35 34.5 in
  let outer := mkBounds 33 31 36 34 in
  Forall strings_only [strip_report] /\ contains outer inner
  /\ exists small large,
       Regions.findMessagesInRegion (fun _ => None) [strip_report] strip_cache inner
       = Js.Normal small
       /\ Regions.findMessagesInRegion (fun _ => None) [strip_report] strip_cache outer
          = Js.Normal large
       /\ forall m, m ∈ small ->
            m ∈ large
            \/ exists m', m' ∈ large
                          /\ Js.sameValueZero (Regions.messageId m) (Regions.messageId m') = true.
Proof.
  intros inner outer.
  assert (Hs : Forall strings_only [strip_report]).
  { repeat constructor; eexists; reflexivity. }
  assert (Hc : contains outer inner) by (repeat split; reflexivity).
  split; [exact Hs|]. split; [exact Hc|].
  apply (findMessagesInRegion_grows_with_bounds (fun _ => None) [strip_report] strip_cache
           inner outer Hs Hc).
Defined.

Lemma le_negb_lt x y : number x -> number y -> Num.le x y = negb (Num.lt y x).
Proof.
  intros Hx Hy. destruct (Num.lt y x) eqn:E; simpl.
  - apply not_true_is_false. intros H. apply NumFacts.le_not_gt in H. congruence.
  - apply NumFacts.not_lt_le; assumption.
Qed.

(** X8. On numbers the two tests agree on a point: a point passes the
    point test against a box exactly when the box of no extent at that
    point passes the overlap test against it. *)
Theorem point_is_a_degenerate_region (lat lon : float) (r : Bounds) :
  number lat -> number lon ->
  number (north r) -> number (south r) -> number (east r) -> number (west r) ->
  pointInRegion lat lon r = regionsOverlap (mkBounds lat lat lon lon) r.
Proof.
  intros Hlat Hlon Hn Hs He Hw.
  pose proof (le_negb_lt (south r) lat Hs Hlat) as E1.
  pose proof (le_negb_lt lat (north r) Hlat Hn) as E2.
  pose proof (le_negb_lt (west r) lon Hw Hlon) as E3.
  pose proof (le_negb_lt lon (east r) Hlon He) as E4.
  unfold pointInRegion, regionsOverlap, asCoord, box, point, Regions.isLocationInBounds.
  simpl. unfold Num.ge, Num.gt, Num.le, Num.lt in *.
  rewrite E1, E2, E3, E4.
  destruct (PrimFloat.ltb lat (south r)), (PrimFloat.ltb (north r) lat),
    (PrimFloat.ltb lon (west r)), (PrimFloat.ltb (east r) lon); reflexivity.
Qed.

Lemma point_is_a_degenerate_region_witness :
  let r := mkBounds 32 31 35 34 in
  number 31.5 /\ number 34.5
  /\ pointInRegion 31.5 34.5 r = regionsOverlap (mkBounds 31.5 31.5 34.5 34.5) r.
Proof.
  intros r. split; [reflexivity|]. split; [reflexivity|].
  apply (point_is_a_degenerate_region 31.5 34.5 r); reflexivity.
Defined.

(** ** More on the location key and the cache *)

Lemma is_space_lower c : Js.is_space (Js.lower c) = Js.is_space c.
Proof. destruct c as [[] [] [] [] [] [] [] []]; reflexivity. Qed.

Lemma lower_lower c : Js.lower (Js.lower c) = Js.lower c.
Proof. destruct c as [[] [] [] [] [] [] [] []]; reflexivity. Qed.

Lemma toLowerCase_idem s : Js.toLowerCase (Js.toLowerCase s) = Js.toLowerCase s.
Proof. induction s as [|c s IH]; simpl; [reflexivity|]. rewrite lower_lower, IH. reflexivity. Qed.

Lemma trimStart_lower s : Js.trimStart (Js.toLowerCase s) = Js.toLowerCase (Js.trimStart s).
Proof.
  induction s as [|c s IH]; simpl; [reflexivity|].
  rewrite is_space_lower. destruct (Js.is_space c); [exact IH|reflexivity].
Qed.

Lemma trimEnd_lower s : Js.trimEnd (Js.toLowerCase s) = Js.toLowerCase (Js.trimEnd s).
Proof.
  induction s as [|c s IH]; simpl; [reflexivity|].
  rewrite IH, is_space_lower.
  destruct (Js.trimEnd s); simpl; [destruct (Js.is_space c)|]; reflexivity.
Qed.

Lemma trim_lower s : Js.trim (Js.toLowerCase s) = Js.toLowerCase (Js.trim s).
Proof. unfold Js.trim. rewrite trimStart_lower, trimEnd_lower. reflexivity. Qed.

Lemma trimEnd_idem s : Js.trimEnd (Js.trimEnd s) = Js.trimEnd s.
Proof.
  induction s as [|c s IH]; simpl; [reflexivity|].
  destruct (Js.trimEnd s) as [|d t] eqn:E.
  - destruct (Js.is_space c) eqn:Ec; simpl; [reflexivity|]. rewrite Ec. reflexivity.
  - change (Js.trimEnd (String c (String d t)))
      with (match Js.trimEnd (String d t) with
            | EmptyString => if Js.is_space c then EmptyString else String c EmptyString
            | u => String c u
            end).
    rewrite IH. reflexivity.
Qed.

Lemma trimStart_no_lead s : no_lead (Js.trimStart s).
Proof.
  induction s as [|c s IH]; simpl; [exact I|].
  destruct (Js.is_space c) eqn:E; [exact IH|exact E].
Qed.

Lemma trimStart_id s : no_lead s -> Js.trimStart s = s.
Proof. destruct s as [|c s]; simpl; [reflexivity|]. intros ->. reflexivity. Qed.

Lemma trimEnd_no_lead s : no_lead s -> no_lead (Js.trimEnd s).
Proof.
  destruct s as [|c s]; simpl; [exact (fun H => H)|]. intros H.
  destruct (Js.trimEnd s); simpl; [rewrite H; simpl|]; exact H.
Qed.

Lemma trim_idem s : Js.trim (Js.trim s) = Js.trim s.
Proof.
  unfold Js.trim.
  rewrite (trimStart_id (Js.trimEnd (Js.trimStart s))).
  - apply trimEnd_idem.
  - apply trimEnd_no_lead, trimStart_no_lead.
Qed.

Lemma trimStart_blank_app pad s : blank pad = true -> Js.trimStart (pad +:+ s) = Js.trimStart s.
Proof.
  induction pad as [|c pad IH]; simpl; [reflexivity|].
  intros [Hc Hp]%andb_true_iff. rewrite Hc. apply IH, Hp.
Qed.

Lemma trimEnd_blank pad : blank pad = true -> Js.trimEnd pad = EmptyString.
Proof.
  induction pad as [|c pad IH]; simpl; [reflexivity|].
  intros [Hc Hp]%andb_true_iff. rewrite (IH Hp), Hc. reflexivity.
Qed.

Lemma trimEnd_app_blank s pad : blank pad = true -> Js.trimEnd (s +:+ pad) = Js.trimEnd s.
Proof.
  intros Hp. induction s as [|c s IH]; simpl; [apply trimEnd_blank, Hp|].
  rewrite IH. reflexivity.
Qed.

Lemma trimStart_app s t : no_lead s -> s <> EmptyString -> Js.trimStart (s +:+ t) = s +:+ t.
Proof.
  destruct s as [|c s]; [congruence|]. simpl. intros -> _. reflexivity.
Qed.

Lemma trim_padded before s after :
  blank before = true -> blank after = true ->
  Js.trim (before +:+ s +:+ after) = Js.trim s.
Proof.
  intros Hb Ha. unfold Js.trim. rewrite trimStart_blank_app by exact Hb.
  clear before Hb. induction s as [|c s IH]; simpl.
  - assert (H : Js.trimStart after = EmptyString).
    { clear -Ha. induction after as [|c a IH]; simpl; [reflexivity|].
      apply andb_true_iff in Ha as [Hc Hr]. rewrite Hc. apply IH, Hr. }
    change (EmptyString +:+ after) with after. rewrite H. reflexivity.
  - destruct (Js.is_space c); [exact IH|].
    change (String c (s +:+ after)) with (String c s +:+ after).
    apply trimEnd_app_blank, Ha.
Qed.

Lemma ascii_only_lower s : ascii_only (Js.toLowerCase s) = ascii_only s.
Proof.
  induction s as [|c s IH]; simpl; [reflexivity|]. rewrite IH. f_equal.
  destruct c as [[] [] [] [] [] [] [] []]; reflexivity.
Qed.

Lemma ascii_only_trimStart s : ascii_only s = true -> ascii_only (Js.trimStart s) = true.
Proof.
  induction s as [|c s IH]; simpl; [reflexivity|].
  intros H. destruct (Js.is_space c); [|exact H].
  apply andb_prop in H as [_ H]. apply IH, H.
Qed.

Lemma ascii_only_trimEnd s : ascii_only s = true -> ascii_only (Js.trimEnd s) = true.
Proof.
  induction s as [|c s IH]; [reflexivity|].
  intros H. apply andb_prop in H as [Hc H]. specialize (IH H).
  cbn [Js.trimEnd]. destruct (Js.trimEnd s) as [|c' t].
  - destruct (Js.is_space c); [reflexivity|]. cbn [ascii_only]. rewrite Hc. reflexivity.
  - cbn [ascii_only] in *. rewrite Hc. exact IH.
Qed.

(** X9. On names in the ASCII range the location key is a normal
    form: taking the key of a key changes nothing, the case of the
    letters does not matter, whitespace around the name does not
    matter, and the key is in the ASCII range again. *)
Theorem locationKey_is_a_normal_form (s : string) :
  ascii_only s = true ->
  locationKey (locationKey s) = locationKey s
  /\ locationKey (Js.toLowerCase s) = locationKey s
  /\ (forall before after,
        blank before = true -> blank after = true ->
        locationKey (before +:+ s +:+ after) = locationKey s)
  /\ ascii_only (locationKey s) = true.
Proof.
  intros Hs. unfold locationKey. split; [|split; [|split]].
  - rewrite trim_lower, trim_idem, toLowerCase_idem. reflexivity.
  - rewrite trim_lower, toLowerCase_idem. reflexivity.
  - intros before after Hb Ha. rewrite (trim_padded before s after Hb Ha). reflexivity.
  - rewrite ascii_only_lower. apply ascii_only_trimEnd, ascii_only_trimStart, Hs.
Qed.

Lemma locationKey_witness :
  ascii_only "Khan Younis" = true
  /\ locationKey (locationKey "Khan Younis") = locationKey "Khan Younis"
  /\ locationKey (Js.toLowerCase "Khan Younis") = locationKey "Khan Younis".
Proof.
  assert (H : ascii_only "Khan Younis" = true) by reflexivity.
  split; [exact H|].
  destruct (locationKey_is_a_normal_form "Khan Younis" H) as (H1 & H2 & _).
  split; [exact H1|exact H2].
Defined.

Lemma fold_rekey_untouched (rest : RawCache) (acc : gmap string (option Coord)) k :
  (forall key v, (key, v) ∈ rest -> locationKey key <> k) ->
  fold_left (fun cache '(key, v) => <[locationKey key := v]> cache) rest acc !! k = acc !! k.
Proof.
  revert acc. induction rest as [|[key v] rest IH]; intros acc H; simpl; [reflexivity|].
  rewrite IH by (intros key' v' Hin; apply (H key' v'); right; exact Hin).
  apply lookup_insert_ne. apply (H key v). left.
Qed.

Lemma setMember_fresh key v obj :
  key ∉ map fst obj -> setMember key v obj = obj ++ [(key, v)].
Proof.
  induction obj as [|[k w] obj IH]; simpl; intros Hn; [reflexivity|].
  destruct (String.eqb_spec k key) as [->|_].
  - exfalso. apply Hn. left.
  - rewrite IH; [reflexivity|]. intros Hin. apply Hn. right. exact Hin.
Qed.

(** A file with distinct keys is parsed to its members in their
    order. *)
Lemma parseMembers_distinct (file : CacheFile) :
  NoDup (map fst file) -> parseMembers file = file.
Proof.
  unfold parseMembers.
  induction file as [|[key v] file IH] using rev_ind; intros Hnd; [reflexivity|].
  rewrite map_app in Hnd. apply NoDup_app in Hnd as (Hnd & Hfresh & _).
  rewrite fold_left_app. simpl. rewrite (IH Hnd).
  apply setMember_fresh. intros Hin. apply (Hfresh key Hin). left.
Qed.

(** Without array indices among the keys, [Object.keys] lists them in
    the order of their creation. *)
Lemma ownProperties_named (obj : list (string * option Coord)) :
  Forall (fun kv => arrayIndex (fst kv) = None) obj -> ownProperties obj = obj.
Proof.
  intros H. unfold ownProperties.
  assert (H1 : omap (fun kv => match arrayIndex (fst kv) with
                               | Some n => Some (n, kv)
                               | None => None
                               end) obj = []).
  { induction H as [|kv obj Hkv _ IH]; simpl; [reflexivity|]. rewrite Hkv. exact IH. }
  assert (H2 : List.filter (fun kv => match arrayIndex (fst kv) with
                                      | Some _ => false
                                      | None => true
                                      end) obj = obj).
  { clear H1. induction H as [|kv obj Hkv _ IH]; simpl; [reflexivity|].
    rewrite Hkv, IH. reflexivity. }
  rewrite H1, H2. reflexivity.
Qed.

(** X10. When the keys of the cache file are distinct and in the ASCII
    range, none is an array index and none normalizes to [__proto__],
    and several keys have the same normalized form, the one that comes last in the file decides:
    the lookup under the normalized key returns its value, [null]
    included. *)
Theorem locationCache_last_key_wins (before rest : CacheFile) (key : string)
    (v : option Coord) :
  plain_keys (before ++ (key, v) :: rest) ->
  (forall key' v', (key', v') ∈ rest -> locationKey key' <> locationKey key) ->
  Regions.locationCache (JSON_parse (before ++ (key, v) :: rest)) !! locationKey key
  = Some v.
Proof.
  intros [Hnd Hplain] H. unfold JSON_parse.
  rewrite (parseMembers_distinct _ Hnd).
  rewrite ownProperties_named
    by (eapply Forall_impl; [exact Hplain|]; intros kv (_ & Hkv & _); exact Hkv).
  unfold Regions.locationCache. rewrite fold_left_app. simpl.
  rewrite fold_rekey_untouched by exact H. apply lookup_insert_eq.
Qed.

Lemma locationCache_last_key_wins_witness :
  plain_keys ([("Gaza"%string, Some (point 31.5 34.47))] ++ (" GAZA "%string, None)
                :: [("Rafah"%string, Some (point 31.3 34.25))])
  /\ (forall key' v', (key', v') ∈ [("Rafah"%string, Some (point 31.3 34.25))] ->
                      locationKey key' <> locationKey " GAZA ")
  /\ Regions.locationCache
       (JSON_parse ([("Gaza"%string, Some (point 31.5 34.47))] ++ (" GAZA "%string, None)
                      :: [("Rafah"%string, Some (point 31.3 34.25))]))
     !! locationKey " GAZA "
     = Some None.
Proof.
  assert (Hp : plain_keys ([("Gaza"%string, Some (point 31.5 34.47))]
                             ++ (" GAZA "%string, None)
                             :: [("Rafah"%string, Some (point 31.3 34.25))])).
  { split.
    - apply NoDup_ListNoDup. repeat constructor; simpl; intuition discriminate.
    - repeat constructor; vm_compute; (reflexivity || discriminate). }
  assert (H : forall key' v', (key', v') ∈ [("Rafah"%string, Some (point 31.3 34.25))] ->
                              locationKey key' <> locationKey " GAZA ").
  { intros key' v' Hin. apply list_elem_of_singleton in Hin. injection Hin as -> _.
    vm_compute. discriminate. }
  split; [exact Hp|]. split; [exact H|].
  apply (locationCache_last_key_wins [("Gaza"%string, Some (point 31.5 34.47))]
           [("Rafah"%string, Some (point 31.3 34.25))] " GAZA " None Hp H).
Defined.

(** ** The edit distance as a metric *)

Module MetricFacts.
Import Lev LevFacts.

Lemma subst_cost_sym a b : subst_cost a b = subst_cost b a.
Proof. unfold subst_cost. destruct (decide (a = b)), (decide (b = a)); congruence. Qed.

Lemma subst_cost_triangle a b c : subst_cost a c <= subst_cost a b + subst_cost b c.
Proof.
  unfold subst_cost.
  destruct (decide (a = c)), (decide (a = b)), (decide (b = c)); try lia. congruence.
Qed.

Lemma script_sym s t n : Script s t n -> Script t s n.
Proof.
  induction 1 as [|a b s t n _ IH|a s t n _ IH|b s t n _ IH].
  - constructor.
  - rewrite subst_cost_sym. apply script_subst, IH.
  - apply script_insert, IH.
  - apply script_delete, IH.
Qed.

Lemma script_refl s : Script s s 0.
Proof.
  induction s as [|a s IH]; [constructor|].
  replace 0 with (0 + subst_cost a a).
  - apply script_subst, IH.
  - unfold subst_cost. destruct (decide (a = a)); [reflexivity|congruence].
Qed.

Lemma script_zero s t n : Script s t n -> n = 0 -> s = t.
Proof.
  induction 1 as [|a b s t n _ IH|a s t n _ IH|b s t n _ IH]; intros H0;
    [reflexivity| |lia|lia].
  unfold subst_cost in H0. destruct (decide (a = b)) as [->|]; [|lia].
  rewrite IH by lia. reflexivity.
Qed.

Lemma script_lengths s t n :
  Script s t n -> length s <= length t + n /\ length t <= length s + n.
Proof.
  induction 1 as [|a b s t n _ IH|a s t n _ IH|b s t n _ IH]; simpl; lia.
Qed.

Lemma distance_max s t : distance s t <= Nat.max (length s) (length t).
Proof.
  revert t. induction s as [|a s IH]; intros t; [simpl; lia|].
  destruct t as [|b t]; [rewrite distance_nil_r; lia|].
  rewrite distance_cons. specialize (IH t). unfold subst_cost.
  destruct (decide (a = b)); simpl length; lia.
Qed.

Lemma script_trans s t n :
  Script s t n -> forall u m, Script t u m -> distance s u <= n + m.
Proof.
  induction 1 as [|a b s t n _ IH|a s t n _ IH|b s t n _ IH]; intros u m Hm.
  - apply distance_least, Hm.
  - remember (b :: t) as t0 eqn:Ht.
    induction Hm as [|b' x t' u' m' Hm' _|b' t' u' m' Hm' _|x t' u' m' Hm' IHm].
    + discriminate.
    + injection Ht as -> ->. specialize (IH _ _ Hm').
      rewrite distance_cons. pose proof (subst_cost_triangle a b x). lia.
    + injection Ht as -> ->. specialize (IH _ _ Hm').
      pose proof (distance_delete a s u'). lia.
    + specialize (IHm Ht). pose proof (distance_insert x (a :: s) u'). lia.
  - specialize (IH _ _ Hm). pose proof (distance_delete a s u). lia.
  - remember (b :: t) as t0 eqn:Ht.
    induction Hm as [|b' x t' u' m' Hm' _|b' t' u' m' Hm' _|x t' u' m' Hm' IHm].
    + discriminate.
    + injection Ht as -> ->. specialize (IH _ _ Hm').
      pose proof (distance_insert x s u'). lia.
    + injection Ht as -> ->. specialize (IH _ _ Hm'). lia.
    + specialize (IHm Ht). pose proof (distance_insert x s u'). lia.
Qed.

Lemma chars_inj s t : chars s = chars t -> s = t.
Proof.
  intros H. rewrite <- (string_of_list_ascii_of_string s), <- (string_of_list_ascii_of_string t).
  unfold chars in H. rewrite H. reflexivity.
Qed.

End MetricFacts.

(** X11. [levenshteinDistance] is symmetric, and it is 0 exactly for
    equal strings: a word matches itself with similarity 1 whichever
    argument it is. *)
Theorem levenshteinDistance_symmetric_and_zero (str1 str2 : string) :
  Lev.levenshteinDistance str1 str2 = Lev.levenshteinDistance str2 str1
  /\ (Lev.levenshteinDistance str1 str2 = 0 <-> str1 = str2).
Proof.
  rewrite !TableFacts.levenshteinDistance_distance. split.
  - apply Nat.le_antisymm; apply LevFacts.distance_least, MetricFacts.script_sym,
      LevFacts.distance_script.
  - split.
    + intros H. apply MetricFacts.chars_inj.
      apply (MetricFacts.script_zero _ _ _ (LevFacts.distance_script _ _) H).
    + intros ->. apply Nat.le_0_r. apply LevFacts.distance_least, MetricFacts.script_refl.
Qed.

(** X12. [levenshteinDistance] lies between the difference of the two
    lengths and the longer length, so the similarity
    [(maxLength - distance) / maxLength] never leaves the range 0 to 1. *)
Theorem levenshteinDistance_bounds (str1 str2 : string) :
  let len1 := String.length str1 in
  let len2 := String.length str2 in
  Nat.max len1 len2 - Nat.min len1 len2 <= Lev.levenshteinDistance str1 str2
  /\ Lev.levenshteinDistance str1 str2 <= Nat.max len1 len2.
Proof.
  cbv zeta. rewrite TableFacts.levenshteinDistance_distance.
  rewrite <- !TableFacts.length_chars.
  pose proof (MetricFacts.script_lengths _ _ _
                (LevFacts.distance_script (Lev.chars str1) (Lev.chars str2))).
  pose proof (MetricFacts.distance_max (Lev.chars str1) (Lev.chars str2)). lia.
Qed.

(** X13. [levenshteinDistance] obeys the triangle inequality: going
    through a third string is never shorter. *)
Theorem levenshteinDistance_triangle (str1 str2 str3 : string) :
  Lev.levenshteinDistance str1 str3
  <= Lev.levenshteinDistance str1 str2 + Lev.levenshteinDistance str2 str3.
Proof.
  rewrite !TableFacts.levenshteinDistance_distance.
  apply (MetricFacts.script_trans _ _ _ (LevFacts.distance_script _ _) _ _
           (LevFacts.distance_script _ _)).
Qed.

(** ** The text search *)

Lemma blank_lower s : blank (Js.toLowerCase s) = blank s.
Proof. induction s as [|c s IH]; simpl; [reflexivity|]. rewrite is_space_lower, IH. reflexivity. Qed.

Lemma splitFrom_blank s inRun :
  blank s = true ->
  fst (Search.splitFrom inRun s) = EmptyString
  /\ Forall (fun t => t = EmptyString) (snd (Search.splitFrom inRun s)).
Proof.
  revert inRun. induction s as [|c s IH]; intros inRun; simpl; [split; [reflexivity|constructor]|].
  intros [Hc Hs]%andb_true_iff. rewrite Hc.
  destruct inRun; [apply IH, Hs|]. simpl. split; [reflexivity|].
  destruct (IH true Hs) as [H1 H2]. destruct (Search.splitFrom true s) as [t ts].
  simpl in *. constructor; assumption.
Qed.

Lemma searchWords_blank s : blank s = true -> Search.searchWords s = [].
Proof.
  intros H. unfold Search.searchWords, Search.split.
  rewrite <- blank_lower in H. destruct (splitFrom_blank _ false H) as [H1 H2].
  destruct (Search.splitFrom false (Js.toLowerCase s)) as [t ts]. simpl in *. subst t. simpl.
  induction H2 as [|t ts -> _ IH]; simpl; [reflexivity|exact IH].
Qed.

(** X14. A query that is empty or whitespace only matches every
    message, whatever its fields are: the fields are not even read. *)
Theorem isTextMatch_blank_query_matches_all (otherToString : Js.JsVal -> string)
    (msg : Message) (searchText : string) :
  blank searchText = true ->
  Search.isTextMatch otherToString msg searchText = Js.Normal true.
Proof.
  intros H. unfold Search.isTextMatch.
  destruct (negb (Js.truthy (Js.JStr searchText))); [reflexivity|].
  rewrite (searchWords_blank _ H). reflexivity.
Qed.

Lemma isTextMatch_blank_witness :
  blank "  " = true
  /\ Search.isTextMatch (fun _ => EmptyString) garbled_report "  " = Js.Normal true.
Proof.
  split; [reflexivity|].
  apply (isTextMatch_blank_query_matches_all (fun _ => EmptyString) garbled_report "  ").
  reflexivity.
Defined.

Lemma is_word_lower c : Search.is_word (Js.lower c) = Search.is_word c.
Proof. destruct c as [[] [] [] [] [] [] [] []]; reflexivity. Qed.

Lemma replacePunctuation_wordless s :
  wordless s = true -> blank (Search.replacePunctuation (Js.toLowerCase s)) = true.
Proof.
  induction s as [|c s IH]; [reflexivity|].
  cbn [wordless Js.toLowerCase Search.replacePunctuation blank].
  intros [Hc Hs]%andb_true_iff. apply negb_true_iff in Hc.
  rewrite (IH Hs), is_word_lower, Hc, andb_true_r.
  cbn [orb]. destruct (Js.is_space (Js.lower c)) eqn:E; [exact E|reflexivity].
Qed.

Lemma collapseFrom_blank s inRun : blank s = true -> blank (Search.collapseFrom inRun s) = true.
Proof.
  revert inRun. induction s as [|c s IH]; intros inRun; simpl; [reflexivity|].
  intros [Hc Hs]%andb_true_iff. rewrite Hc.
  destruct inRun; [apply IH, Hs|]. simpl. apply IH, Hs.
Qed.

Lemma trim_blank s : blank s = true -> Js.trim s = EmptyString.
Proof.
  intros H. unfold Js.trim.
  assert (E : Js.trimStart s = EmptyString).
  { induction s as [|c s IH]; simpl; [reflexivity|].
    apply andb_true_iff in H as [Hc Hs]. rewrite Hc. apply IH, Hs. }
  rewrite E. reflexivity.
Qed.

Lemma normalizeText_wordless s : wordless s = true -> Search.normalizeText s = EmptyString.
Proof.
  intros H. unfold Search.normalizeText.
  apply trim_blank, collapseFrom_blank, replacePunctuation_wordless, H.
Qed.

Lemma forEach_fields otherToString locs fields :
  Forall (fun l => exists s, l = Js.JStr s) locs ->
  exists rest,
    Js.forEach (fun fields field =>
                  Js.bind (Search.fieldToString otherToString field)
                          (fun s => Js.Normal (fields ++ [Search.normalizeText s])))
               locs fields
    = Js.Normal (fields ++ rest).
Proof.
  intros H. revert fields. induction H as [|l locs [s ->] _ IH]; intros fields; simpl.
  - exists []. rewrite app_nil_r. reflexivity.
  - destruct (IH (fields ++ [Search.normalizeText s])) as [rest ->].
    exists (Search.normalizeText s :: rest). rewrite <- app_assoc. reflexivity.
Qed.

Lemma partialMatch_empty_field words fields w :
  w ∈ words -> 2 < String.length w -> EmptyString ∈ fields ->
  Search.partialMatch words fields = true.
Proof.
  intros Hw Hlen Hf. unfold Search.partialMatch. apply existsb_exists.
  exists w. split; [apply list_elem_of_In, Hw|].
  destruct (Nat.leb_spec (String.length w) 2) as [?|_]; [lia|].
  apply existsb_exists. exists EmptyString. split; [apply list_elem_of_In, Hf|].
  unfold Search.startsWith. destruct w; reflexivity.
Qed.

Lemma splitFrom_ascii inRun s :
  ascii_only s = true ->
  ascii_only (fst (Search.splitFrom inRun s)) = true
  /\ Forall (fun w => ascii_only w = true) (snd (Search.splitFrom inRun s)).
Proof.
  revert inRun. induction s as [|c s IH]; intros inRun H; simpl.
  - split; [reflexivity|constructor].
  - apply andb_prop in H as [Hc H].
    destruct (Js.is_space c).
    + destruct inRun.
      * apply IH, H.
      * destruct (IH true H) as [H1 H2].
        destruct (Search.splitFrom true s) as [t ts]. simpl in *.
        split; [reflexivity|]. constructor; assumption.
    + destruct (IH false H) as [H1 H2].
      destruct (Search.splitFrom false s) as [t ts]. simpl in *.
      rewrite Hc, H1. split; [reflexivity|exact H2].
Qed.

(** The words of a query in the ASCII range are in the ASCII range:
    their length is the number of their characters. *)
Lemma searchWords_ascii searchText :
  ascii_only searchText = true ->
  Forall (fun w => ascii_only w = true) (Search.searchWords searchText).
Proof.
  intros H. unfold Search.searchWords, Search.split.
  rewrite <- ascii_only_lower in H.
  destruct (splitFrom_ascii false _ H) as [H1 H2].
  destruct (Search.splitFrom false (Js.toLowerCase searchText)) as [t ts].
  cbn [fst snd] in *. apply Forall_forall. intros w Hw. apply list_elem_of_In, List.filter_In in Hw as [Hw _].
  destruct Hw as [<-|Hw]; [exact H1|].
  rewrite Forall_forall in H2. apply H2, list_elem_of_In, Hw.
Qed.

(** X15. For a query in the ASCII range, whose words then are in the
    ASCII range, a message with a field that is empty or made of ASCII
    punctuation and whitespace only (an empty or missing cleaned text,
    for one) matches every query that has a word of three or more
    characters: the empty piece of the empty field is a prefix of every
    word. *)
Theorem isTextMatch_wordless_field_matches_all (otherToString : Js.JsVal -> string)
    (msg : Message) (searchText w : string) :
  strings_only msg ->
  ascii_only searchText = true ->
  punctuation_only (text msg) = true \/ punctuation_only (cleaned_text msg) = true
  \/ punctuation_only (channel msg) = true ->
  w ∈ Search.searchWords searchText -> 2 < String.length w ->
  ascii_only w = true
  /\ Search.isTextMatch otherToString msg searchText = Js.Normal true.
Proof.
  intros Hs Ha Hfield Hw Hlen. split.
  { pose proof (searchWords_ascii searchText Ha) as Hall.
    rewrite Forall_forall in Hall. apply Hall, Hw. }
  unfold Search.isTextMatch.
  destruct (negb (Js.truthy (Js.JStr searchText))); [reflexivity|].
  destruct (length (Search.searchWords searchText) =? 0)%nat; [reflexivity|].
  unfold Search.textFields.
  destruct (forEach_fields otherToString (locations msg)
              [Search.normalizeText (text msg); Search.normalizeText (cleaned_text msg);
               Search.normalizeText (channel msg)] Hs) as [rest ->].
  simpl. f_equal.
  rewrite (partialMatch_empty_field _ _ w Hw Hlen); [apply orb_true_r|].
  unfold punctuation_only in Hfield.
  destruct Hfield as [H|[H|H]]; apply andb_prop in H as [_ H];
    apply normalizeText_wordless in H; rewrite H.
  - left.
  - right. left.
  - right. right. left.
Qed.

Lemma isTextMatch_wordless_witness :
  strings_only quiet_report
  /\ ascii_only "Zebra crossing" = true
  /\ punctuation_only (cleaned_text quiet_report) = true
  /\ "zebra"%string ∈ Search.searchWords "Zebra crossing"
  /\ Search.isTextMatch (fun _ => EmptyString) quiet_report "Zebra crossing" = Js.Normal true.
Proof.
  assert (Hs : strings_only quiet_report) by (repeat constructor; eexists; reflexivity).
  assert (Ha : ascii_only "Zebra crossing" = true) by reflexivity.
  assert (Hw : "zebra"%string ∈ Search.searchWords "Zebra crossing") by (vm_compute; left).
  split; [exact Hs|]. split; [exact Ha|]. split; [reflexivity|]. split; [exact Hw|].
  apply (isTextMatch_wordless_field_matches_all (fun _ => EmptyString) quiet_report
           "Zebra crossing" "zebra" Hs Ha (or_intror (or_introl eq_refl)) Hw).
  simpl. lia.
Defined.

(** X16. The second strategy adds nothing to the first: whenever one
    field contains all the words, every word is contained in some field,
    so the result of the four strategies is that of the other three. *)
Theorem singleFieldMatch_is_subsumed (words fields : list string) :
  (Search.singleFieldMatch words fields = true -> Search.allWordsMatch words fields = true)
  /\ (Search.allWordsMatch words fields || Search.singleFieldMatch words fields
      || Search.fuzzyMatch words fields || Search.partialMatch words fields)
     = (Search.allWordsMatch words fields
        || Search.fuzzyMatch words fields || Search.partialMatch words fields).
Proof.
  assert (H : Search.singleFieldMatch words fields = true ->
              Search.allWordsMatch words fields = true).
  { unfold Search.singleFieldMatch, Search.allWordsMatch.
    rewrite existsb_exists. intros (field & Hf & Hall).
    rewrite forallb_forall in Hall |- *. intros word Hword.
    apply existsb_exists. exists field. split; [exact Hf|apply Hall, Hword]. }
  split; [exact H|].
  destruct (Search.singleFieldMatch words fields); [rewrite (H eq_refl)|];
    destruct (Search.allWordsMatch words fields); reflexivity.
Qed.

(** X17. The search ignores the case of the letters: two queries with
    the same lower-case form give the same result on every message, and
    a field and its lower-case form are normalized to the same text. *)
Theorem isTextMatch_ignores_case (otherToString : Js.JsVal -> string) (msg : Message)
    (query query' : string) :
  Js.toLowerCase query = Js.toLowerCase query' ->
  Search.isTextMatch otherToString msg query = Search.isTextMatch otherToString msg query'
  /\ forall field, Search.normalizeText (Js.toLowerCase field) = Search.normalizeText field.
Proof.
  intros H. split.
  - unfold Search.isTextMatch, Search.searchWords. rewrite H.
    assert (E : Js.truthy (Js.JStr query) = Js.truthy (Js.JStr query')).
    { simpl. f_equal. destruct query, query'; simpl in *; try reflexivity; discriminate. }
    rewrite E. reflexivity.
  - intros field. unfold Search.normalizeText. rewrite toLowerCase_idem. reflexivity.
Qed.

Lemma isTextMatch_ignores_case_witness :
  Js.toLowerCase "GAZA City" = Js.toLowerCase "gaza city"
  /\ Search.isTextMatch (fun _ => EmptyString) gaza_report "GAZA City"
     = Search.isTextMatch (fun _ => EmptyString) gaza_report "gaza city".
Proof.
  split; [reflexivity|].
  apply (isTextMatch_ignores_case (fun _ => EmptyString) gaza_report "GAZA City" "gaza city").
  reflexivity.
Defined.

(** ** The events view and the date filter *)

(** X18. The events view lists its messages newest first: the list is a
    rearrangement of the input, and when every date is valid it is in
    descending order of time with the messages of one time in their
    input order. *)
Theorem newestFirst_is_stable_descending (timeValue : string -> option Z)
    (messages : list Message) :
  Permutation (Events.newestFirst timeValue messages) messages
  /\ (Forall (fun m => is_Some (timeValue (date m))) messages ->
      StronglySorted (fun a b => (timeOf timeValue b <= timeOf timeValue a)%Z)
                     (Events.newestFirst timeValue messages)
      /\ forall t,
           List.filter (fun m => (timeOf timeValue m =? t)%Z)
                       (Events.newestFirst timeValue messages)
           = List.filter (fun m => (timeOf timeValue m =? t)%Z) messages).
Proof.
  unfold Events.newestFirst. split; [apply sort_perm|].
  intros H. apply byDateDesc_descending in H. split.
  - apply sort_sorted, H.
  - intros t. apply sort_stable, H.
Qed.

Lemma newestFirst_witness :
  Forall (fun m => is_Some (toy_clock (date m))) [first_alert; gaza_report; second_alert]
  /\ StronglySorted (fun a b => (timeOf toy_clock b <= timeOf toy_clock a)%Z)
                    (Events.newestFirst toy_clock [first_alert; gaza_report; second_alert]).
Proof.
  assert (H : Forall (fun m => is_Some (toy_clock (date m)))
                     [first_alert; gaza_report; second_alert]).
  { repeat constructor; eexists; reflexivity. }
  split; [exact H|].
  destruct (newestFirst_is_stable_descending toy_clock
              [first_alert; gaza_report; second_alert]) as [_ Hs].
  apply (Hs H).
Defined.

Lemma filter_sublist {A} (f : A -> bool) l : sublist (List.filter f l) l.
Proof.
  induction l as [|x l IH]; simpl; [constructor|].
  destruct (f x); [apply sublist_skip|apply sublist_cons]; exact IH.
Qed.

(** X19. The date filter of the map. It alerts, and leaves the map as
    it is, exactly when both dates are valid and the start lies after the
    end. Otherwise it redraws the map from the messages whose date is
    valid and lies between the two dates, bounds included, in their
    order; when a date input is empty or invalid no message passes and
    the map is redrawn empty. *)
Theorem onFilterChange_keeps_the_range (timeValue : string -> option Z)
    (startValue endValue : string) (allMessages : list Message) :
  (Events.onFilterChange timeValue startValue endValue allMessages = None <->
     exists s e, timeValue startValue = Some s /\ timeValue endValue = Some e /\ (e < s)%Z)
  /\ (forall shown,
        Events.onFilterChange timeValue startValue endValue allMessages = Some shown ->
        sublist shown allMessages
        /\ forall m, m ∈ shown <->
             m ∈ allMessages
             /\ exists d s e, timeValue (date m) = Some d /\ timeValue startValue = Some s
                              /\ timeValue endValue = Some e /\ (s <= d <= e)%Z)
  /\ (timeValue startValue = None \/ timeValue endValue = None ->
      Events.onFilterChange timeValue startValue endValue allMessages = Some []
      /\ forall cache, Regions.refreshMarkers cache [] = Regions.cleared).
Proof.
  unfold Events.onFilterChange, Events.after.
  split; [|split].
  - destruct (timeValue startValue) as [s|], (timeValue endValue) as [e|];
      try (split; [discriminate|intros (? & ? & ? & ? & _); discriminate]).
    destruct (Z.ltb_spec e s) as [Hlt|Hge]; split.
    + intros _. eauto.
    + reflexivity.
    + discriminate.
    + intros (s' & e' & [= <-] & [= <-] & ?). lia.
  - intros shown H.
    assert (E : shown = List.filter
                          (fun m => Events.within (timeValue (date m)) (timeValue startValue)
                                      (timeValue endValue)) allMessages).
    { destruct (timeValue startValue) as [s|], (timeValue endValue) as [e|];
        try (injection H as <-; reflexivity).
      destruct (e <? s)%Z; [discriminate|]. injection H as <-. reflexivity. }
    subst shown. split; [apply filter_sublist|].
    intros m. rewrite list_elem_of_In, filter_In, <- list_elem_of_In.
    unfold Events.within.
    destruct (timeValue (date m)) as [d|], (timeValue startValue) as [s|],
      (timeValue endValue) as [e|];
      try (split; [intros [_ ?]; discriminate
                  |intros [_ (? & ? & ? & ? & ? & ? & _)]; discriminate]).
    rewrite andb_true_iff, !Z.leb_le. split.
    + intros [Hm Hr]. split; [exact Hm|]. exists d, s, e. auto.
    + intros [Hm (d' & s' & e' & [= <-] & [= <-] & [= <-] & Hr)]. auto.
  - intros H. split; [|reflexivity].
    destruct H as [H|H]; rewrite H.
    + f_equal. induction allMessages as [|m l IH]; simpl; [reflexivity|].
      unfold Events.within at 1. destruct (timeValue (date m)); exact IH.
    + destruct (timeValue startValue) as [s|]; f_equal.
      all: induction allMessages as [|m l IH]; simpl; [reflexivity|].
      all: unfold Events.within at 1; destruct (timeValue (date m)); exact IH.
Qed.

Lemma onFilterChange_witness :
  (fun s : string => if String.eqb s "" then None else toy_clock s) EmptyString = None
  /\ Events.onFilterChange (fun s => if String.eqb s "" then None else toy_clock s)
       "2024-01-01" "" [gaza_report; first_alert]
     = Some [].
Proof.
  split; [reflexivity|].
  destruct (onFilterChange_keeps_the_range
              (fun s => if String.eqb s "" then None else toy_clock s)
              "2024-01-01" "" [gaza_report; first_alert]) as (_ & _ & H).
  apply H. right. reflexivity.
Defined.

Lemma filterPasses_unfiltered timeValue otherToString messages :
  Events.filterPasses timeValue otherToString None EmptyString EmptyString messages
  = Events.Shown messages.
Proof.
  induction messages as [|m l IH]; simpl; [reflexivity|]. rewrite IH. reflexivity.
Qed.

(** With no date, a blank search box and no channel chosen, the filter
    pass keeps every message, provided that the first three messages
    have dates that [toISOString] prints. *)
Lemma filter_pass_without_filters (timeValue : string -> option Z)
    (otherToString : Js.JsVal -> string) (searchBox : string) (allMessages : list Message) :
  blank searchBox = true ->
  Events.applyEventsFilters timeValue otherToString "" "" searchBox "" allMessages
  = if forallb (fun msg => Events.printable (timeValue (date msg))) (take 3 allMessages)
    then Events.Shown allMessages
    else Events.ThrownRangeError.
Proof.
  intros H. unfold Events.applyEventsFilters. simpl.
  rewrite <- blank_lower in H. rewrite (trim_blank _ H).
  destruct (forallb _ (take 3 allMessages)); simpl; [|reflexivity].
  apply filterPasses_unfiltered.
Qed.

(** X21. One date alone selects that day: with only the start date or
    only the end date filled in, the events view shows what it shows
    with that date in both inputs. *)
Theorem applyEventsFilters_single_date_is_that_day (timeValue : string -> option Z)
    (otherToString : Js.JsVal -> string) (day searchBox selectedChannel : string)
    (allMessages : list Message) :
  Events.applyEventsFilters timeValue otherToString day "" searchBox selectedChannel allMessages
  = Events.applyEventsFilters timeValue otherToString day day searchBox selectedChannel
      allMessages
  /\ Events.applyEventsFilters timeValue otherToString "" day searchBox selectedChannel
       allMessages
     = Events.applyEventsFilters timeValue otherToString day day searchBox selectedChannel
         allMessages.
Proof.
  unfold Events.applyEventsFilters.
  destruct (Js.truthy (Js.JStr day)) eqn:E; simpl; rewrite ?E; simpl; split; reflexivity.
Qed.

Lemma filterPasses_shown timeValue otherToString range searchText selectedChannel
    messages shown :
  Events.filterPasses timeValue otherToString range searchText selectedChannel messages
  = Events.Shown shown ->
  sublist shown messages
  /\ forall m, m ∈ shown ->
       Events.passes timeValue otherToString range searchText selectedChannel m
       = inl (Js.Normal true).
Proof.
  revert shown. induction messages as [|msg rest IH]; intros shown; simpl.
  - intros [= <-]. split; [constructor|]. intros m Hm. inversion Hm.
  - destruct (Events.passes timeValue otherToString range searchText selectedChannel msg)
      as [[keep|]|] eqn:Hp; try discriminate.
    destruct (Events.filterPasses timeValue otherToString range searchText selectedChannel rest)
      as [kept| | |]; try discriminate.
    intros [= <-]. destruct (IH kept eq_refl) as [Hsub Hall].
    destruct keep.
    + split; [apply sublist_skip, Hsub|].
      intros m [->|Hm]%elem_of_cons; [exact Hp|apply Hall, Hm].
    + split; [apply sublist_cons, Hsub|exact Hall].
Qed.

(** The list that the filter pass keeps is a selection of the data in
    the order of the data, and with a channel chosen every message of it
    is of that channel. *)
Lemma filter_pass_selection (timeValue : string -> option Z)
    (otherToString : Js.JsVal -> string)
    (startDateInput endDateInput searchBox selectedChannel : string)
    (allMessages shown : list Message) :
  Events.applyEventsFilters timeValue otherToString startDateInput endDateInput searchBox
    selectedChannel allMessages = Events.Shown shown ->
  sublist shown allMessages
  /\ (selectedChannel <> EmptyString ->
      Forall (fun m => channel m = selectedChannel) shown).
Proof.
  unfold Events.applyEventsFilters.
  destruct (match _ with Some (s, e) => Events.after s e | None => false end);
    [discriminate|].
  destruct (match _ with Some (s, e) => negb _ | None => false end); [discriminate|].
  destruct (negb (forallb _ _)); [discriminate|].
  intros H. apply filterPasses_shown in H as [Hsub Hall]. split; [exact Hsub|].
  intros Hc. apply Forall_forall. intros m Hm. specialize (Hall m Hm).
  unfold Events.passes in Hall.
  destruct (if negb _ then _ else _) as [t|]; [|discriminate].
  destruct (String.eqb _ "gaza" && _); [discriminate|].
  injection Hall as Hall. rewrite !andb_true_iff in Hall. destruct Hall as [_ Hch].
  apply orb_true_iff in Hch as [Hch|Hch].
  - exfalso. apply Hc. simpl in Hch. rewrite negb_involutive in Hch.
    apply String.eqb_eq, Hch.
  - apply String.eqb_eq, Hch.
Qed.

Section SortByOrder.
Context {A : Type} (cmp : A -> A -> comparison).
Hypothesis cmp_asym : forall a b, cmp a b = Gt -> cmp b a <> Gt.
Hypothesis cmp_trans : forall a b c, cmp a b <> Gt -> cmp b c <> Gt -> cmp a c <> Gt.

Lemma sort_insert_ordered x l :
  StronglySorted (fun a b => cmp a b <> Gt) l ->
  StronglySorted (fun a b => cmp a b <> Gt) (Js.sort_insert cmp x l).
Proof.
  induction 1 as [|y l Hs IH Hy]; simpl; [repeat constructor|].
  destruct (cmp x y) eqn:E.
  - constructor; [constructor; assumption|].
    constructor; [congruence|]. eapply Forall_impl; [exact Hy|].
    intros z Hz. apply (cmp_trans x y z); [congruence|exact Hz].
  - constructor; [constructor; assumption|].
    constructor; [congruence|]. eapply Forall_impl; [exact Hy|].
    intros z Hz. apply (cmp_trans x y z); [congruence|exact Hz].
  - constructor; [exact IH|].
    rewrite (sort_insert_perm cmp x l). constructor; [apply cmp_asym, E|exact Hy].
Qed.

Lemma sort_ordered l : StronglySorted (fun a b => cmp a b <> Gt) (Js.sort cmp l).
Proof.
  induction l as [|x l IH]; simpl; [constructor|]. apply sort_insert_ordered, IH.
Qed.
End SortByOrder.

Lemma string_compare_asym a b : String.compare a b = Gt -> String.compare b a <> Gt.
Proof. rewrite (String.compare_antisym b a). intros ->. discriminate. Qed.

Lemma string_compare_trans a b c :
  String.compare a b <> Gt -> String.compare b c <> Gt -> String.compare a c <> Gt.
Proof.
  revert b c. induction a as [|x a IH]; intros [|y b] [|z c]; simpl; try congruence.
  unfold Ascii.compare.
  destruct (N.compare_spec (N_of_ascii x) (N_of_ascii y)) as [Exy|Lxy|Gxy];
    destruct (N.compare_spec (N_of_ascii y) (N_of_ascii z)) as [Eyz|Lyz|Gyz];
    destruct (N.compare_spec (N_of_ascii x) (N_of_ascii z)) as [Exz|Lxz|Gxz];
    try congruence; try lia.
  apply IH.
Qed.

Lemma uniqueInOrder_spec seen channels :
  NoDup (Events.uniqueInOrder seen channels)
  /\ forall c, c ∈ Events.uniqueInOrder seen channels <-> c ∈ channels /\ c ∉ seen.
Proof.
  revert seen. induction channels as [|x rest IH]; intros seen; simpl.
  - split; [constructor|]. intros c. split; [inversion 1|intros [H _]; inversion H].
  - assert (Hx : existsb (String.eqb x) seen = true <-> x ∈ seen).
    { rewrite existsb_exists. split.
      - intros (y & Hy & E). apply String.eqb_eq in E as ->. apply list_elem_of_In, Hy.
      - intros H. exists x. split; [apply list_elem_of_In, H|apply String.eqb_refl]. }
    destruct (existsb (String.eqb x) seen) eqn:E.
    + destruct (IH seen) as [Hnd Hin]. split; [exact Hnd|].
      intros c. rewrite Hin, elem_of_cons. split; [intros [? ?]; auto|].
      intros [[->|H] Hn]; [|auto]. exfalso. apply Hn, Hx. reflexivity.
    + assert (Hnot : x ∉ seen) by (intros H; apply Hx in H; discriminate).
      destruct (IH (seen ++ [x])) as [Hnd Hin]. split.
      * constructor; [|exact Hnd]. rewrite Hin. intros [_ H]. apply H.
        apply elem_of_app. right. left.
      * intros c. rewrite !elem_of_cons, Hin, elem_of_app, list_elem_of_singleton.
        split.
        -- intros [->|[H1 H2]]; [auto|]. split; [auto|]. intros H. apply H2. auto.
        -- intros [[->|H1] H2]; [auto|].
           destruct (decide (c = x)) as [->|Hne]; [auto|].
           right. split; [exact H1|]. intros [H|H]; [auto|contradiction].
Qed.

(** X23. The channel list of the events view. With no message it is
    left alone; otherwise it offers every channel of the messages once,
    spelled as in the data, in ascending order of the character
    codes. *)
Theorem initChannelFilter_lists_each_channel_once (messages : list Message) :
  (messages = [] -> Events.initChannelFilter messages = None)
  /\ (messages <> [] ->
      exists options,
        Events.initChannelFilter messages = Some options
        /\ NoDup options
        /\ (forall c, c ∈ options <-> exists m, m ∈ messages /\ channel m = c)
        /\ StronglySorted (fun a b => String.compare a b <> Gt) options).
Proof.
  unfold Events.initChannelFilter. split; [intros ->; reflexivity|].
  intros Hne. destruct messages as [|m0 rest]; [congruence|].
  set (messages := m0 :: rest). simpl length. simpl Nat.eqb.
  eexists. split; [reflexivity|].
  destruct (uniqueInOrder_spec [] (map channel messages)) as [Hnd Hin].
  pose proof (sort_perm Events.byCodeUnits (Events.uniqueInOrder [] (map channel messages)))
    as Hp.
  split; [rewrite Hp; exact Hnd|]. split.
  - intros c. rewrite Hp, Hin, list_elem_of_fmap. split.
    + intros [(m & -> & Hm) _]. eauto.
    + intros (m & Hm & <-). split; [eauto|]. inversion 1.
  - apply sort_ordered; [apply string_compare_asym|apply string_compare_trans].
Qed.

Lemma initChannelFilter_witness :
  [gaza_report; first_alert; second_alert; gaza_report] <> []
  /\ exists options,
       Events.initChannelFilter [gaza_report; first_alert; second_alert; gaza_report]
       = Some options
       /\ NoDup options
       /\ (forall c, c ∈ options <->
              exists m, m ∈ [gaza_report; first_alert; second_alert; gaza_report]
                        /\ channel m = c)
       /\ StronglySorted (fun a b => String.compare a b <> Gt) options.
Proof.
  assert (H : [gaza_report; first_alert; second_alert; gaza_report] <> []) by discriminate.
  split; [exact H|].
  apply (proj2 (initChannelFilter_lists_each_channel_once
                  [gaza_report; first_alert; second_alert; gaza_report]) H).
Defined.

(** ** More on the visibility planner *)

Lemma styledLayers_app calls calls' :
  styledLayers (calls ++ calls') = styledLayers calls ++ styledLayers calls'.
Proof. unfold styledLayers. apply omap_app. Qed.

Lemma styledLayers_restyle zoom len index item :
  styledLayers (Rectangles.restyle zoom len index item) = [Rectangles.layer item].
Proof.
  unfold Rectangles.restyle.
  destruct (Rectangles.shouldShow zoom item); [destruct (_ <? _)%nat|]; reflexivity.
Qed.

Lemma styledLayers_items zoom len items k :
  styledLayers (concat (imap (fun i => Rectangles.restyle zoom len (k + i)) items))
  = map Rectangles.layer items.
Proof.
  revert k. induction items as [|item items IH]; intros k; simpl; [reflexivity|].
  rewrite styledLayers_app, styledLayers_restyle. simpl. f_equal.
  rewrite <- (IH (S k)). f_equal. f_equal. apply imap_ext. intros i x _. simpl.
  f_equal. lia.
Qed.

Lemma layers_measured vlat vlon layers k :
  map Rectangles.layer (imap (fun i => Rectangles.measure vlat vlon (k + i)) layers)
  = seq k (length layers).
Proof.
  revert k. induction layers as [|b layers IH]; intros k; simpl; [reflexivity|].
  rewrite Nat.add_0_r. f_equal. rewrite <- (IH (S k)). f_equal.
  apply imap_ext. intros i x _. simpl. f_equal. lia.
Qed.

Lemma rectanglesWithSize_layers bounds layers :
  Permutation (map Rectangles.layer (Rectangles.rectanglesWithSize bounds layers))
              (seq 0 (length layers)).
Proof.
  unfold Rectangles.rectanglesWithSize. rewrite sort_perm.
  rewrite <- (layers_measured
                (north bounds - south bounds)%float (east bounds - west bounds)%float layers 0).
  reflexivity.
Qed.

(** X24. One pass of the planner sets the style of every rectangle of
    the layer group exactly once, shown or hidden, and never brings a
    rectangle both to the front and to the back. *)
Theorem updateRegionVisibility_styles_each_layer_once (zoom : float) (bounds : Bounds)
    (layers : list Bounds) :
  let calls := Rectangles.updateRegionVisibility true zoom bounds layers in
  Permutation (styledLayers calls) (seq 0 (length layers))
  /\ forall l, ~ (Rectangles.BringToFront l ∈ calls /\ Rectangles.BringToBack l ∈ calls).
Proof.
  intros calls. subst calls. split.
  - unfold Rectangles.updateRegionVisibility. simpl.
    rewrite (styledLayers_items zoom _ _ 0). apply rectanglesWithSize_layers.
  - intros l [Hf Hb].
    apply calls_of_items in Hf as (i & item & Hi & Hf).
    apply calls_of_items in Hb as (j & item' & Hj & Hb).
    apply restyle_front in Hf as (Hl & _ & Hlt).
    apply restyle_back in Hb as (Hl' & _ & Hge).
    assert (Hnd : NoDup (map Rectangles.layer (Rectangles.rectanglesWithSize bounds layers))).
    { rewrite rectanglesWithSize_layers. apply NoDup_ListNoDup, seq_NoDup. }
    assert (i = j); [|lia].
    eapply NoDup_lookup; [exact Hnd| |].
    + rewrite list_lookup_fmap, Hi. reflexivity.
    + rewrite list_lookup_fmap, Hj. simpl. congruence.
Qed.

(** ** The normalized text *)

Lemma word_not_space c : Search.is_word c = true -> Js.is_space c = false.
Proof. destruct c as [[] [] [] [] [] [] [] []]; simpl; intros H; try reflexivity; discriminate. Qed.

Lemma space_not_word c : Js.is_space c = true -> Search.is_word c = false.
Proof. destruct c as [[] [] [] [] [] [] [] []]; simpl; intros H; try reflexivity; discriminate. Qed.

Lemma collapseFrom_spaced s inRun :
  spaced inRun (Search.collapseFrom inRun (Search.replacePunctuation (Js.toLowerCase s))) = true.
Proof.
  revert inRun. induction s as [|c s IH]; intros inRun; [reflexivity|].
  cbn [Js.toLowerCase Search.replacePunctuation Search.collapseFrom].
  destruct (Search.is_word (Js.lower c)) eqn:Hw.
  - cbn [orb]. rewrite (word_not_space _ Hw). cbn [spaced].
    rewrite (word_not_space _ Hw), Hw, lower_lower, Ascii.eqb_refl. apply IH.
  - cbn [orb]. destruct (Js.is_space (Js.lower c)) eqn:Hs.
    + rewrite Hs. destruct inRun; [apply IH|].
      cbn [spaced]. change (Js.is_space " ") with true. cbn. apply IH.
    + change (Js.is_space " ") with true. cbn [andb orb]. destruct inRun; [apply IH|].
      cbn [spaced]. change (Js.is_space " ") with true. cbn. apply IH.
Qed.

Lemma spaced_trimStart s b b' : spaced b s = true -> spaced b' (Js.trimStart s) = true.
Proof.
  revert b. induction s as [|c s IH]; intros b; [reflexivity|].
  cbn [spaced Js.trimStart]. destruct (Js.is_space c) eqn:E.
  - rewrite !andb_true_iff. intros [_ H]. apply (IH true H).
  - cbn [spaced]. rewrite E. exact (fun H => H).
Qed.

Lemma spaced_trimEnd s b : spaced b s = true -> spaced b (Js.trimEnd s) = true.
Proof.
  revert b. induction s as [|c s IH]; intros b; [reflexivity|].
  cbn [spaced Js.trimEnd]. destruct (Js.is_space c) eqn:E.
  - rewrite !andb_true_iff. intros [[H1 H2] H3]. specialize (IH true H3).
    destruct (Js.trimEnd s) as [|d u]; [reflexivity|].
    cbn [spaced] in *. rewrite E, H1, H2. exact IH.
  - rewrite !andb_true_iff. intros [[H1 H2] H3]. specialize (IH false H3).
    destruct (Js.trimEnd s) as [|d u]; cbn [spaced] in *; rewrite E, H1, H2; [reflexivity|].
    exact IH.
Qed.

Lemma spaced_lower s b : spaced b s = true -> Js.toLowerCase s = s.
Proof.
  revert b. induction s as [|c s IH]; intros b; [reflexivity|].
  cbn [spaced Js.toLowerCase]. destruct (Js.is_space c) eqn:E;
    rewrite !andb_true_iff; intros [[H1 H2] H3]; rewrite (IH _ H3); f_equal.
  - apply Ascii.eqb_eq in H1 as ->. reflexivity.
  - apply Ascii.eqb_eq, H2.
Qed.

Lemma spaced_replace s b : spaced b s = true -> Search.replacePunctuation s = s.
Proof.
  revert b. induction s as [|c s IH]; intros b; [reflexivity|].
  cbn [spaced Search.replacePunctuation]. destruct (Js.is_space c) eqn:E;
    rewrite !andb_true_iff; intros [[H1 H2] H3]; rewrite (IH _ H3).
  - rewrite orb_true_r. reflexivity.
  - rewrite H1. reflexivity.
Qed.

Lemma spaced_collapse s b : spaced b s = true -> Search.collapseFrom b s = s.
Proof.
  revert b. induction s as [|c s IH]; intros b; [reflexivity|].
  cbn [spaced Search.collapseFrom]. destruct (Js.is_space c) eqn:E;
    rewrite !andb_true_iff; intros [[H1 H2] H3]; rewrite (IH _ H3).
  - apply negb_true_iff in H2 as ->. apply Ascii.eqb_eq in H1 as ->. reflexivity.
  - reflexivity.
Qed.

Lemma spaced_no_lead s b b' : no_lead s -> spaced b s = true -> spaced b' s = true.
Proof.
  destruct s as [|c s]; [reflexivity|]. cbn [no_lead spaced]. intros ->. exact (fun H => H).
Qed.

(** X25. The text normalization of the search is a normal form. Its
    result holds only lower-case letters, digits, underscores and single
    spaces, with no space at either end, and normalizing a normalized
    text changes nothing. *)
Theorem normalizeText_is_a_normal_form (text : string) :
  spaced false (Search.normalizeText text) = true
  /\ Js.trim (Search.normalizeText text) = Search.normalizeText text
  /\ Search.normalizeText (Search.normalizeText text) = Search.normalizeText text.
Proof.
  assert (Hs : forall b, spaced b (Search.normalizeText text) = true).
  { intros b. unfold Search.normalizeText, Js.trim.
    apply (spaced_no_lead _ false b); [apply trimEnd_no_lead, trimStart_no_lead|].
    apply spaced_trimEnd, (spaced_trimStart _ false), collapseFrom_spaced. }
  assert (Ht : Js.trim (Search.normalizeText text) = Search.normalizeText text).
  { unfold Search.normalizeText. apply trim_idem. }
  split; [apply Hs|]. split; [exact Ht|].
  unfold Search.normalizeText at 1.
  rewrite (spaced_lower _ false (Hs false)), (spaced_replace _ false (Hs false)),
    (spaced_collapse _ false (Hs false)).
  exact Ht.
Qed.

(** ** The groups of the timeline *)

Section TimelineFacts.
Variable dateKey : string -> string.
Variable keyTime : string -> option Z.

Lemma ofDay_snoc key seen msg :
  Events.ofDay dateKey key (seen ++ [msg])
  = if String.eqb (dateKey (date msg)) key then Events.ofDay dateKey key seen ++ [msg]
    else Events.ofDay dateKey key seen.
Proof.
  unfold Events.ofDay. rewrite List.filter_app. simpl.
  destruct (String.eqb (dateKey (date msg)) key); [reflexivity|apply app_nil_r].
Qed.

(** The object after the messages [seen]: its keys are the days of
    [seen] in the order of their first message, and each key holds the
    messages of its day in their order. *)
Lemma pushToDay_keys key msg groups :
  map fst (Events.pushToDay key msg groups)
  = if decide (key ∈ map fst groups) then map fst groups else map fst groups ++ [key].
Proof.
  induction groups as [|[k ms] rest IH]; simpl; [reflexivity|].
  destruct (String.eqb_spec k key) as [->|Hne]; simpl.
  - destruct (decide (key ∈ key :: map fst rest)) as [_|Hn]; [reflexivity|].
    exfalso. apply Hn. left.
  - rewrite IH. destruct (decide (key ∈ map fst rest)) as [Hin|Hnin].
    + destruct (decide (key ∈ k :: map fst rest)) as [_|Hn]; [reflexivity|].
      exfalso. apply Hn. right. exact Hin.
    + destruct (decide (key ∈ k :: map fst rest)) as [Hin|_]; [|reflexivity].
      apply elem_of_cons in Hin as [->|Hin]; contradiction.
Qed.

Lemma dayMessages_pushToDay key msg groups k :
  Events.dayMessages (Events.pushToDay key msg groups) k
  = if String.eqb key k then Events.dayMessages groups k ++ [msg]
    else Events.dayMessages groups k.
Proof.
  induction groups as [|[k' ms] rest IH]; simpl.
  - rewrite String.eqb_sym. destruct (String.eqb k key); reflexivity.
  - destruct (String.eqb_spec k' key) as [->|Hne]; simpl.
    + destruct (String.eqb key k); reflexivity.
    + destruct (String.eqb_spec k' k) as [->|Hne'].
      * destruct (String.eqb_spec key k) as [->|_]; [contradiction|reflexivity].
      * exact IH.
Qed.

Lemma groupByDay_snoc seen msg :
  Events.groupByDay dateKey (seen ++ [msg])
  = Events.pushToDay (dateKey (date msg)) msg (Events.groupByDay dateKey seen).
Proof. unfold Events.groupByDay. rewrite fold_left_app. reflexivity. Qed.

Lemma groupByDay_dayMessages messages key :
  Events.dayMessages (Events.groupByDay dateKey messages) key = Events.ofDay dateKey key messages.
Proof.
  induction messages as [|msg seen IH] using rev_ind; [reflexivity|].
  rewrite groupByDay_snoc, dayMessages_pushToDay, ofDay_snoc, IH. reflexivity.
Qed.

Lemma groupByDay_keys messages :
  NoDup (map fst (Events.groupByDay dateKey messages))
  /\ forall key, key ∈ map fst (Events.groupByDay dateKey messages)
                 <-> key ∈ map (fun m => dateKey (date m)) messages.
Proof.
  induction messages as [|msg seen [IHn IHk]] using rev_ind.
  - split; [constructor|]. intros key. reflexivity.
  - rewrite groupByDay_snoc, pushToDay_keys, map_app. simpl.
    destruct (decide (dateKey (date msg) ∈ map fst (Events.groupByDay dateKey seen)))
      as [Hin|Hnin].
    + split; [exact IHn|]. intros key. rewrite elem_of_app, <- IHk, list_elem_of_singleton.
      split; [tauto|]. intros [H| ->]; assumption.
    + split.
      * apply NoDup_app. split; [exact IHn|]. split; [|apply NoDup_singleton].
        intros k Hk Hk'. apply list_elem_of_singleton in Hk'. subst k. contradiction.
      * intros key. rewrite !elem_of_app, IHk. reflexivity.
Qed.

Lemma ofDay_elem key messages msg :
  msg ∈ Events.ofDay dateKey key messages <-> msg ∈ messages /\ dateKey (date msg) = key.
Proof.
  unfold Events.ofDay. rewrite !list_elem_of_In, List.filter_In.
  destruct (String.eqb_spec (dateKey (date msg)) key); split; intros [H1 H2];
    (split; [exact H1|]); congruence.
Qed.

Lemma day_listed messages key :
  key ∈ map (fun m => dateKey (date m)) messages
  <-> exists msg, msg ∈ messages /\ dateKey (date msg) = key.
Proof.
  rewrite list_elem_of_In, List.in_map_iff. split.
  - intros (msg & E & Hin). exists msg. split; [apply list_elem_of_In; exact Hin|exact E].
  - intros (msg & Hin & E). exists msg. split; [exact E|apply list_elem_of_In; exact Hin].
Qed.

(** Every message falls under exactly one of a list of distinct keys
    that has the key of each message. *)
Lemma ofDay_partition keys messages :
  NoDup keys ->
  (forall msg, msg ∈ messages -> dateKey (date msg) ∈ keys) ->
  list_sum (map (fun key => length (Events.ofDay dateKey key messages)) keys) = length messages.
Proof.
  intros Hnd. induction messages as [|m ms IH]; intros Hcov.
  - simpl. clear. induction keys as [|k ks IH]; simpl; [reflexivity|exact IH].
  - simpl length. rewrite <- IH by (intros msg Hin; apply Hcov; right; exact Hin).
    assert (Hm : dateKey (date m) ∈ keys) by (apply Hcov; left).
    clear IH Hcov. revert Hm. induction Hnd as [|k ks Hk Hnd IH]; intros Hm.
    + inversion Hm.
    + simpl. destruct (String.eqb_spec (dateKey (date m)) k) as [E|Hne].
      * simpl. f_equal. f_equal. clear IH Hm. subst k.
        induction ks as [|k' ks IH]; simpl; [reflexivity|].
        destruct (String.eqb_spec (dateKey (date m)) k') as [E|_].
        -- exfalso. apply Hk. rewrite E. left.
        -- f_equal. apply IH; [|now inversion Hnd].
           intros Hin. apply Hk. right. exact Hin.
      * apply elem_of_cons in Hm as [E|Hm]; [contradiction|].
        rewrite (IH Hm). lia.
Qed.

Lemma list_sum_perm (l l' : list nat) : Permutation l l' -> list_sum l = list_sum l'.
Proof. induction 1; simpl; lia. Qed.

(** The groups of the page: the days of the list in the order of the
    sort, each with the messages of the day. *)
Lemma timeline_groups messages :
  map (fun key => (key, Events.dayMessages (Events.groupByDay dateKey messages) key))
      (Js.sort (Events.byKeyDesc keyTime) (map fst (Events.groupByDay dateKey messages)))
  = map (fun key => (key, Events.ofDay dateKey key messages))
      (Js.sort (Events.byKeyDesc keyTime) (map fst (Events.groupByDay dateKey messages))).
Proof. apply map_ext. intros key. rewrite groupByDay_dayMessages. reflexivity. Qed.

Lemma forallb_false {A} (f : A -> bool) (l : list A) :
  forallb f l = false -> exists x, In x l /\ f x = false.
Proof.
  induction l as [|x l IH]; simpl; [discriminate|].
  destruct (f x) eqn:E.
  - intros H. destruct (IH H) as (y & Hy & Hf). exists y. tauto.
  - intros _. exists x. tauto.
Qed.

Lemma timeline_error messages keys :
  (forall key, key ∈ keys <-> key ∈ map (fun m => dateKey (date m)) messages) ->
  forallb (fun g : string * list Message =>
             forallb (fun msg => forallb Events.hasTrim (locations msg)) (snd g))
          (map (fun key => (key, Events.ofDay dateKey key messages)) keys) = false
  <-> exists msg location, msg ∈ messages /\ location ∈ locations msg
                           /\ Events.hasTrim location = false.
Proof.
  intros Hkeys. rewrite <- not_true_iff_false, List.forallb_forall. split.
  - intros Hn. destruct (forallb (fun msg => forallb Events.hasTrim (locations msg)) messages)
      eqn:E.
    + exfalso. apply Hn. intros g Hg. apply List.in_map_iff in Hg as (key & <- & _).
      simpl. apply List.forallb_forall. intros msg Hin.
      rewrite List.forallb_forall in E. apply E.
      apply list_elem_of_In. apply list_elem_of_In in Hin. apply ofDay_elem in Hin. tauto.
    + apply forallb_false in E as (msg & Hin & Hmsg).
      apply forallb_false in Hmsg as (location & Hl & Hv).
      exists msg, location. rewrite !list_elem_of_In. tauto.
  - intros (msg & location & Hin & Hl & Hv) Hall.
    assert (Hk : dateKey (date msg) ∈ keys).
    { apply Hkeys, day_listed. exists msg. split; [exact Hin|reflexivity]. }
    specialize (Hall (dateKey (date msg), Events.ofDay dateKey (dateKey (date msg)) messages)).
    simpl in Hall. rewrite List.forallb_forall in Hall.
    assert (Hm : forallb Events.hasTrim (locations msg) = true).
    { apply Hall.
      - apply List.in_map_iff. exists (dateKey (date msg)).
        split; [reflexivity|apply list_elem_of_In; exact Hk].
      - apply list_elem_of_In, ofDay_elem. split; [exact Hin|reflexivity]. }
    rewrite List.forallb_forall in Hm. apply list_elem_of_In in Hl.
    rewrite (Hm _ Hl) in Hv. discriminate.
Qed.

(** X26. The date groups of [renderEventsTimeline]. A list without
    messages shows the notice and no group; one location that is not a
    string anywhere in the list ends in the error notice. Otherwise the
    page shows one group for each day that has a message and no other:
    the keys of the groups are distinct, each group holds exactly the
    messages of its day, in the order of the list and at least one, and
    the groups together hold as many events as the list. *)
Theorem renderEventsTimeline_groups_by_day (messages : list Message) :
  (messages = [] <-> Events.renderEventsTimeline dateKey keyTime messages = Events.NoEvents)
  /\ (messages <> [] ->
      (exists msg location, msg ∈ messages /\ location ∈ locations msg
                            /\ Events.hasTrim location = false)
      <-> Events.renderEventsTimeline dateKey keyTime messages = Events.ErrorNotice)
  /\ forall groups,
       Events.renderEventsTimeline dateKey keyTime messages = Events.DateGroups groups ->
       NoDup (map fst groups)
       /\ (forall key, key ∈ map fst groups
                       <-> exists msg, msg ∈ messages /\ dateKey (date msg) = key)
       /\ (forall key dayMessages, (key, dayMessages) ∈ groups ->
             dayMessages = Events.ofDay dateKey key messages /\ dayMessages <> [])
       /\ list_sum (map (fun g => length (snd g)) groups) = length messages.
Proof.
  pose proof (groupByDay_keys messages) as [Hnd Hkeys].
  pose proof (sort_perm (Events.byKeyDesc keyTime)
                (map fst (Events.groupByDay dateKey messages))) as Hperm.
  assert (Hsorted : forall key,
             key ∈ Js.sort (Events.byKeyDesc keyTime)
                     (map fst (Events.groupByDay dateKey messages))
             <-> key ∈ map (fun m => dateKey (date m)) messages).
  { intros key. rewrite <- Hkeys. rewrite Hperm. reflexivity. }
  unfold Events.renderEventsTimeline. cbv zeta. rewrite timeline_groups.
  split; [|split].
  - destruct messages as [|m ms]; [split; reflexivity|].
    change (length (m :: ms) =? 0)%nat with false. cbv iota.
    split; [discriminate|]. destruct (forallb _ _); discriminate.
  - intros Hne. destruct messages as [|m ms]; [contradiction|].
    change (length (m :: ms) =? 0)%nat with false. cbv iota.
    rewrite <- (timeline_error (m :: ms) _ Hsorted).
    destruct (forallb _ _); split; congruence.
  - intros groups. destruct (length messages =? 0)%nat; [discriminate|].
    destruct (forallb _ _); [|discriminate]. intros Hg.
    injection Hg as Hg. subst groups.
    assert (Hfst : map fst (map (fun key => (key, Events.ofDay dateKey key messages))
                     (Js.sort (Events.byKeyDesc keyTime)
                        (map fst (Events.groupByDay dateKey messages))))
                   = Js.sort (Events.byKeyDesc keyTime)
                       (map fst (Events.groupByDay dateKey messages))).
    { rewrite List.map_map. simpl. apply List.map_id. }
    rewrite Hfst. split; [|split; [|split]].
    + rewrite Hperm. exact Hnd.
    + intros key. rewrite Hsorted. apply day_listed.
    + intros key dayMessages Hin. apply list_elem_of_In, List.in_map_iff in Hin.
      destruct Hin as (k & Hk' & Hk). injection Hk' as Hk1 Hk2. subst k dayMessages.
      split; [reflexivity|].
      apply list_elem_of_In, Hsorted, day_listed in Hk as (msg & Hmsg & E).
      intros Hnil.
      assert (Hin : msg ∈ Events.ofDay dateKey key messages) by (apply ofDay_elem; tauto).
      rewrite Hnil in Hin. inversion Hin.
    + rewrite List.map_map. simpl snd.
      rewrite (list_sum_perm _ _ (Permutation_map _ Hperm)).
      apply ofDay_partition; [exact Hnd|].
      intros msg Hin. apply Hkeys, day_listed. exists msg. tauto.
Qed.
End TimelineFacts.

(** ** The sign of a difference of two numbers *)

Module SubFacts.
Import SpecFloat.
Local Open Scope Z_scope.

Lemma digits2_pos_bounds (m : positive) :
  2 ^ (Z.pos (digits2_pos m) - 1) <= Z.pos m < 2 ^ Z.pos (digits2_pos m).
Proof.
  induction m as [m IH|m IH|]; simpl digits2_pos.
  - rewrite Pos2Z.inj_succ, (Pos2Z.inj_xI m).
    replace (Z.succ (Z.pos (digits2_pos m)) - 1) with (Z.succ (Z.pos (digits2_pos m) - 1)) by lia.
    rewrite !Z.pow_succ_r by lia.
    generalize dependent (2 ^ (Z.pos (digits2_pos m) - 1)).
    generalize (2 ^ Z.pos (digits2_pos m)). intros; lia.
  - rewrite Pos2Z.inj_succ, (Pos2Z.inj_xO m).
    replace (Z.succ (Z.pos (digits2_pos m)) - 1) with (Z.succ (Z.pos (digits2_pos m) - 1)) by lia.
    rewrite !Z.pow_succ_r by lia.
    generalize dependent (2 ^ (Z.pos (digits2_pos m) - 1)).
    generalize (2 ^ Z.pos (digits2_pos m)). intros; lia.
  - simpl. lia.
Qed.

Lemma iter_xO (m d : positive) : Z.pos (Pos.iter xO m d) = Z.pos m * 2 ^ Z.pos d.
Proof.
  induction d as [|d IH] using Pos.peano_ind.
  - simpl. lia.
  - rewrite Pos.iter_succ, Pos2Z.inj_xO, IH, Pos2Z.inj_succ, Z.pow_succ_r by lia. lia.
Qed.

(** The mantissa aligned to a smaller exponent. *)
Lemma shl_align_value (m : positive) (e e' : Z) :
  e' <= e -> Z.pos (fst (shl_align m e e')) = Z.pos m * 2 ^ (e - e').
Proof.
  intros H. unfold shl_align. destruct (e' - e) as [|p|p] eqn:E; cbn [fst].
  - replace (e - e') with 0 by lia. rewrite Z.pow_0_r. lia.
  - lia.
  - rewrite iter_xO. f_equal. f_equal. lia.
Qed.

Lemma iter_pos_nat {A} (f : A -> A) (n : positive) (x : A) :
  iter_pos f n x = Nat.iter (Pos.to_nat n) f x.
Proof.
  revert x. induction n as [n IH|n IH|]; intros x; simpl iter_pos.
  - rewrite !IH, Pos2Nat.inj_xI. simpl Nat.iter.
    replace (Pos.to_nat n + (Pos.to_nat n + 0))%nat with (Pos.to_nat n + Pos.to_nat n)%nat by lia.
    rewrite Nat.iter_add, <- !Nat.iter_swap. reflexivity.
  - rewrite !IH, Pos2Nat.inj_xO.
    replace (2 * Pos.to_nat n)%nat with (Pos.to_nat n + Pos.to_nat n)%nat by lia.
    rewrite Nat.iter_add. reflexivity.
  - reflexivity.
Qed.

(** Shifting out fewer digits than the mantissa has leaves a positive
    mantissa. *)
Lemma shr_1_iter (k : nat) (p : positive) (r s : bool) :
  (Z.of_nat k < Z.pos (digits2_pos p)) ->
  exists p' r' s', Nat.iter k shr_1 (Build_shr_record (Z.pos p) r s)
                   = Build_shr_record (Z.pos p') r' s'.
Proof.
  revert p r s. induction k as [|k IH]; intros p r s H.
  - exists p, r, s. reflexivity.
  - rewrite Nat.iter_succ_r.
    destruct p as [q|q|]; simpl digits2_pos in H.
    + simpl shr_1. apply IH. lia.
    + simpl shr_1. apply IH. lia.
    + simpl in H. lia.
Qed.

Lemma shr_fexp_pos (p : positive) (e : Z) :
  emin prec emax <= e ->
  exists mrs e' p',
    shr_fexp prec emax (Z.pos p) e loc_Exact = (mrs, e')
    /\ shr_m mrs = Z.pos p' /\ emin prec emax <= e'.
Proof.
  intros He. unfold shr_fexp, shr. cbn [Zdigits2 shr_record_of_loc].
  destruct (fexp prec emax (Z.pos (digits2_pos p) + e) - e) as [|q|q] eqn:E.
  - eexists _, _, p. split; [reflexivity|]. split; [reflexivity|exact He].
  - assert (Hq : Z.pos q < Z.pos (digits2_pos p)).
    { unfold fexp, emin, prec, emax in *. lia. }
    destruct (shr_1_iter (Pos.to_nat q) p false false) as (p' & r' & s' & Hi).
    { rewrite positive_nat_Z. exact Hq. }
    eexists _, _, p'. split; [reflexivity|]. rewrite iter_pos_nat, Hi.
    split; [reflexivity|]. unfold fexp, emin, prec, emax in *. lia.
  - eexists _, _, p. split; [reflexivity|]. split; [reflexivity|exact He].
Qed.

Lemma round_nearest_even_pos (p : positive) (l : location) :
  exists p', round_nearest_even (Z.pos p) l = Z.pos p'.
Proof.
  destruct l as [|[| |]]; cbn [round_nearest_even].
  - eauto.
  - destruct (Z.even (Z.pos p)); [eauto|]. exists (p + 1)%positive. reflexivity.
  - eauto.
  - exists (p + 1)%positive. reflexivity.
Qed.

(** Rounding a positive mantissa at an exponent that is not below the
    least one gives a finite number or an infinity of the same sign,
    never a zero. *)
Lemma binary_round_aux_sign (s : bool) (p : positive) (e : Z) :
  emin prec emax <= e ->
  (exists m' e', binary_round_aux prec emax s (Z.pos p) e loc_Exact = S754_finite s m' e')
  \/ binary_round_aux prec emax s (Z.pos p) e loc_Exact = S754_infinity s.
Proof.
  intros He. unfold binary_round_aux.
  destruct (shr_fexp_pos p e He) as (mrs & e1 & p1 & E1 & Hp1 & He1).
  rewrite E1, Hp1.
  destruct (round_nearest_even_pos p1 (loc_of_shr_record mrs)) as (p2 & ->).
  destruct (shr_fexp_pos p2 e1 He1) as (mrs2 & e2 & p3 & E2 & Hp3 & He2).
  rewrite E2, Hp3.
  destruct (e2 <=? emax - prec); [left; eauto|right; reflexivity].
Qed.

Lemma binary_round_sign (s : bool) (p : positive) (e : Z) :
  emin prec emax <= e ->
  (exists m' e', binary_round prec emax s p e = S754_finite s m' e')
  \/ binary_round prec emax s p e = S754_infinity s.
Proof.
  intros He. unfold binary_round.
  destruct (shl_align p e (fexp prec emax (Z.pos (digits2_pos p) + e))) as [mz ez] eqn:E.
  apply binary_round_aux_sign.
  unfold shl_align in E.
  destruct (fexp prec emax (Z.pos (digits2_pos p) + e) - e) eqn:E'; injection E as _ <-;
    try exact He.
  unfold fexp, emin, prec, emax. lia.
Qed.

Lemma binary_normalize_sign (d e : Z) :
  emin prec emax <= e -> signed d (binary_normalize prec emax d e false).
Proof.
  intros He. destruct d; cbn [binary_normalize signed].
  - eauto.
  - apply binary_round_sign, He.
  - apply binary_round_sign, He.
Qed.

Lemma signed_compare (d : Z) (r : spec_float) :
  signed d r ->
  SFcompare r (S754_zero false) = Some (d ?= 0)
  /\ SFcompare (S754_zero false) r = Some (0 ?= d).
Proof.
  destruct d; cbn [signed].
  - intros [s ->]. split; reflexivity.
  - intros [(m & e & ->)| ->]; split; reflexivity.
  - intros [(m & e & ->)| ->]; split; reflexivity.
Qed.

(** A mantissa and an exponent in canonical form. *)
Lemma bounded_canonical (m : positive) (e : Z) :
  bounded prec emax m e = true ->
  emin prec emax <= e /\ Z.pos (digits2_pos m) <= 53
  /\ (e = emin prec emax \/ Z.pos (digits2_pos m) = 53).
Proof.
  unfold bounded, canonical_mantissa. intros H. apply andb_prop in H as [H _].
  apply Z.eqb_eq in H. unfold fexp, emin, prec, emax in *. lia.
Qed.

(** Of two canonical numbers the one with the larger exponent is the
    larger. *)
Lemma canonical_exponent_lt (m1 m2 : positive) (e1 e2 : Z) :
  bounded prec emax m1 e1 = true -> bounded prec emax m2 e2 = true ->
  e1 < e2 ->
  Z.pos m1 < Z.pos m2 * 2 ^ (e2 - e1).
Proof.
  intros H1 H2 Hlt.
  apply bounded_canonical in H1 as (He1 & Hd1 & _).
  apply bounded_canonical in H2 as (He2 & Hd2 & Hc2).
  assert (Hd : Z.pos (digits2_pos m2) = 53) by lia.
  pose proof (digits2_pos_bounds m1) as [_ Hm1].
  pose proof (digits2_pos_bounds m2) as [Hm2 _]. rewrite Hd in Hm2.
  assert (Hp1 : 2 ^ Z.pos (digits2_pos m1) <= 2 ^ 53) by (apply Z.pow_le_mono_r; lia).
  assert (Hp2 : 2 ^ 1 <= 2 ^ (e2 - e1)) by (apply Z.pow_le_mono_r; lia).
  change (2 ^ 1) with 2 in Hp2. change (2 ^ (53 - 1)) with 4503599627370496 in Hm2.
  change (2 ^ 53) with 9007199254740992 in Hp1.
  nia.
Qed.

Lemma aligned_compare (m1 m2 : positive) (e1 e2 : Z) :
  bounded prec emax m1 e1 = true -> bounded prec emax m2 e2 = true ->
  (Z.pos (fst (shl_align m1 e1 (Z.min e1 e2))) ?= Z.pos (fst (shl_align m2 e2 (Z.min e1 e2))))
  = match e1 ?= e2 with
    | Lt => Lt
    | Gt => Gt
    | Eq => Pos.compare_cont Eq m1 m2
    end.
Proof.
  intros H1 H2. rewrite !shl_align_value by lia.
  destruct (Z.compare_spec e1 e2) as [->|Hlt|Hgt].
  - rewrite Z.min_id, Z.sub_diag, Z.pow_0_r, !Z.mul_1_r. reflexivity.
  - rewrite Z.min_l by lia. rewrite Z.sub_diag, Z.pow_0_r, Z.mul_1_r.
    apply Z.compare_lt_iff. apply canonical_exponent_lt; assumption.
  - rewrite Z.min_r by lia. rewrite Z.sub_diag, Z.pow_0_r, Z.mul_1_r.
    apply Z.compare_gt_iff. apply canonical_exponent_lt; assumption || lia.
Qed.

(** The difference of two finite numbers compares with zero as the
    numbers compare with each other. *)
Lemma SFsub_compare (x y : spec_float) :
  valid_binary prec emax x = true -> valid_binary prec emax y = true ->
  finite_SF x = true -> finite_SF y = true ->
  SFcompare (SFsub prec emax x y) (S754_zero false) = SFcompare x y
  /\ SFcompare (S754_zero false) (SFsub prec emax x y) = SFcompare y x.
Proof.
  intros Vx Vy Fx Fy.
  destruct x as [sx|sx| |sx mx ex]; try discriminate;
    destruct y as [sy|sy| |sy my ey]; try discriminate.
  - destruct sx, sy; split; reflexivity.
  - destruct sy; split; reflexivity.
  - destruct sx; split; reflexivity.
  - cbn [valid_binary] in Vx, Vy. cbn [SFsub].
    pose proof (bounded_canonical _ _ Vx) as (Hex & _).
    pose proof (bounded_canonical _ _ Vy) as (Hey & _).
    set (d := cond_Zopp sx (Z.pos (fst (shl_align mx ex (Z.min ex ey))))
              - cond_Zopp sy (Z.pos (fst (shl_align my ey (Z.min ex ey))))).
    destruct (signed_compare d _ (binary_normalize_sign d (Z.min ex ey) ltac:(lia)))
      as [-> ->].
    pose proof (aligned_compare mx my ex ey Vx Vy) as Hc.
    pose proof (aligned_compare my mx ey ex Vy Vx) as Hc'.
    rewrite (Z.min_comm ey ex) in Hc'.
    subst d. cbn [SFcompare].
    set (a := Z.pos (fst (shl_align mx ex (Z.min ex ey)))) in *.
    set (b := Z.pos (fst (shl_align my ey (Z.min ex ey)))) in *.
    assert (Ha : 0 < a) by (subst a; lia). assert (Hb : 0 < b) by (subst b; lia).
    destruct sx, sy; cbn [cond_Zopp].
    + split; f_equal.
      * transitivity (CompOpp (a ?= b)).
        -- destruct (Z.compare_spec a b), (Z.compare_spec (- a - - b) 0);
             try reflexivity; lia.
        -- rewrite Hc. destruct (ex ?= ey); reflexivity.
      * transitivity (CompOpp (b ?= a)).
        -- destruct (Z.compare_spec b a), (Z.compare_spec 0 (- a - - b));
             try reflexivity; lia.
        -- rewrite Hc'. destruct (ey ?= ex); reflexivity.
    + split; [f_equal; apply Z.compare_lt_iff; lia|f_equal; apply Z.compare_gt_iff; lia].
    + split; [f_equal; apply Z.compare_gt_iff; lia|f_equal; apply Z.compare_lt_iff; lia].
    + split; f_equal.
      * rewrite <- Hc.
        destruct (Z.compare_spec a b), (Z.compare_spec (a - b) 0); try reflexivity; lia.
      * rewrite <- Hc'.
        destruct (Z.compare_spec b a), (Z.compare_spec 0 (a - b)); try reflexivity; lia.
Qed.
End SubFacts.

Lemma finite_number (x : float) : finite x = true -> number x.
Proof.
  unfold finite, number, Num.seq. rewrite FloatAxioms.eqb_spec.
  destruct (Prim2SF x) as [s|s| |s m e]; try discriminate; intros _.
  - reflexivity.
  - unfold SpecFloat.SFeqb. cbn [SpecFloat.SFcompare].
    rewrite Z.compare_refl, Pos.compare_cont_refl. destruct s; reflexivity.
Qed.

(** [a - b] is negative exactly when [a < b] and positive exactly when
    [a > b], for finite [a] and [b]. *)
Lemma sub_sign (x y : float) :
  finite x = true -> finite y = true ->
  PrimFloat.ltb (x - y) 0 = PrimFloat.ltb x y
  /\ PrimFloat.ltb 0 (x - y) = PrimFloat.ltb y x.
Proof.
  unfold finite. intros Fx Fy.
  rewrite !FloatAxioms.ltb_spec, FloatAxioms.sub_spec.
  change (Prim2SF 0) with (SpecFloat.S754_zero false).
  unfold SpecFloat.SFltb, SF64sub.
  destruct (SubFacts.SFsub_compare (Prim2SF x) (Prim2SF y)
              (FloatAxioms.Prim2SF_valid x) (FloatAxioms.Prim2SF_valid y) Fx Fy) as [-> ->].
  split; reflexivity.
Qed.

Lemma byArea_gt (a b : Rectangles.Item) :
  finite (Rectangles.area a) = true -> finite (Rectangles.area b) = true ->
  (Rectangles.byArea a b = Gt <-> Num.lt (Rectangles.area b) (Rectangles.area a) = true).
Proof.
  intros Fa Fb. unfold Rectangles.byArea, Js.sign, Num.lt.
  destruct (sub_sign _ _ Fa Fb) as [-> ->].
  destruct (PrimFloat.ltb (Rectangles.area a) (Rectangles.area b)) eqn:E.
  - apply (NumFacts.lt_asym _ _) in E. unfold Num.lt in E. rewrite E.
    split; discriminate.
  - destruct (PrimFloat.ltb (Rectangles.area b) (Rectangles.area a)); split;
      congruence.
Qed.

Lemma sort_insert_ascending (x : Rectangles.Item) (l : list Rectangles.Item) :
  finite (Rectangles.area x) = true ->
  Forall (fun item => finite (Rectangles.area item) = true) l ->
  ascending_by_area l ->
  ascending_by_area (Js.sort_insert Rectangles.byArea x l).
Proof.
  unfold ascending_by_area. intros Fx Fl Hs.
  induction Hs as [|y l Hs IH Hy]; simpl.
  - repeat constructor.
  - inversion Fl as [|? ? Fy Fl']; subst.
    destruct (Rectangles.byArea x y) eqn:E.
    1,2: assert (Hxy : Num.le (Rectangles.area x) (Rectangles.area y) = true)
        by (apply NumFacts.not_lt_le;
            [apply finite_number, Fy|apply finite_number, Fx|];
            apply not_true_is_false; intros H%byArea_gt; [congruence|exact Fx|exact Fy]).
    1,2: constructor; [constructor; assumption|];
         constructor; [exact Hxy|];
         eapply Forall_impl; [exact Hy|]; simpl; intros z Hz;
         eapply NumFacts.le_trans; [exact Hxy|exact Hz].
    apply byArea_gt in E; [|exact Fx|exact Fy].
    constructor; [apply IH, Fl'|].
    rewrite (sort_insert_perm Rectangles.byArea x l).
    constructor; [apply NumFacts.lt_le, E|exact Hy].
Qed.

Lemma sort_ascending (l : list Rectangles.Item) :
  Forall (fun item => finite (Rectangles.area item) = true) l ->
  ascending_by_area (Js.sort Rectangles.byArea l).
Proof.
  induction l as [|x l IH]; intros Fl; simpl; [constructor|].
  inversion Fl as [|? ? Fx Fl']; subst.
  apply sort_insert_ascending; [exact Fx| |apply IH, Fl'].
  rewrite (sort_perm Rectangles.byArea l). exact Fl'.
Qed.

Lemma rectanglesWithSize_measured bounds layers :
  Permutation (Rectangles.rectanglesWithSize bounds layers) (measured bounds layers).
Proof. unfold Rectangles.rectanglesWithSize, measured. apply sort_perm. Qed.

Lemma measured_elem bounds layers item :
  item ∈ measured bounds layers <->
  exists i shape,
    layers !! i = Some shape
    /\ item = Rectangles.measure (latSpanOf bounds) (lonSpanOf bounds) i shape.
Proof.
  unfold measured. rewrite elem_of_lookup_imap. split.
  - intros (i & shape & -> & H). eauto.
  - intros (i & shape & H & ->). eauto.
Qed.

(** C5, amended. The list that the planner walks holds every shape
    once, each with its raw area, the product of its two spans, and,
    when every raw area is a finite number, is in ascending order of
    raw area. The halves are taken over all shapes, shown or
    hidden: a layer is brought to front exactly when it is shown and its
    index in this list is below half of the number of all shapes, and
    sent to back exactly when it is shown and its index is not below
    that half. *)
Theorem C5_front_half_of_all_shapes (zoom : float) (bounds : Bounds)
    (layers : list Bounds) (l : nat) :
  let items := Rectangles.rectanglesWithSize bounds layers in
  let calls := Rectangles.updateRegionVisibility true zoom bounds layers in
  Permutation items (measured bounds layers)
  /\ Forall (fun item => exists shape,
                layers !! Rectangles.layer item = Some shape
                /\ Rectangles.area item = rawAreaOf shape) items
  /\ (Forall (fun item => finite (Rectangles.area item) = true) items ->
      ascending_by_area items)
  /\ (Rectangles.BringToFront l ∈ calls <->
     exists index item,
       items !! index = Some item /\ Rectangles.layer item = l
       /\ Rectangles.shouldShow zoom item = true /\ 2 * index < length layers)
  /\ (Rectangles.BringToBack l ∈ calls <->
     exists index item,
       items !! index = Some item /\ Rectangles.layer item = l
       /\ Rectangles.shouldShow zoom item = true /\ length layers <= 2 * index).
Proof.
  intros items calls. subst items calls.
  split; [apply rectanglesWithSize_measured|]. split; [|split; [|split]].
  - apply Forall_forall. intros item Hin.
    rewrite rectanglesWithSize_measured in Hin.
    apply measured_elem in Hin as (i & shape & Hi & ->).
    exists shape. split; [exact Hi|reflexivity].
  - intros Hf. apply sort_ascending.
    rewrite <- (sort_perm Rectangles.byArea). exact Hf.
  - rewrite calls_of_items. split.
    + intros (i & item & Hi & H%restyle_front). eauto.
    + intros (i & item & Hi & H). exists i, item. split; [exact Hi|].
      apply restyle_front. exact H.
  - rewrite calls_of_items. split.
    + intros (i & item & Hi & H%restyle_back). eauto.
    + intros (i & item & Hi & H). exists i, item. split; [exact Hi|].
      apply restyle_back. exact H.
Qed.

Lemma C5_witness :
  Forall (fun item => finite (Rectangles.area item) = true)
         (Rectangles.rectanglesWithSize nested_viewport nested_layers)
  /\ ascending_by_area (Rectangles.rectanglesWithSize nested_viewport nested_layers).
Proof.
  assert (H : Forall (fun item => finite (Rectangles.area item) = true)
                     (Rectangles.rectanglesWithSize nested_viewport nested_layers))
    by (vm_compute; repeat constructor).
  split; [exact H|].
  exact (proj1 (proj2 (proj2
           (C5_front_half_of_all_shapes 14 nested_viewport nested_layers 0))) H).
Defined.

(** ** The style that the planner sets *)

(** The entry of a rectangle of the layer group is in the list, and it
    is the only entry for its layer. *)
Lemma rectanglesWithSize_entry bounds layers i shape :
  layers !! i = Some shape ->
  let entry := Rectangles.measure (latSpanOf bounds) (lonSpanOf bounds) i shape in
  (exists index, Rectangles.rectanglesWithSize bounds layers !! index = Some entry)
  /\ forall index item,
       Rectangles.rectanglesWithSize bounds layers !! index = Some item ->
       Rectangles.layer item = i -> item = entry.
Proof.
  intros Hi entry. split.
  - apply list_elem_of_lookup. rewrite rectanglesWithSize_measured.
    apply measured_elem. eauto.
  - intros index item Hitem Hl.
    assert (Hin : item ∈ Rectangles.rectanglesWithSize bounds layers)
      by (apply list_elem_of_lookup; eauto).
    rewrite rectanglesWithSize_measured in Hin.
    apply measured_elem in Hin as (j & shape' & Hj & ->).
    simpl in Hl. subst j. rewrite Hi in Hj. injection Hj as <-. reflexivity.
Qed.

Lemma hidden_in_bands_measure zoom viewport i shape :
  hidden_in_bands zoom viewport shape <->
  hidden_by_band zoom (Rectangles.measure (latSpanOf viewport) (lonSpanOf viewport) i shape).
Proof. reflexivity. Qed.

Lemma restyle_hidden zoom len index item l :
  Rectangles.SetStyle l 0 0 ∈ Rectangles.restyle zoom len index item <->
  Rectangles.layer item = l /\ Rectangles.shouldShow zoom item = false.
Proof.
  unfold Rectangles.restyle. destruct (Rectangles.shouldShow zoom item).
  - split; [|intros [_ H]; discriminate].
    rewrite !elem_of_cons, elem_of_nil. intros [H|[H|[]]].
    + apply (f_equal (fun c => match c with
                               | Rectangles.SetStyle _ f _ => PrimFloat.eqb f 0
                               | _ => true
                               end)) in H.
      vm_compute in H. discriminate.
    + destruct (_ <? _)%nat; discriminate.
  - rewrite list_elem_of_singleton. split.
    + intros H. injection H as ->. split; reflexivity.
    + intros [-> _]. reflexivity.
Qed.

Lemma restyle_shown zoom len index item l :
  Rectangles.SetStyle l 0.2 0.8 ∈ Rectangles.restyle zoom len index item <->
  Rectangles.layer item = l /\ Rectangles.shouldShow zoom item = true.
Proof.
  unfold Rectangles.restyle. destruct (Rectangles.shouldShow zoom item).
  - rewrite !elem_of_cons, elem_of_nil. split.
    + intros [H|[H|[]]]; [injection H as ->; split; reflexivity|].
      destruct (_ <? _)%nat; discriminate.
    + intros [-> _]. left. reflexivity.
  - rewrite list_elem_of_singleton. split; [|intros [_ H]; discriminate].
    intros H.
    apply (f_equal (fun c => match c with
                             | Rectangles.SetStyle _ f _ => PrimFloat.eqb f 0
                             | _ => true
                             end)) in H.
    vm_compute in H. discriminate.
Qed.

(** C6. The visibility of a shape follows the zoom bands exactly. The
    value of [shouldShow] is false if and only if one of the five band
    conditions holds; for every rectangle of the layer group, every
    viewport and every zoom, the planner sets the hidden style (both
    opacities 0) exactly when one of the five conditions holds for the
    spans of the rectangle and its area relative to the viewport, sets
    the visible style (0.2 and 0.8) exactly when none holds, and moves a
    hidden rectangle neither to the front nor to the back. At zoom 8 a
    region that spans 0.05 degrees of latitude is hidden, and at zoom 14
    a region whose relative area is 0.5 is hidden. *)
Theorem C6_visibility_follows_zoom_bands :
  (forall zoom item,
      Rectangles.shouldShow zoom item = false <-> hidden_by_band zoom item)
  /\ (forall zoom viewport layers i shape,
        layers !! i = Some shape ->
        let calls := Rectangles.updateRegionVisibility true zoom viewport layers in
        (hidden_in_bands zoom viewport shape <-> Rectangles.SetStyle i 0 0 ∈ calls)
        /\ ((~ hidden_in_bands zoom viewport shape) <->
            Rectangles.SetStyle i 0.2 0.8 ∈ calls)
        /\ (hidden_in_bands zoom viewport shape ->
            (Rectangles.BringToFront i ∉ calls) /\ (Rectangles.BringToBack i ∉ calls)))
  /\ (forall viewport layers i shape,
        layers !! i = Some shape -> latSpanOf shape = 0.05%float ->
        Rectangles.SetStyle i 0 0
        ∈ Rectangles.updateRegionVisibility true 8 viewport layers)
  /\ (forall viewport layers i shape,
        layers !! i = Some shape -> relativeAreaOf viewport shape = 0.5%float ->
        Rectangles.SetStyle i 0 0
        ∈ Rectangles.updateRegionVisibility true 14 viewport layers)
  /\ (forall layer area relativeArea lonSpan,
         Rectangles.shouldShow 8 (Rectangles.mkItem layer area relativeArea 0.05 lonSpan)
         = false)
  /\ (forall layer area latSpan lonSpan,
         Rectangles.shouldShow 14 (Rectangles.mkItem layer area 0.5 latSpan lonSpan)
         = false).
Proof.
  assert (Hmain : forall zoom viewport layers i shape,
             layers !! i = Some shape ->
             let calls := Rectangles.updateRegionVisibility true zoom viewport layers in
             (hidden_in_bands zoom viewport shape <-> Rectangles.SetStyle i 0 0 ∈ calls)
             /\ ((~ hidden_in_bands zoom viewport shape) <->
                 Rectangles.SetStyle i 0.2 0.8 ∈ calls)
             /\ (hidden_in_bands zoom viewport shape ->
                 (Rectangles.BringToFront i ∉ calls) /\ (Rectangles.BringToBack i ∉ calls))).
  { intros zoom viewport layers i shape Hi calls. subst calls.
    destruct (rectanglesWithSize_entry viewport layers i shape Hi) as [[k Hk] Honly].
    rewrite (hidden_in_bands_measure zoom viewport i shape), <- shouldShow_hidden_iff.
    set (entry := Rectangles.measure (latSpanOf viewport) (lonSpanOf viewport) i shape) in *.
    assert (Hentry : Rectangles.layer entry = i) by reflexivity.
    split; [|split].
    - rewrite calls_of_items. split.
      + intros H. exists k, entry. split; [exact Hk|]. apply restyle_hidden. tauto.
      + intros (j & item & Hj & (Hl & Hs)%restyle_hidden).
        rewrite <- (Honly j item Hj Hl). exact Hs.
    - rewrite calls_of_items. split.
      + intros H. exists k, entry. split; [exact Hk|]. apply restyle_shown.
        split; [exact Hentry|]. destruct (Rectangles.shouldShow zoom entry); congruence.
      + intros (j & item & Hj & (Hl & Hs)%restyle_shown).
        rewrite <- (Honly j item Hj Hl). congruence.
    - intros H. split; intros Hc; apply calls_of_items in Hc as (j & item & Hj & Hc).
      + apply restyle_front in Hc as (Hl & Hs & _).
        rewrite (Honly j item Hj Hl) in Hs. congruence.
      + apply restyle_back in Hc as (Hl & Hs & _).
        rewrite (Honly j item Hj Hl) in Hs. congruence. }
  split; [exact shouldShow_hidden_iff|]. split; [exact Hmain|].
  split; [|split; [|split]].
  - intros viewport layers i shape Hi Hspan.
    apply (Hmain 8%float viewport layers i shape Hi).
    left. split; [reflexivity|]. left. rewrite Hspan. reflexivity.
  - intros viewport layers i shape Hi Harea.
    apply (Hmain 14%float viewport layers i shape Hi).
    do 3 right. left. split; [reflexivity|]. rewrite Harea. reflexivity.
  - intros. apply shouldShow_hidden_iff. left. split; [reflexivity|].
    left. reflexivity.
  - intros. apply shouldShow_hidden_iff. do 3 right. left. split; reflexivity.
Qed.

Lemma C6_witness :
  ([narrow_region; half_region] !! 0 = Some narrow_region
   /\ latSpanOf narrow_region = 0.05%float
   /\ Rectangles.SetStyle 0 0 0
      ∈ Rectangles.updateRegionVisibility true 8 unit_viewport [narrow_region; half_region])
  /\ ([narrow_region; half_region] !! 1 = Some half_region
      /\ relativeAreaOf unit_viewport half_region = 0.5%float
      /\ Rectangles.SetStyle 1 0 0
         ∈ Rectangles.updateRegionVisibility true 14 unit_viewport
             [narrow_region; half_region]).
Proof.
  assert (H0 : [narrow_region; half_region] !! 0 = Some narrow_region) by reflexivity.
  assert (H1 : [narrow_region; half_region] !! 1 = Some half_region) by reflexivity.
  assert (Hs : latSpanOf narrow_region = 0.05%float) by reflexivity.
  assert (Ha : relativeAreaOf unit_viewport half_region = 0.5%float) by reflexivity.
  split.
  - split; [exact H0|]. split; [exact Hs|].
    exact (proj1 (proj2 (proj2 C6_visibility_follows_zoom_bands))
             unit_viewport [narrow_region; half_region] 0 narrow_region H0 Hs).
  - split; [exact H1|]. split; [exact Ha|].
    exact (proj1 (proj2 (proj2 (proj2 C6_visibility_follows_zoom_bands)))
             unit_viewport [narrow_region; half_region] 1 half_region H1 Ha).
Defined.

(** ** The timeline after the filters *)

Section PageFacts.
Variable timeValue : string -> option Z.
Variable otherToString : Js.JsVal -> string.
Variable dateKey : string -> string.
Variable keyTime : string -> option Z.

Lemma ofDay_other key m messages :
  dateKey (date m) <> key ->
  Events.ofDay dateKey key (m :: messages) = Events.ofDay dateKey key messages.
Proof.
  intros H. unfold Events.ofDay. simpl.
  destruct (String.eqb_spec (dateKey (date m)) key); [contradiction|reflexivity].
Qed.

Lemma ofDay_others keys m messages :
  dateKey (date m) ∉ keys ->
  map (fun key => Events.ofDay dateKey key (m :: messages)) keys
  = map (fun key => Events.ofDay dateKey key messages) keys.
Proof.
  intros H. apply map_ext_in. intros key Hin. apply ofDay_other.
  intros E. apply H. rewrite E. apply list_elem_of_In. exact Hin.
Qed.

(** The days of distinct keys that have the key of each message hold
    every message once. *)
Lemma ofDay_concat keys messages :
  NoDup keys ->
  (forall msg, msg ∈ messages -> dateKey (date msg) ∈ keys) ->
  Permutation (concat (map (fun key => Events.ofDay dateKey key messages) keys)) messages.
Proof.
  intros Hnd. induction messages as [|m ms IH]; intros Hcov.
  - clear. induction keys as [|k ks IH]; simpl; [reflexivity|exact IH].
  - assert (Hm : dateKey (date m) ∈ keys) by (apply Hcov; left).
    apply list_elem_of_split in Hm as (k1 & k2 & Hkeys).
    assert (IH' := IH (fun msg Hin => Hcov msg (list_elem_of_further _ _ _ Hin))).
    rewrite Hkeys in Hnd, IH' |- *.
    apply NoDup_app in Hnd as (_ & Hk1 & Hk2).
    apply NoDup_cons in Hk2 as [Hk2 _].
    rewrite !map_app, !map_cons, !concat_app, !concat_cons in *.
    rewrite (ofDay_others k1 m ms) by (intros Hin; apply (Hk1 _ Hin); left).
    rewrite (ofDay_others k2 m ms) by exact Hk2.
    assert (E : Events.ofDay dateKey (dateKey (date m)) (m :: ms)
                = m :: Events.ofDay dateKey (dateKey (date m)) ms).
    { unfold Events.ofDay. simpl. rewrite String.eqb_refl. reflexivity. }
    rewrite E. etransitivity; [|apply perm_skip, IH'].
    symmetry. apply (Permutation_middle _ (_ ++ _) m).
Qed.

(** The groups that the timeline shows: the days of the list in the
    order of the sort, each with its messages. *)
Lemma renderEventsTimeline_shape messages groups :
  Events.renderEventsTimeline dateKey keyTime messages = Events.DateGroups groups ->
  groups = map (fun key => (key, Events.ofDay dateKey key messages))
             (Js.sort (Events.byKeyDesc keyTime)
                (map fst (Events.groupByDay dateKey messages))).
Proof.
  unfold Events.renderEventsTimeline. cbv zeta. rewrite timeline_groups.
  destruct (length messages =? 0)%nat; [discriminate|].
  destruct (forallb _ _); [|discriminate].
  intros H. injection H as <-. reflexivity.
Qed.

Lemma renderEventsTimeline_perm messages groups :
  Events.renderEventsTimeline dateKey keyTime messages = Events.DateGroups groups ->
  Permutation (concat (map snd groups)) messages
  /\ forall key dayMessages, (key, dayMessages) ∈ groups -> sublist dayMessages messages.
Proof.
  intros H. apply renderEventsTimeline_shape in H. subst groups.
  destruct (groupByDay_keys dateKey keyTime messages) as [Hnd Hkeys].
  pose proof (sort_perm (Events.byKeyDesc keyTime)
                (map fst (Events.groupByDay dateKey messages))) as Hperm.
  split.
  - rewrite map_map. simpl. apply ofDay_concat.
    + rewrite Hperm. exact Hnd.
    + intros msg Hin. rewrite Hperm. apply Hkeys, day_listed. eauto.
  - intros key dayMessages Hin. apply list_elem_of_In, List.in_map_iff in Hin.
    destruct Hin as (k & Hk & _). injection Hk as _ <-. apply filter_sublist.
Qed.

(** X20. With no date, a blank search box and no channel chosen: when
    one of the first three messages has an invalid date the handler
    throws a RangeError and the timeline stays as it was; otherwise the
    filter pass keeps every message in the order of the data and the
    timeline is that of all the messages, so that, when it shows date
    groups, every message is in the groups once. *)
Theorem applyEventsFilters_without_filters (searchBox : string)
    (allMessages : list Message) :
  blank searchBox = true ->
  let valid :=
    forallb (fun msg => Events.printable (timeValue (date msg))) (take 3 allMessages) in
  (valid = false ->
   Events.applyEventsFilters timeValue otherToString "" "" searchBox "" allMessages
   = Events.ThrownRangeError
   /\ Events.eventsTimeline timeValue otherToString dateKey keyTime "" "" searchBox ""
        allMessages = None)
  /\ (valid = true ->
      Events.applyEventsFilters timeValue otherToString "" "" searchBox "" allMessages
      = Events.Shown allMessages
      /\ Events.eventsTimeline timeValue otherToString dateKey keyTime "" "" searchBox ""
           allMessages
         = Some (Events.renderEventsTimeline dateKey keyTime allMessages)
      /\ forall groups,
           Events.renderEventsTimeline dateKey keyTime allMessages
           = Events.DateGroups groups ->
           Permutation (concat (map snd groups)) allMessages).
Proof.
  intros Hb valid. subst valid. unfold Events.eventsTimeline.
  rewrite (filter_pass_without_filters timeValue otherToString searchBox allMessages Hb).
  split; intros ->; [split; reflexivity|].
  split; [reflexivity|]. split; [reflexivity|].
  intros groups Hg. apply (renderEventsTimeline_perm allMessages groups Hg).
Qed.

(** X22. Whatever the filters, when the handler reaches the timeline
    the list that it renders is a selection of the data in the order of
    the data, and with a channel chosen every message of it is of that
    channel, spelled exactly. When the timeline shows date groups, the
    groups together hold the messages of that list once each, and every
    group lists its messages in the order of the data. *)
Theorem applyEventsFilters_shows_a_selection
    (startDateInput endDateInput searchBox selectedChannel : string)
    (allMessages : list Message) (page : Events.Timeline) :
  Events.eventsTimeline timeValue otherToString dateKey keyTime startDateInput endDateInput
    searchBox selectedChannel allMessages = Some page ->
  exists shown,
    Events.applyEventsFilters timeValue otherToString startDateInput endDateInput searchBox
      selectedChannel allMessages = Events.Shown shown
    /\ page = Events.renderEventsTimeline dateKey keyTime shown
    /\ sublist shown allMessages
    /\ (selectedChannel <> EmptyString ->
        Forall (fun m => channel m = selectedChannel) shown)
    /\ forall groups,
         page = Events.DateGroups groups ->
         Permutation (concat (map snd groups)) shown
         /\ forall key dayMessages,
              (key, dayMessages) ∈ groups ->
              sublist dayMessages allMessages
              /\ (selectedChannel <> EmptyString ->
                  Forall (fun m => channel m = selectedChannel) dayMessages).
Proof.
  unfold Events.eventsTimeline.
  destruct (Events.applyEventsFilters timeValue otherToString startDateInput endDateInput
              searchBox selectedChannel allMessages) as [shown| | |] eqn:E; try discriminate.
  intros H. injection H as <-. exists shown.
  destruct (filter_pass_selection _ _ _ _ _ _ _ _ E) as [Hsub Hch].
  split; [reflexivity|]. split; [reflexivity|]. split; [exact Hsub|]. split; [exact Hch|].
  intros groups Hg.
  destruct (renderEventsTimeline_perm shown groups Hg) as [Hperm Hgroups].
  split; [exact Hperm|]. intros key dayMessages Hin.
  specialize (Hgroups key dayMessages Hin). split.
  - etransitivity; [exact Hgroups|exact Hsub].
  - intros Hc. specialize (Hch Hc). rewrite Forall_forall in Hch |- *.
    intros m Hm. apply Hch. eapply elem_of_sublist; [exact Hm|exact Hgroups].
Qed.
End PageFacts.

Lemma applyEventsFilters_without_filters_witness :
  blank " " = true
  /\ forallb (fun msg => Events.printable (toy_clock (date msg)))
             (take 3 [first_alert; gaza_report]) = true
  /\ Events.eventsTimeline toy_clock (fun _ => EmptyString) (fun s => s) toy_clock
       "" "" " " "" [first_alert; gaza_report]
     = Some (Events.DateGroups [("2024-01-02T10:00:00Z"%string, [gaza_report]);
                                ("2024-01-02"%string, [first_alert])]).
Proof.
  assert (Hb : blank " " = true) by reflexivity.
  assert (Hv : forallb (fun msg => Events.printable (toy_clock (date msg)))
                       (take 3 [first_alert; gaza_report]) = true) by reflexivity.
  split; [exact Hb|]. split; [exact Hv|].
  rewrite (proj1 (proj2 (proj2 (applyEventsFilters_without_filters toy_clock
                                  (fun _ => EmptyString) (fun s => s) toy_clock " "
                                  [first_alert; gaza_report] Hb) Hv))).
  vm_compute. reflexivity.
Defined.

Lemma applyEventsFilters_selection_witness :
  Events.eventsTimeline toy_clock (fun _ => EmptyString) (fun s => s) toy_clock
    "" "" "" "wire" [gaza_report; first_alert; second_alert]
  = Some (Events.DateGroups [("2024-01-02"%string, [first_alert])])
  /\ exists shown,
       Events.applyEventsFilters toy_clock (fun _ => EmptyString) "" "" "" "wire"
         [gaza_report; first_alert; second_alert] = Events.Shown shown
       /\ sublist shown [gaza_report; first_alert; second_alert]
       /\ Forall (fun m => channel m = "wire"%string) shown.
Proof.
  assert (H : Events.eventsTimeline toy_clock (fun _ => EmptyString) (fun s => s) toy_clock
                "" "" "" "wire" [gaza_report; first_alert; second_alert]
              = Some (Events.DateGroups [("2024-01-02"%string, [first_alert])]))
    by (vm_compute; reflexivity).
  split; [exact H|].
  destruct (applyEventsFilters_shows_a_selection toy_clock (fun _ => EmptyString)
              (fun s => s) toy_clock "" "" "" "wire" _ _ H)
    as (shown & Hs & _ & Hsub & Hch & _).
  exists shown. split; [exact Hs|]. split; [exact Hsub|]. apply Hch. discriminate.
Defined.
